(** * Debt features of the budget ledger

    A shallow embedding of
    [packages/loot-core/src/server/accounts/interest-automation.ts]
    (interest formulas, posting dates, the interest schedule and the interest
    poster), of [debt-detection.ts] (the debt candidate scorer) and of
    [calculatePayoffMonths] of the report card [PayoffTimelineCard.tsx].

    JavaScript numbers are IEEE-754 binary64 values: they are modelled by
    Rocq's primitive floats, whose [+], [-], [*], [/] and comparisons are the
    IEEE operations, so a formula evaluates here to the very double the
    program computes.  [Math.pow] is left to the platform by ECMAScript
    ("an implementation-approximated value"): it is a parameter of the
    functions that call it. *)

From Stdlib Require Import ZArith Floats Uint63 Bool String Ascii List Lia.
From Stdlib Require Import DecimalString Sorted Permutation.
From Stdlib Require Reals Lra.
From Stdlib Require DecimalZ DecimalPos.
Import ListNotations.

Set Warnings "-inexact-float".

(** ** JavaScript numbers *)

Module Js.

(** An integer of the ledger (cents, a count) read as a [number].  The
    conversion is exact below 2^53. *)
Definition of_Z (z : Z) : float :=
  match z with
  | Z0 => 0%float
  | Zpos _ => PrimFloat.of_uint63 (Uint63.of_Z z)
  | Zneg p => (- PrimFloat.of_uint63 (Uint63.of_Z (Zpos p)))%float
  end.

(** [Math.round]: the integer closest to [x], a tie going towards +infinity;
    NaN, the infinities and the integers are returned as they are, and a
    negative [x] that rounds to zero gives [-0]. *)
Definition Math_round (x : float) : float :=
  match Prim2SF x with
  | S754_finite s m e =>
      if (0 <=? e)%Z then x
      else
        let d := (2 ^ (- e))%Z in
        let q := (Z.pos m / d)%Z in
        let r := (Z.pos m mod d)%Z in
        let up := if s then (d <? 2 * r)%Z else (d <=? 2 * r)%Z in
        let a := of_Z (if up then q + 1 else q)%Z in
        if s then (- a)%float else a
  | _ => x
  end.

Definition Math_abs (x : float) : float := PrimFloat.abs x.

(** [x === y] on numbers: IEEE equality ([NaN] differs from itself, [+0]
    equals [-0]). *)
Definition strict_eq (x y : float) : bool := PrimFloat.eqb x y.

(** [Math.min] on two numbers. *)
Definition Math_min (x y : float) : float :=
  if PrimFloat.ltb x y then x
  else if PrimFloat.ltb y x then y
  else if PrimFloat.eqb x y then
         (if PrimFloat.eqb x 0 then
            (match Prim2SF x with S754_zero true => x | _ => y end)
          else x)
  else nan.

End Js.

(** ** The interest formulas *)

Module Interest.

Import Js.
Local Open Scope float_scope.
Local Open Scope string_scope.

Section Formulas.

(** [Math.pow], as the platform provides it. *)
Variable Math_pow : float -> float -> float.

(** [calculateAPRFromInterest(interestCharged, principal, interestScheme)].
    The [try]/[catch] of the source has no counterpart: no operation of the
    body throws ([Math.pow] returns NaN outside its domain). *)
Definition calculateAPRFromInterest
    (interestCharged principal : float) (interestScheme : string) : option float :=
  if strict_eq principal 0 || strict_eq interestCharged 0 then None
  else
    let absPrincipal := Math_abs principal in
    let absInterest := Math_abs interestCharged in
    if (interestScheme =? "simple")%string then
      let rate := (absInterest / absPrincipal) * 12 in
      Some (Math_round (rate * 100 * 100) / 100)
    else if (interestScheme =? "compound_monthly")%string then
      let rate := (absInterest / absPrincipal) * 12 in
      Some (Math_round (rate * 100 * 100) / 100)
    else if (interestScheme =? "compound_daily")%string then
      let ratio := 1 + absInterest / absPrincipal in
      let dailyRate := Math_pow ratio (1 / 30) - 1 in
      let rate := dailyRate * 365 in
      Some (Math_round (rate * 100 * 100) / 100)
    else if (interestScheme =? "compound_annually")%string then
      let ratio := 1 + absInterest / absPrincipal in
      let rate := Math_pow ratio 12 - 1 in
      Some (Math_round (rate * 100 * 100) / 100)
    else
      let rate := (absInterest / absPrincipal) * 12 in
      Some (Math_round (rate * 100 * 100) / 100).

(** [calculateInterest(balance, apr, interestScheme, _compoundingFrequency)]. *)
Definition calculateInterest
    (balance apr : float) (interestScheme _compoundingFrequency : string) : float :=
  let principal := Math_abs balance in
  if strict_eq principal 0 || strict_eq apr 0 then 0
  else
    let rate := apr / 100 in
    if (interestScheme =? "simple")%string then
      Math_round ((principal * rate) / 12)
    else if (interestScheme =? "compound_monthly")%string then
      let monthlyRate := rate / 12 in
      let interest := principal * monthlyRate in
      Math_round interest
    else if (interestScheme =? "compound_daily")%string then
      let dailyRate := rate / 365 in
      let daysInMonth := 30 in
      let amount := principal * Math_pow (1 + dailyRate) daysInMonth in
      let interest := amount - principal in
      Math_round interest
    else if (interestScheme =? "compound_annually")%string then
      let amount := principal * Math_pow (1 + rate) (1 / 12) in
      let interest := amount - principal in
      Math_round interest
    else
      Math_round ((principal * rate) / 12).

End Formulas.

End Interest.

(** ** Calendar days as strings *)

Module Dates.

Local Open Scope string_scope.
Local Open Scope Z_scope.

(** *** Strings and integers, as JavaScript converts them *)

(** [String(n)] for an integer [n]. *)
Definition String_of_Z (n : Z) : string :=
  DecimalString.NilZero.string_of_int (Z.to_int n).

(** A [number] that holds an integer or [NaN] ([None]). *)
Definition show_number (n : option Z) : string :=
  match n with
  | Some z => String_of_Z z
  | None => "NaN"
  end.

Fixpoint repeat_char (c : ascii) (n : nat) : string :=
  match n with
  | O => EmptyString
  | S n' => String c (repeat_char c n')
  end.

(** [s.padStart(n, c)] for a one-character filler. *)
Definition padStart (n : nat) (c : ascii) (s : string) : string :=
  repeat_char c (n - String.length s) ++ s.

(** [s.slice(a, b)] for indices [0 <= a <= b]. *)
Definition slice (a b : nat) (s : string) : string :=
  substring a (b - a) s.

Definition is_digit (c : ascii) : bool :=
  ((48 <=? nat_of_ascii c) && (nat_of_ascii c <=? 57))%nat.

Definition is_space (c : ascii) : bool :=
  let n := nat_of_ascii c in
  ((n =? 32) || ((9 <=? n) && (n <=? 13)))%nat.

Fixpoint skip_spaces (s : string) : string :=
  match s with
  | String c s' => if is_space c then skip_spaces s' else s
  | EmptyString => s
  end.

Fixpoint digits_prefix (s : string) (acc : option Z) : option Z :=
  match s with
  | String c s' =>
      if is_digit c then
        let d := Z.of_nat (nat_of_ascii c) - 48 in
        digits_prefix s' (Some (10 * match acc with Some a => a | None => 0 end + d))
      else acc
  | EmptyString => acc
  end.

(** [parseInt(s)] in radix 10: leading blanks, an optional sign, then the
    longest run of digits; [None] is [NaN].  (The [0x] prefix of radix 16 is
    not modelled; no string of the program carries one.) *)
Definition parseInt (s : string) : option Z :=
  match skip_spaces s with
  | String "-"%char s' => option_map Z.opp (digits_prefix s' None)
  | String "+"%char s' => digits_prefix s' None
  | s' => digits_prefix s' None
  end.

(** [s.split('-')]. *)
Fixpoint split_dash (s : string) : list string :=
  match s with
  | EmptyString => [EmptyString]
  | String c s' =>
      if Ascii.eqb c "-" then EmptyString :: split_dash s'
      else match split_dash s' with
           | h :: t => String c h :: t
           | [] => [String c EmptyString]
           end
  end.

(** *** The calendar *)

Definition is_leap_year (y : Z) : bool :=
  ((y mod 4 =? 0) && negb (y mod 100 =? 0)) || (y mod 400 =? 0).

Definition days_in_month (y m : Z) : Z :=
  if m =? 2 then (if is_leap_year y then 29 else 28)
  else if (m =? 4) || (m =? 6) || (m =? 9) || (m =? 11) then 30
  else 31.

(** The calendar month ([1..12]) that lies [n] months after month [m] of
    year [y]. *)
Definition shift_month (y m n : Z) : Z * Z :=
  let t := y * 12 + (m - 1) + n in
  (t / 12, t mod 12 + 1).

(** [yyyy-MM] and [yyyy-MM-dd]. *)
Definition show_month (y m : Z) : string :=
  padStart 4 "0" (String_of_Z y) ++ "-" ++ padStart 2 "0" (String_of_Z m).

Definition show_day (y m d : Z) : string :=
  show_month y m ++ "-" ++ padStart 2 "0" (String_of_Z d).

(** A day or a month read back: year, month and day (1 when the string is a
    month). *)
Definition parse_date (s : string) : option (Z * Z * Z) :=
  match split_dash s with
  | [ys; ms; ds] =>
      match parseInt ys, parseInt ms, parseInt ds with
      | Some y, Some m, Some d => Some (y, m, d)
      | _, _, _ => None
      end
  | [ys; ms] =>
      match parseInt ys, parseInt ms with
      | Some y, Some m => Some (y, m, 1)
      | _, _ => None
      end
  | _ => None
  end.

(** Modelled from the spec: [monthUtils.addMonths] (shared/months is not
    among the sources).  The month, as [yyyy-MM], that lies [n] calendar
    months after the month of the given day; [None] when the day cannot be
    read. *)
Definition addMonths (date : string) (n : Z) : option string :=
  match parse_date date with
  | Some (y, m, _) =>
      let '(y', m') := shift_month y m n in Some (show_month y' m')
  | None => None
  end.

(** Modelled from the spec: [monthUtils.lastDayOfMonth] (shared/months is
    not among the sources).  The last calendar day, as [yyyy-MM-dd], of the
    month of the given day or month. *)
Definition lastDayOfMonth (month : string) : option string :=
  match parse_date month with
  | Some (y, m, _) => Some (show_day y m (days_in_month y m))
  | None => None
  end.

(** [new Date(year, monthIndex, 0).getDate()]: the day before the first of
    month [monthIndex] (counted from 0), that is the number of days of the
    month before it.  The constructor reads a year in [0..99] as [1900 + year]
    and carries a month index outside [0..11] into the year; a [NaN] argument
    gives an invalid date, whose day is [NaN]. *)
Definition Date_last_day (year monthIndex : option Z) : option Z :=
  match year, monthIndex with
  | Some y, Some mi =>
      let y0 := if (0 <=? y) && (y <=? 99) then 1900 + y else y in
      let '(y', m') := shift_month y0 1 (mi - 1) in
      Some (days_in_month y' m')
  | _, _ => None
  end.

(** [Math.min] on integers and [NaN]. *)
Definition Math_min (a b : option Z) : option Z :=
  match a, b with
  | Some x, Some y => Some (Z.min x y)
  | _, _ => None
  end.

(** [getNextInterestDate(interestPostingDay, fromDate)].  [today] is the
    value of [monthUtils.currentDay()]; the result is [None] when
    [monthUtils] fails on the date. *)
Definition getNextInterestDate (today : string)
    (interestPostingDay : option Z) (fromDate : option string) : option string :=
  let current :=
    match fromDate with
    | Some s => if (s =? "")%string then today else s
    | None => today
    end in
  match addMonths current 1 with
  | None => None
  | Some nextMonth =>
      match interestPostingDay with
      | None => lastDayOfMonth nextMonth
      | Some postingDay =>
          let year := parseInt (slice 0 4 nextMonth) in
          let month := parseInt (slice 5 7 nextMonth) in
          let lastDay := Date_last_day year month in
          let day := Math_min (Some postingDay) lastDay in
          Some (show_number year ++ "-"
                ++ padStart 2 "0" (show_number month) ++ "-"
                ++ padStart 2 "0" (show_number day))
      end
  end.

End Dates.

(** ** The ledger store *)

Module Ledger.

Import Js.
Local Open Scope string_scope.

(** *** Rows

    Modelled from the spec: the tables of the ledger storage ([server/db] is
    not among the sources).  A table is the list of its rows, in the order a
    query without [ORDER BY] visits them. *)

Record account := {
  acc_id : string;
  acc_name : string;
  acc_offbudget : bool;
  acc_closed : bool;
  acc_tombstone : bool;
  acc_is_debt : bool
}.

Record transaction := {
  tx_id : string;
  tx_acct : string;
  tx_amount : float;
  tx_date : string;
  tx_payee : option string;
  tx_category : option string;
  tx_notes : option string;
  tx_cleared : bool;
  tx_tombstone : bool
}.

Record payee := { payee_id : string; payee_name : string }.

Record category := {
  cat_id : string;
  cat_name : string;
  cat_tombstone : bool
}.

Record rule := { rule_id : string; rule_stage : option string }.

Record rule_condition := {
  rc_id : string;
  rc_rule : string;
  rc_field : string;
  rc_op : string;
  rc_value : string
}.

(** The value of an action: a text (a payee or category id), or the blob
    [JSON.stringify({apr, interestScheme, compoundingFrequency})], kept as its
    three fields. *)
Inductive action_value :=
| AText (s : string)
| AInterestConfig (apr : float) (interestScheme compoundingFrequency : string).

Record rule_action := {
  ra_id : string;
  ra_rule : string;
  ra_field : string;
  ra_op : string;
  ra_value : action_value
}.

Record schedule := {
  sch_id : string;
  sch_rule : string;
  sch_active : bool;
  sch_completed : bool;
  sch_posts_transaction : bool;
  sch_name : string
}.

Record next_date := {
  nd_id : string;
  nd_schedule_id : string;
  nd_local_next_date : Z;
  nd_local_next_date_ts : Z;
  nd_base_next_date : Z;
  nd_base_next_date_ts : Z
}.

Record database := {
  accounts : list account;
  transactions : list transaction;
  payees : list payee;
  categories : list category;
  rules : list rule;
  rule_conditions : list rule_condition;
  rule_actions : list rule_action;
  schedules : list schedule;
  schedules_next_date : list next_date
}.

(** The store together with the number of identifiers [uuidv4] has handed
    out so far. *)
Record world := { db : database; uuid_count : nat }.

(** What an operation reads from the clock: [monthUtils.currentDay()] and
    [Date.now()]. *)
Record env := { today : string; now : Z }.

(** *** Operations: state passing with exceptions *)

Inductive outcome (A : Type) :=
| Ok (a : A)
| Throw (message : string).
Arguments Ok {A} a.
Arguments Throw {A} message.

Definition M (A : Type) : Type := world -> outcome A * world.

Definition ret {A} (a : A) : M A := fun w => (Ok a, w).

Definition throw {A} (message : string) : M A := fun w => (Throw message, w).

Definition bind {A B} (c : M A) (k : A -> M B) : M B :=
  fun w =>
    match c w with
    | (Ok a, w') => k a w'
    | (Throw e, w') => (Throw e, w')
    end.

Notation "x <- c ;; k" := (bind c (fun x => k))
  (at level 61, c at next level, right associativity).
Notation "c ;;; k" := (bind c (fun _ => k))
  (at level 61, right associativity).

Definition query {A} (f : database -> A) : M A := fun w => (Ok (f (db w)), w).

Definition modify (f : database -> database) : M unit :=
  fun w => (Ok tt, {| db := f (db w); uuid_count := uuid_count w |}).

Definition set_transactions (l : list transaction) (d : database) : database :=
  {| accounts := accounts d; transactions := l; payees := payees d;
     categories := categories d; rules := rules d;
     rule_conditions := rule_conditions d; rule_actions := rule_actions d;
     schedules := schedules d; schedules_next_date := schedules_next_date d |}.

Definition set_payees (l : list payee) (d : database) : database :=
  {| accounts := accounts d; transactions := transactions d; payees := l;
     categories := categories d; rules := rules d;
     rule_conditions := rule_conditions d; rule_actions := rule_actions d;
     schedules := schedules d; schedules_next_date := schedules_next_date d |}.

Definition set_rules (l : list rule) (d : database) : database :=
  {| accounts := accounts d; transactions := transactions d; payees := payees d;
     categories := categories d; rules := l;
     rule_conditions := rule_conditions d; rule_actions := rule_actions d;
     schedules := schedules d; schedules_next_date := schedules_next_date d |}.

Definition set_rule_conditions (l : list rule_condition) (d : database) : database :=
  {| accounts := accounts d; transactions := transactions d; payees := payees d;
     categories := categories d; rules := rules d;
     rule_conditions := l; rule_actions := rule_actions d;
     schedules := schedules d; schedules_next_date := schedules_next_date d |}.

Definition set_rule_actions (l : list rule_action) (d : database) : database :=
  {| accounts := accounts d; transactions := transactions d; payees := payees d;
     categories := categories d; rules := rules d;
     rule_conditions := rule_conditions d; rule_actions := l;
     schedules := schedules d; schedules_next_date := schedules_next_date d |}.

Definition set_schedules (l : list schedule) (d : database) : database :=
  {| accounts := accounts d; transactions := transactions d; payees := payees d;
     categories := categories d; rules := rules d;
     rule_conditions := rule_conditions d; rule_actions := rule_actions d;
     schedules := l; schedules_next_date := schedules_next_date d |}.

Definition set_schedules_next_date (l : list next_date) (d : database) : database :=
  {| accounts := accounts d; transactions := transactions d; payees := payees d;
     categories := categories d; rules := rules d;
     rule_conditions := rule_conditions d; rule_actions := rule_actions d;
     schedules := schedules d; schedules_next_date := l |}.

End Ledger.

(** ** The interest schedule manager and the interest poster *)

Module Automation.

Import Js Ledger.
Local Open Scope string_scope.

(** The parameters of [setupInterestSchedule] ([InterestScheduleParams]). *)
Record InterestScheduleParams := {
  accountId : string;
  apr : float;
  interestScheme : string;
  compoundingFrequency : string;
  interestPostingDay : option Z;
  interestCategoryId : string
}.

Definition is_null {A} (o : option A) : bool :=
  match o with
  | None => true
  | Some _ => false
  end.

(** [v || 0] on the result of [sum(amount)]: [NULL], [0] and [NaN] give 0. *)
Definition or_zero (v : option float) : float :=
  match v with
  | None => 0%float
  | Some b => if PrimFloat.eqb b 0 || negb (PrimFloat.eqb b b) then 0%float else b
  end.

(** [sum(amount)] over the selected rows; [NULL] when there is none. *)
Definition sum_amounts (l : list float) : option float :=
  match l with
  | [] => None
  | x :: r => Some (fold_left PrimFloat.add r x)
  end.

(** [SELECT sum(amount) as balance FROM transactions
     WHERE acct = ? AND tombstone = 0]. *)
Definition select_balance (d : database) (acct : string) : option float :=
  sum_amounts
    (map tx_amount
       (filter (fun t => (tx_acct t =? acct) && negb (tx_tombstone t))
          (transactions d))).

(** The join of the lookup: a schedule row [s] is selected for [acct] when
    some rule [r] and some condition [rc] satisfy
    [r.id = s.rule], [rc.rule = r.id], [rc.field = 'acct'], [rc.value = acct]
    and [r.stage IS NULL]. *)
Definition condition_matches (acct : string) (r : rule) (rc : rule_condition) : bool :=
  (rc_rule rc =? rule_id r) && (rc_field rc =? "acct") && (rc_value rc =? acct).

Definition rule_matches (d : database) (acct : string) (s : schedule) (r : rule) : bool :=
  (rule_id r =? sch_rule s) && is_null (rule_stage r)
  && existsb (condition_matches acct r) (rule_conditions d).

Definition governs (d : database) (acct : string) (s : schedule) : bool :=
  existsb (rule_matches d acct s) (rules d).

(** [SELECT s.id, s.rule FROM schedules s JOIN rules r ON r.id = s.rule
     JOIN rule_conditions rc ON rc.rule = r.id
     WHERE rc.field = 'acct' AND rc.value = ? AND r.stage IS NULL LIMIT 1]. *)
Definition select_schedule (d : database) (acct : string) : option (string * string) :=
  match find (governs d acct) (schedules d) with
  | Some s => Some (sch_id s, sch_rule s)
  | None => None
  end.

(** [SELECT id FROM payees WHERE name = ? LIMIT 1]. *)
Definition select_payee (d : database) (name : string) : option string :=
  match find (fun p => payee_name p =? name) (payees d) with
  | Some p => Some (payee_id p)
  | None => None
  end.

(** [SELECT id FROM rule_actions WHERE rule = ? AND field = ?]. *)
Definition select_action (d : database) (ruleId field : string) : option string :=
  match find (fun a => (ra_rule a =? ruleId) && (ra_field a =? field)) (rule_actions d) with
  | Some a => Some (ra_id a)
  | None => None
  end.

Definition set_action_value (id : string) (v : action_value) (a : rule_action) : rule_action :=
  if ra_id a =? id then
    {| ra_id := ra_id a; ra_rule := ra_rule a; ra_field := ra_field a;
       ra_op := ra_op a; ra_value := v |}
  else a.

Definition set_next_date (scheduleId : string) (date ts : Z) (n : next_date) : next_date :=
  if nd_schedule_id n =? scheduleId then
    {| nd_id := nd_id n; nd_schedule_id := nd_schedule_id n;
       nd_local_next_date := date; nd_local_next_date_ts := ts;
       nd_base_next_date := date; nd_base_next_date_ts := ts |}
  else n.

Section Platform.

(** What the platform and the absent modules provide: [Math.pow], the
    identifiers [uuidv4] returns (the n-th one), the text of a number in a
    template literal, and the storage form of a day
    ([db.toDateRepr(monthUtils.dayFromDate(day))]). *)
Variable Math_pow : float -> float -> float.
Variable uuid_of : nat -> string.
Variable Number_toString : float -> string.
Variable toDateRepr : string -> Z.

Definition uuidv4 : M string :=
  fun w => (Ok (uuid_of (uuid_count w)),
            {| db := db w; uuid_count := S (uuid_count w) |}).

(** Modelled from the spec: the write operations of the storage interface
    ([server/db] is not among the sources).  A row inserted without an [id]
    is given one by the store. *)
Definition insertPayee (name : string) : M string :=
  id <- uuidv4 ;;
  modify (fun d => set_payees (payees d ++ [{| payee_id := id; payee_name := name |}]) d) ;;;
  ret id.

Definition insert_rule (r : rule) : M unit :=
  modify (fun d => set_rules (rules d ++ [r]) d).

Definition insert_rule_condition (ruleId field op value : string) : M unit :=
  id <- uuidv4 ;;
  modify (fun d => set_rule_conditions
    (rule_conditions d ++
       [{| rc_id := id; rc_rule := ruleId; rc_field := field; rc_op := op;
           rc_value := value |}]) d).

Definition insert_rule_action (ruleId field op : string) (value : action_value) : M unit :=
  id <- uuidv4 ;;
  modify (fun d => set_rule_actions
    (rule_actions d ++
       [{| ra_id := id; ra_rule := ruleId; ra_field := field; ra_op := op;
           ra_value := value |}]) d).

Definition insert_schedule (s : schedule) : M unit :=
  modify (fun d => set_schedules (schedules d ++ [s]) d).

Definition insertWithUUID_next_date (scheduleId : string) (date ts : Z) : M string :=
  id <- uuidv4 ;;
  modify (fun d => set_schedules_next_date
    (schedules_next_date d ++
       [{| nd_id := id; nd_schedule_id := scheduleId;
           nd_local_next_date := date; nd_local_next_date_ts := ts;
           nd_base_next_date := date; nd_base_next_date_ts := ts |}]) d) ;;;
  ret id.

Definition update_rule_action (id : string) (value : action_value) : M unit :=
  modify (fun d => set_rule_actions (map (set_action_value id value) (rule_actions d)) d).

Definition update_next_date (scheduleId : string) (date ts : Z) : M unit :=
  modify (fun d => set_schedules_next_date
    (map (set_next_date scheduleId date ts) (schedules_next_date d)) d).

Definition insertTransaction (account : string) (amount : float) (payee category : string)
    (date : string) (cleared : bool) (notes : string) : M string :=
  id <- uuidv4 ;;
  modify (fun d => set_transactions
    (transactions d ++
       [{| tx_id := id; tx_acct := account; tx_amount := amount; tx_date := date;
           tx_payee := Some payee; tx_category := Some category;
           tx_notes := Some notes; tx_cleared := cleared; tx_tombstone := false |}]) d) ;;;
  ret id.

(** [getNextInterestDate(interestPostingDay)] from the current day; a date
    [monthUtils] cannot read is an exception. *)
Definition nextInterestDate (e : env) (interestPostingDay : option Z) : M string :=
  match Dates.getNextInterestDate (today e) interestPostingDay None with
  | Some nextDate => ret nextDate
  | None => throw "Invalid time value"
  end.

(** [updateInterestSchedule({scheduleId, ruleId, apr, ...})]. *)
Definition updateInterestSchedule (e : env) (scheduleId ruleId : string)
    (p : InterestScheduleParams) : M unit :=
  configAction <- query (fun d => select_action d ruleId "debt_interest_config") ;;
  match configAction with
  | Some id =>
      update_rule_action id
        (AInterestConfig (apr p) (interestScheme p) (compoundingFrequency p))
  | None => ret tt
  end ;;;
  categoryAction <- query (fun d => select_action d ruleId "category") ;;
  match categoryAction with
  | Some id => update_rule_action id (AText (interestCategoryId p))
  | None => ret tt
  end ;;;
  nextDate <- nextInterestDate e (interestPostingDay p) ;;
  update_next_date scheduleId (toDateRepr nextDate) (now e).

(** [setupInterestSchedule(params)]. *)
Definition setupInterestSchedule (e : env) (p : InterestScheduleParams) : M string :=
  existingSchedule <- query (fun d => select_schedule d (accountId p)) ;;
  match existingSchedule with
  | Some (existing_id, existing_rule) =>
      updateInterestSchedule e existing_id existing_rule p ;;;
      ret existing_id
  | None =>
      scheduleId <- uuidv4 ;;
      ruleId <- uuidv4 ;;
      interestPayee <- query (fun d => select_payee d "Interest Charge") ;;
      interestPayeeId <-
        match interestPayee with
        | Some id => ret id
        | None => insertPayee "Interest Charge"
        end ;;
      insert_rule {| rule_id := ruleId; rule_stage := None |} ;;;
      insert_rule_condition ruleId "acct" "is" (accountId p) ;;;
      insert_rule_action ruleId "payee" "set" (AText interestPayeeId) ;;;
      insert_rule_action ruleId "category" "set" (AText (interestCategoryId p)) ;;;
      insert_rule_action ruleId "debt_interest_config" "set"
        (AInterestConfig (apr p) (interestScheme p) (compoundingFrequency p)) ;;;
      nextDate <- nextInterestDate e (interestPostingDay p) ;;
      insert_schedule
        {| sch_id := scheduleId; sch_rule := ruleId; sch_active := true;
           sch_completed := false; sch_posts_transaction := true;
           sch_name := "Interest for Account " ++ accountId p |} ;;;
      insertWithUUID_next_date scheduleId (toDateRepr nextDate) (now e) ;;;
      ret scheduleId
  end.

(** [postInterestTransaction({accountId, apr, ..., date})]. *)
Definition postInterestTransaction (e : env) (p : InterestScheduleParams)
    (date : option string) : M string :=
  balanceResult <- query (fun d => select_balance d (accountId p)) ;;
  let balance := or_zero balanceResult in
  let interestAmount :=
    Interest.calculateInterest Math_pow balance (apr p) (interestScheme p)
      (compoundingFrequency p) in
  if strict_eq interestAmount 0 then
    throw "No interest to post (balance is zero or APR is zero)"
  else
    interestPayee <- query (fun d => select_payee d "Interest Charge") ;;
    interestPayeeId <-
      match interestPayee with
      | Some id => ret id
      | None => insertPayee "Interest Charge"
      end ;;
    transactionId <-
      insertTransaction (accountId p) (- interestAmount)%float interestPayeeId
        (interestCategoryId p)
        (match date with
         | Some s => if s =? "" then today e else s
         | None => today e
         end)
        true
        ("Interest charge (" ++ Number_toString (apr p) ++ "% APR, "
           ++ interestScheme p ++ ")") ;;
    ret transactionId.

End Platform.

(** Modelled from the spec: the delete operations of the storage interface
    ([server/db] is not among the sources).  [db.delete_(table, id)] removes
    the rows of the table whose [id] is the given one, and
    [db.delete_(table, {rule})] the rows whose [rule] is the given one. *)
Definition delete_rows {A} (key : A -> string) (v : string) (l : list A) : list A :=
  filter (fun x => negb (key x =? v)) l.

Definition delete_next_date (id : string) : M unit :=
  modify (fun d => set_schedules_next_date
                     (delete_rows nd_id id (schedules_next_date d)) d).

Definition delete_schedule (id : string) : M unit :=
  modify (fun d => set_schedules (delete_rows sch_id id (schedules d)) d).

Definition delete_rule_conditions (rule : string) : M unit :=
  modify (fun d => set_rule_conditions (delete_rows rc_rule rule (rule_conditions d)) d).

Definition delete_rule_actions (rule : string) : M unit :=
  modify (fun d => set_rule_actions (delete_rows ra_rule rule (rule_actions d)) d).

Definition delete_rule (id : string) : M unit :=
  modify (fun d => set_rules (delete_rows rule_id id (rules d)) d).

(** [deleteInterestSchedule(accountId)]. *)
Definition deleteInterestSchedule (accountId : string) : M unit :=
  schedule <- query (fun d => select_schedule d accountId) ;;
  match schedule with
  | Some (id, rule) =>
      delete_next_date id ;;;
      delete_schedule id ;;;
      delete_rule_conditions rule ;;;
      delete_rule_actions rule ;;;
      delete_rule rule
  | None => ret tt
  end.

End Automation.

(** ** The debt candidate scorer *)

Module Detection.

Import Js Ledger.
Local Open Scope string_scope.

(** *** Text and order *)

Definition lower_char (c : ascii) : ascii :=
  let n := nat_of_ascii c in
  if ((65 <=? n) && (n <=? 90))%nat then ascii_of_nat (n + 32) else c.

(** [s.toLowerCase()] and SQL's [LOWER(s)], on ASCII text. *)
Fixpoint toLowerCase (s : string) : string :=
  match s with
  | EmptyString => EmptyString
  | String c s' => String (lower_char c) (toLowerCase s')
  end.

(** [s.includes(keyword)]; also [s LIKE '%keyword%'] for a keyword without
    wildcards, on text that is already in lower case. *)
Fixpoint includes (keyword s : string) : bool :=
  String.prefix keyword s
  || match s with
     | EmptyString => false
     | String _ s' => includes keyword s'
     end.

(** A stable sort: [before x y] holds when [x] need not come after [y].
    [Array.prototype.sort] is stable, and so is the order this model gives to
    rows that an [ORDER BY] leaves equal. *)
Fixpoint insert_by {A} (before : A -> A -> bool) (x : A) (l : list A) : list A :=
  match l with
  | [] => [x]
  | y :: r => if before x y then x :: l else y :: insert_by before x r
  end.

Definition sort_by {A} (before : A -> A -> bool) (l : list A) : list A :=
  fold_right (insert_by before) [] l.

(** *** Days between two dates *)

(** Days from 1970-01-01 to the given civil day. *)
Definition epoch_day (y m d : Z) : Z :=
  (let y' := if m <=? 2 then y - 1 else y in
   let era := y' / 400 in
   let yoe := y' - era * 400 in
   let doy := (153 * (m + (if 2 <? m then -3 else 9)) + 2) / 5 + d - 1 in
   let doe := yoe * 365 + yoe / 4 - yoe / 100 + doy in
   era * 146097 + doe - 719468)%Z.

(** [new Date(s).getTime()] for a day [YYYY-MM-DD], in whole days (the time
    is midnight UTC); [None] is the [NaN] of an invalid date. *)
Definition Date_getTime_days (s : string) : option Z :=
  match Dates.parse_date s with
  | Some (y, m, d) =>
      if ((1 <=? m) && (m <=? 12) && (1 <=? d) && (d <=? 31))%Z
      then Some (epoch_day y m 1 + (d - 1))%Z else None
  | None => None
  end.

(** [daysBetween(date1, date2)]: both times are whole days, so the quotient
    by the milliseconds of a day is exact and [Math.ceil] leaves it. *)
Definition daysBetween (date1 date2 : string) : float :=
  match Date_getTime_days date1, Date_getTime_days date2 with
  | Some d1, Some d2 => of_Z (Z.abs (d1 - d2))
  | _, _ => nan
  end.

(** *** Values of the scorer *)

Inductive ConfidenceLevel := high | medium | low.

Inductive DebtType :=
| credit_card | mortgage | auto_loan | student_loan | personal_loan | line_of_credit.

Inductive Frequency := monthly | biweekly | irregular.

Record PaymentPattern := {
  averagePayment : float;
  paymentFrequency : Frequency;
  consistency : float;
  paymentCount : nat
}.

(** The reasons, each with the values its text is built from. *)
Inductive reason :=
| SignificantNegativeBalance (balance : float)
| NegativeBalance (balance : float)
| NameSuggestsDebt (name : string)
| CurrentlyOffBudget
| OffBudgetDebtName
| RegularMonthlyPayments (average : float)
| SemiRegularPayments (count : nat)
| InterestChargesDetected (count : nat)
| EstimatedAPR (apr : float)
| DebtCategories.

Record DebtCandidate := {
  accountId : string;
  accountName : string;
  balance : float;
  currentlyOffBudget : bool;
  confidence : ConfidenceLevel;
  score : Z;
  reasons : list reason;
  suggestedDebtType : DebtType;
  detectedAPR : option float
}.

Record InterestInfo := {
  hasInterest : bool;
  count : nat;
  estimatedAPR : option float
}.

Definition frequency_eqb (a b : Frequency) : bool :=
  match a, b with
  | monthly, monthly | biweekly, biweekly | irregular, irregular => true
  | _, _ => false
  end.

Definition number_of_nat (n : nat) : float := of_Z (Z.of_nat n).

(** A number in a condition: [0] and [NaN] are false. *)
Definition truthy (x : float) : bool :=
  negb (PrimFloat.eqb x 0) && PrimFloat.eqb x x.

Definition debtKeywords : list string :=
  ["credit card"; "visa"; "mastercard"; "discover"; "amex"; "american express";
   "loan"; "mortgage"; "student"; "auto"; "car payment"; "debt";
   "line of credit"; "loc"; "heloc"].

Definition interestKeywords : list string :=
  ["interest"; "finance charge"; "apr"; "interest charge"; "monthly interest"].

Definition debtCategoryKeywords : list string :=
  ["debt"; "loan"; "mortgage"; "credit card"; "interest"].

Definition matches_any (keywords : list string) (text : option string) : bool :=
  match text with
  | Some s => existsb (fun k => includes k (toLowerCase s)) keywords
  | None => false
  end.

(** [getAccountBalance(accountId)]. *)
Definition getAccountBalance (d : database) (acct : string) : float :=
  Automation.or_zero (Automation.select_balance d acct).

Definition date_desc (a b : transaction) : bool := String.leb (tx_date b) (tx_date a).

Fixpoint gaps_of (dates : list string) : list float :=
  match dates with
  | d1 :: ((d2 :: _) as rest) => daysBetween d1 d2 :: gaps_of rest
  | _ => []
  end.

Definition sum_from_zero (l : list float) : float := fold_left PrimFloat.add l 0%float.

Section Scorer.

Variable Math_pow : float -> float -> float.

(** [analyzePaymentPatterns(accountId)]. *)
Definition analyzePaymentPatterns (d : database) (acct : string) : PaymentPattern :=
  let payments :=
    firstn 12
      (sort_by date_desc
         (filter (fun t => (tx_acct t =? acct) && PrimFloat.ltb 0 (tx_amount t)
                           && negb (tx_tombstone t))
            (transactions d))) in
  if (List.length payments <? 2)%nat then
    {| averagePayment := 0; paymentFrequency := irregular; consistency := 0;
       paymentCount := List.length payments |}
  else
    let gaps := gaps_of (map tx_date payments) in
    let avgGap := (sum_from_zero gaps / number_of_nat (List.length gaps))%float in
    let frequency :=
      if PrimFloat.ltb avgGap 18 then biweekly
      else if PrimFloat.ltb avgGap 35 then monthly else irregular in
    let amounts := map tx_amount payments in
    let avgAmount := (sum_from_zero amounts / number_of_nat (List.length amounts))%float in
    let variance :=
      (fold_left (fun sum amt => sum + Math_pow (amt - avgAmount) 2) amounts 0
       / number_of_nat (List.length amounts))%float in
    let stdDev := PrimFloat.sqrt variance in
    let consistency :=
      if PrimFloat.ltb 0 avgAmount
      then (1 - Math_min (stdDev / avgAmount) 1)%float else 0%float in
    {| averagePayment := avgAmount; paymentFrequency := frequency;
       consistency := consistency; paymentCount := List.length payments |}.

Definition payee_name_of (d : database) (t : transaction) : option string :=
  match tx_payee t with
  | Some id =>
      match find (fun p => payee_id p =? id) (payees d) with
      | Some p => Some (payee_name p)
      | None => None
      end
  | None => None
  end.

(** [detectInterestTransactions(accountId)]. *)
Definition detectInterestTransactions (d : database) (acct : string) : InterestInfo :=
  let interestTransactions :=
    firstn 12
      (sort_by date_desc
         (filter (fun t => (tx_acct t =? acct) && negb (tx_tombstone t)
                           && PrimFloat.ltb (tx_amount t) 0
                           && (matches_any interestKeywords (payee_name_of d t)
                               || matches_any interestKeywords (tx_notes t)))
            (transactions d))) in
  if (List.length interestTransactions =? 0)%nat then
    {| hasInterest := false; count := 0; estimatedAPR := None |}
  else
    let estimatedAPR :=
      if (3 <=? List.length interestTransactions)%nat then
        let avgMonthlyInterest :=
          (Math_abs (sum_from_zero (map tx_amount interestTransactions)
                     / number_of_nat (List.length interestTransactions)) / 100)%float in
        let balance := Math_abs (getAccountBalance d acct / 100)%float in
        if PrimFloat.ltb 0 balance && PrimFloat.ltb 0 avgMonthlyInterest then
          let monthlyRate := (avgMonthlyInterest / balance)%float in
          let estimatedAPR := (monthlyRate * 12 * 100)%float in
          if PrimFloat.leb 0.1 estimatedAPR && PrimFloat.leb estimatedAPR 50
          then Some (Math_round (estimatedAPR * 100) / 100)%float
          else None
        else None
      else None in
    {| hasInterest := true; count := List.length interestTransactions;
       estimatedAPR := estimatedAPR |}.

(** [checkDebtCategories(accountId)]. *)
Definition checkDebtCategories (d : database) (acct : string) : bool :=
  existsb
    (fun t =>
       (tx_acct t =? acct) && negb (tx_tombstone t)
       && existsb
            (fun c =>
               match tx_category t with
               | Some id => (cat_id c =? id) && negb (cat_tombstone c)
                            && matches_any debtCategoryKeywords (Some (cat_name c))
               | None => false
               end)
            (categories d))
    (transactions d).

(** [suggestDebtType(accountName, balance, pattern)]. *)
Definition suggestDebtType (accountName : string) (balance : float)
    (pattern : PaymentPattern) : DebtType :=
  let nameLower := toLowerCase accountName in
  if includes "credit card" nameLower || includes "visa" nameLower
     || includes "mastercard" nameLower || includes "discover" nameLower
     || includes "amex" nameLower || includes "american express" nameLower
  then credit_card
  else if includes "mortgage" nameLower || includes "home loan" nameLower
          || (PrimFloat.ltb balance (-10000000)
              && frequency_eqb (paymentFrequency pattern) monthly)
  then mortgage
  else if includes "auto" nameLower || includes "car" nameLower
          || includes "vehicle" nameLower
  then auto_loan
  else if includes "student" nameLower || includes "education" nameLower
          || includes "tuition" nameLower
  then student_loan
  else if includes "line of credit" nameLower || includes "loc" nameLower
          || includes "heloc" nameLower
  then line_of_credit
  else personal_loan.

(** [reasons.push(r)]. *)
Definition push (reasons : list reason) (r : reason) : list reason :=
  (reasons ++ [r])%list.

(** One turn of the loop of [detectDebtAccounts]: the candidate pushed for
    [account], or [None] when the turn pushes nothing. *)
Definition score_account (d : database) (account : Ledger.account) : option DebtCandidate :=
  let balance := getAccountBalance d (acc_id account) in
  if PrimFloat.leb 0 balance then None
  else
    let '(score, reasons) := (0%Z, @nil reason) in
    let '(score, reasons) :=
      if PrimFloat.ltb balance (-100000)
      then ((score + 30)%Z, push reasons (SignificantNegativeBalance balance))
      else if PrimFloat.ltb balance (-10000)
      then ((score + 15)%Z, push reasons (NegativeBalance balance))
      else (score, reasons) in
    let nameLower := toLowerCase (acc_name account) in
    let hasDebtKeyword := existsb (fun keyword => includes keyword nameLower) debtKeywords in
    let '(score, reasons) :=
      if hasDebtKeyword
      then ((score + 25)%Z, push reasons (NameSuggestsDebt (acc_name account)))
      else (score, reasons) in
    let '(score, reasons) :=
      if acc_offbudget account then
        let '(score, reasons) := ((score + 10)%Z, push reasons CurrentlyOffBudget) in
        if hasDebtKeyword
        then ((score + 15)%Z, push reasons OffBudgetDebtName)
        else (score, reasons)
      else (score, reasons) in
    let pattern := analyzePaymentPatterns d (acc_id account) in
    let '(score, reasons) :=
      if (3 <=? paymentCount pattern)%nat then
        if frequency_eqb (paymentFrequency pattern) monthly
           && PrimFloat.ltb 0.8 (consistency pattern)
        then ((score + 20)%Z, push reasons (RegularMonthlyPayments (averagePayment pattern)))
        else if frequency_eqb (paymentFrequency pattern) monthly
                && PrimFloat.ltb 0.6 (consistency pattern)
        then ((score + 10)%Z, push reasons (SemiRegularPayments (paymentCount pattern)))
        else (score, reasons)
      else (score, reasons) in
    let interestInfo := detectInterestTransactions d (acc_id account) in
    let '(score, reasons) :=
      if hasInterest interestInfo then
        let '(score, reasons) :=
          ((score + 25)%Z, push reasons (InterestChargesDetected (count interestInfo))) in
        match estimatedAPR interestInfo with
        | Some a => if truthy a then (score, push reasons (EstimatedAPR a))
                    else (score, reasons)
        | None => (score, reasons)
        end
      else (score, reasons) in
    let hasDebtCategory := checkDebtCategories d (acc_id account) in
    let '(score, reasons) :=
      if hasDebtCategory
      then ((score + 15)%Z, push reasons DebtCategories)
      else (score, reasons) in
    let suggestedType := suggestDebtType (acc_name account) balance pattern in
    let confidence :=
      if (70 <=? score)%Z then high else if (50 <=? score)%Z then medium else low in
    if (40 <=? score)%Z then
      Some {| accountId := acc_id account; accountName := acc_name account;
              balance := balance; currentlyOffBudget := acc_offbudget account;
              confidence := confidence; score := score; reasons := reasons;
              suggestedDebtType := suggestedType;
              detectedAPR := estimatedAPR interestInfo |}
    else None.

(** The candidates in the order the loop meets them, over
    [SELECT * FROM accounts WHERE is_debt = 0 AND closed = 0 AND tombstone = 0]. *)
Definition candidates_found (d : database) : list DebtCandidate :=
  flat_map
    (fun account =>
       match score_account d account with
       | Some c => [c]
       | None => []
       end)
    (filter (fun a => negb (acc_is_debt a) && negb (acc_closed a) && negb (acc_tombstone a))
       (accounts d)).

(** The comparator [(a, b) => b.score - a.score] is not positive. *)
Definition score_desc (a b : DebtCandidate) : bool := (score b <=? score a)%Z.

(** [detectDebtAccounts()]. *)
Definition detectDebtAccounts (d : database) : list DebtCandidate :=
  sort_by score_desc (candidates_found d).

End Scorer.

End Detection.

(** ** The payoff time of the report card *)

Module Payoff.

Import Js.
Local Open Scope float_scope.

(** [Math.ceil]: the least whole number not below [x]; NaN, the infinities
    and the whole numbers are returned as they are, and a negative [x] above
    -1 gives [-0]. *)
Definition Math_ceil (x : float) : float :=
  match Prim2SF x with
  | S754_finite s m e =>
      if (0 <=? e)%Z then x
      else
        let d := (2 ^ (- e))%Z in
        let q := (Z.pos m / d)%Z in
        let r := (Z.pos m mod d)%Z in
        if s then - of_Z q
        else of_Z (if (r =? 0)%Z then q else q + 1)%Z
  | _ => x
  end.

Section Months.

(** [Math.log], as the platform provides it. *)
Variable Math_log : float -> float.

(** [calculatePayoffMonths(balance, interestRate, monthlyPayment)] of
    [PayoffTimelineCard.tsx]. *)
Definition calculatePayoffMonths (balance interestRate monthlyPayment : float) : float :=
  if PrimFloat.leb monthlyPayment 0 || PrimFloat.leb balance 0 then 0
  else
    let monthlyRate := interestRate / 100 / 12 in
    if PrimFloat.leb monthlyPayment (balance * monthlyRate) then infinity
    else
      let numerator := Math_log (1 - (balance * monthlyRate) / monthlyPayment) in
      let denominator := Math_log (1 + monthlyRate) in
      Math_ceil (- numerator / denominator).

End Months.


End Payoff.

(** * Properties *)

(** ** Checking a property on a range of integers *)

Module Ranges.

Local Open Scope Z_scope.

(** The integers [lo], [lo + 1], ..., [lo + len - 1]. *)
Definition Z_range (lo : Z) (len : nat) : list Z :=
  map (fun k => lo + Z.of_nat k) (seq 0 len).

Lemma range_forallb (f : Z -> bool) (lo : Z) (len : nat) :
  forallb f (Z_range lo len) = true ->
  forall z, lo <= z < lo + Z.of_nat len -> f z = true.
Proof.
  intros H z Hz. rewrite forallb_forall in H. apply H.
  apply in_map_iff. exists (Z.to_nat (z - lo)). split; [lia|].
  apply in_seq. lia.
Qed.

End Ranges.

(** ** Facts on binary64 numbers, from the specification of the primitive
    operations *)

Module FloatFacts.

Import Js.
Local Open Scope float_scope.

Lemma SF_zero : Prim2SF 0 = S754_zero false.
Proof. reflexivity. Qed.

Lemma abs_abs (x : float) : abs (abs x) = abs x.
Proof.
  apply Prim2SF_inj. rewrite !FloatAxioms.abs_spec.
  destruct (Prim2SF x); reflexivity.
Qed.

Lemma abs_eqb_zero (x : float) : (abs x =? 0) = (x =? 0).
Proof.
  rewrite !FloatAxioms.eqb_spec, FloatAxioms.abs_spec, SF_zero.
  destruct (Prim2SF x) as [s | s | | s m e]; try destruct s; reflexivity.
Qed.

Lemma abs_opp (x : float) : abs (- x) = abs x.
Proof.
  apply Prim2SF_inj. rewrite !FloatAxioms.abs_spec, FloatAxioms.opp_spec.
  destruct (Prim2SF x); reflexivity.
Qed.

(** A number that is not [NaN] and not [>= 0] is [< 0]. *)
Lemma not_leb_zero_ltb (x : float) :
  (0 <=? x) = false -> (x =? x) = true -> (x <? 0) = true.
Proof.
  rewrite FloatAxioms.leb_spec, FloatAxioms.eqb_spec, FloatAxioms.ltb_spec, SF_zero.
  destruct (Prim2SF x) as [s | s | | s m e]; try destruct s; cbn;
    try discriminate; reflexivity.
Qed.

End FloatFacts.

(** ** Order and sign of binary64 results

    Read off the specification of the operations ([SpecFloat]): the sign of
    products, quotients and roundings, and the fact that a rounding to
    nearest never falls below a representable number the exact value is
    above. *)

Module FloatOrder.

Import Js FloatFacts.
Local Open Scope Z_scope.

(** Sign bit clear and not NaN. *)
Definition sign_clear (x : spec_float) : bool :=
  match x with
  | S754_zero false | S754_infinity false | S754_finite false _ _ => true
  | _ => false
  end.

Lemma iter_pos_invariant {A} (P : A -> Prop) (f : A -> A) :
  (forall x, P x -> P (f x)) -> forall n x, P x -> P (iter_pos f n x).
Proof.
  intros Hf. induction n as [n IH | n IH |]; intros x Hx; cbn; auto.
Qed.

Lemma shr_1_nonneg mrs : 0 <= shr_m mrs -> 0 <= shr_m (shr_1 mrs).
Proof.
  destruct mrs as [m r s]. cbn. intros H.
  destruct m as [|p|p]; [cbn; lia| |lia].
  destruct p; cbn; lia.
Qed.

Lemma shr_nonneg mrs e n : 0 <= shr_m mrs -> 0 <= shr_m (fst (shr mrs e n)).
Proof.
  intros H. unfold shr. destruct n; cbn; try exact H.
  apply (iter_pos_invariant (fun x => 0 <= shr_m x)); [apply shr_1_nonneg | exact H].
Qed.

Lemma shr_record_of_loc_m m l : shr_m (shr_record_of_loc m l) = m.
Proof. destruct l as [|[]]; reflexivity. Qed.

Lemma shr_fexp_nonneg m e l : 0 <= m -> 0 <= shr_m (fst (shr_fexp prec emax m e l)).
Proof.
  intros H. unfold shr_fexp. apply shr_nonneg. now rewrite shr_record_of_loc_m.
Qed.

Lemma round_nearest_even_nonneg m l : 0 <= m -> 0 <= round_nearest_even m l.
Proof.
  intros H. unfold round_nearest_even.
  destruct l as [|[]]; try lia. destruct (Z.even m); lia.
Qed.

Lemma binary_round_aux_sign_clear m e l :
  0 <= m -> sign_clear (binary_round_aux prec emax false m e l) = true.
Proof.
  intros H. unfold binary_round_aux.
  pose proof (shr_fexp_nonneg m e l H) as H1.
  destruct (shr_fexp prec emax m e l) as [mrs' e'] eqn:E1. cbn [fst] in H1.
  pose proof (shr_fexp_nonneg _ e' loc_Exact
                (round_nearest_even_nonneg _ (loc_of_shr_record mrs') H1)) as H2.
  destruct (shr_fexp prec emax _ e' loc_Exact) as [mrs'' e''] eqn:E2. cbn [fst] in H2.
  destruct (shr_m mrs'') as [|p|p]; [reflexivity| |lia].
  destruct (e'' <=? emax - prec); reflexivity.
Qed.

Lemma binary_round_sign_clear m e :
  sign_clear (binary_round prec emax false m e) = true.
Proof.
  unfold binary_round. destruct (shl_align _ _ _) as [mz ez].
  apply binary_round_aux_sign_clear. lia.
Qed.

Lemma binary_normalize_sign_clear m e :
  0 <= m -> sign_clear (binary_normalize prec emax m e false) = true.
Proof.
  intros H. destruct m as [|p|p]; [reflexivity| |lia].
  apply binary_round_sign_clear.
Qed.

Lemma SFmul_sign_clear mx ex y :
  sign_clear y = true -> sign_clear (SF64mul (S754_finite false mx ex) y) = true.
Proof.
  destruct y as [[]|[]| |[] my ey]; cbn; try discriminate; try reflexivity.
  intros _. apply binary_round_aux_sign_clear. lia.
Qed.

Lemma SFdiv_core_nonneg mx ex my ey :
  0 <= fst (fst (SFdiv_core_binary prec emax (Zpos mx) ex (Zpos my) ey)).
Proof.
  unfold SFdiv_core_binary.
  set (s := _ - _ - _).
  set (m' := match s with Z0 => _ | Zpos _ => _ | Zneg _ => _ end).
  assert (Hm : 0 <= m').
  { unfold m'. destruct s; [lia| |lia]. apply Z.shiftl_nonneg. lia. }
  pose proof (Z_div_mod m' (Zpos my) ltac:(lia)) as H.
  destruct (Z.div_eucl m' (Z.pos my)) as [q r]. cbn.
  destruct H as [H1 H2]. nia.
Qed.

Lemma SFdiv_sign_clear x my ey :
  sign_clear x = true -> sign_clear (SF64div x (S754_finite false my ey)) = true.
Proof.
  destruct x as [[]|[]| |[] mx ex]; cbn; try discriminate; try reflexivity.
  intros _. pose proof (SFdiv_core_nonneg mx ex my ey) as H.
  destruct (SFdiv_core_binary prec emax (Z.pos mx) ex (Z.pos my) ey) as [[mz ez] lz].
  cbn in H. now apply binary_round_aux_sign_clear.
Qed.

Lemma of_Z_sign_clear n : 0 <= n -> sign_clear (Prim2SF (of_Z n)) = true.
Proof.
  intros H. destruct n as [|p|p]; [reflexivity| |lia].
  unfold of_Z. rewrite FloatAxioms.of_uint63_spec.
  apply binary_normalize_sign_clear. apply Uint63.to_Z_bounded.
Qed.

Lemma Math_round_sign_clear x :
  sign_clear (Prim2SF x) = true -> sign_clear (Prim2SF (Math_round x)) = true.
Proof.
  intros H. unfold Math_round.
  destruct (Prim2SF x) as [s|s| |s m e] eqn:E; try (rewrite E; exact H).
  destruct s; [discriminate|].
  destruct (Z.leb_spec 0 e) as [He|He]; [rewrite E; exact H|].
  cbv beta iota zeta. apply of_Z_sign_clear.
  assert (0 < 2 ^ (- e)) by (apply Z.pow_pos_nonneg; lia).
  assert (0 <= Z.pos m / 2 ^ (- e)) by (apply Z.div_pos; lia).
  destruct (2 ^ (- e) <=? 2 * (Z.pos m mod 2 ^ (- e))); lia.
Qed.

Lemma sign_clear_leb x : sign_clear (Prim2SF x) = true -> PrimFloat.leb 0 x = true.
Proof.
  rewrite FloatAxioms.leb_spec. change (Prim2SF 0) with (S754_zero false).
  destruct (Prim2SF x) as [[]|[]| |[] m e]; cbn; try discriminate; reflexivity.
Qed.

(** A number above 0 and below infinity. *)
Lemma finite_positive x :
  PrimFloat.ltb 0 x = true -> PrimFloat.ltb x infinity = true ->
  exists m e, Prim2SF x = S754_finite false m e.
Proof.
  rewrite !FloatAxioms.ltb_spec. change (Prim2SF 0) with (S754_zero false).
  change (Prim2SF infinity) with (S754_infinity false).
  destruct (Prim2SF x) as [[]|[]| |[] m e]; cbn; try discriminate.
  intros _ _. now exists m, e.
Qed.

(** A number that is at least 0 and is not 0. *)
Lemma nonneg_nonzero x :
  PrimFloat.leb 0 x = true -> PrimFloat.eqb x 0 = false ->
  sign_clear (Prim2SF x) = true.
Proof.
  rewrite FloatAxioms.leb_spec, FloatAxioms.eqb_spec. change (Prim2SF 0) with (S754_zero false).
  destruct (Prim2SF x) as [[]|[]| |[] m e]; cbn; try discriminate; reflexivity.
Qed.

(** *** Rounding stays above a representable number *)

Lemma fexp_eq z : fexp prec emax z = Z.max (z - 53) (-1074).
Proof. reflexivity. Qed.

Lemma digits2_bounds m :
  2 ^ (Z.pos (digits2_pos m) - 1) <= Z.pos m < 2 ^ Z.pos (digits2_pos m).
Proof.
  induction m as [p IH | p IH |]; cbn [digits2_pos].
  - rewrite Pos2Z.inj_succ. replace (Z.succ (Z.pos (digits2_pos p)) - 1)
      with (Z.succ (Z.pos (digits2_pos p) - 1)) by lia.
    rewrite !Z.pow_succ_r by lia. lia.
  - rewrite Pos2Z.inj_succ. replace (Z.succ (Z.pos (digits2_pos p)) - 1)
      with (Z.succ (Z.pos (digits2_pos p) - 1)) by lia.
    rewrite !Z.pow_succ_r by lia. lia.
  - cbn. lia.
Qed.

Lemma shr_1_m mrs : 0 <= shr_m mrs -> shr_m (shr_1 mrs) = shr_m mrs / 2.
Proof.
  destruct mrs as [m r s]. cbn [shr_m]. intros H.
  destruct m as [|p|p]; [reflexivity| |lia].
  destruct p as [q|q|]; cbn [shr_1 shr_m].
  - apply Z.div_unique with (r := 1); lia.
  - apply Z.div_unique with (r := 0); lia.
  - reflexivity.
Qed.

Lemma iter_shr_1_m n : forall mrs,
  0 <= shr_m mrs -> shr_m (iter_pos shr_1 n mrs) = shr_m mrs / 2 ^ Z.pos n.
Proof.
  assert (Hinv : forall k x, 0 <= shr_m x -> 0 <= shr_m (iter_pos shr_1 k x)).
  { intros k x. apply (iter_pos_invariant (fun y => 0 <= shr_m y)). apply shr_1_nonneg. }
  induction n as [n IH | n IH |]; intros mrs H; cbn [iter_pos].
  - rewrite IH by (apply Hinv, shr_1_nonneg, H).
    rewrite IH by (apply shr_1_nonneg, H). rewrite shr_1_m by exact H.
    rewrite !Z.div_div by (try apply Z.pow_pos_nonneg; lia).
    f_equal. rewrite Pos2Z.inj_xI, <- Z.pow_add_r, <- Z.pow_succ_r by lia. f_equal. lia.
  - rewrite IH by (apply Hinv, H). rewrite IH by exact H.
    rewrite !Z.div_div by (try apply Z.pow_pos_nonneg; lia).
    f_equal. rewrite Pos2Z.inj_xO, <- Z.pow_add_r by lia. f_equal. lia.
  - rewrite shr_1_m by exact H. reflexivity.
Qed.

(** What [shr_fexp] returns on a mantissa that is not negative. *)
Lemma shr_fexp_spec m e l :
  0 <= m ->
  let n := fexp prec emax (Zdigits2 m + e) - e in
  (n <= 0 -> shr_m (fst (shr_fexp prec emax m e l)) = m
             /\ snd (shr_fexp prec emax m e l) = e)
  /\ (0 < n -> shr_m (fst (shr_fexp prec emax m e l)) = m / 2 ^ n
               /\ snd (shr_fexp prec emax m e l) = e + n).
Proof.
  intros H n. unfold shr_fexp. fold n. unfold shr.
  destruct n as [|p|p] eqn:En; split; intros Hn; try lia; cbn [fst snd].
  - split; [apply shr_record_of_loc_m | reflexivity].
  - rewrite iter_shr_1_m by (rewrite shr_record_of_loc_m; exact H).
    now rewrite shr_record_of_loc_m.
  - split; [apply shr_record_of_loc_m | reflexivity].
Qed.

Lemma Zdigits2_pos_bounds m :
  1 <= m -> 2 ^ (Zdigits2 m - 1) <= m < 2 ^ Zdigits2 m.
Proof.
  intros H. destruct m as [|p|p]; try lia. apply digits2_bounds.
Qed.

Lemma pow2_lt_inv a b : 0 <= b -> 2 ^ a < 2 ^ b -> a < b.
Proof.
  intros Hb H. destruct (Z_lt_le_dec a b) as [|Hle]; [assumption|].
  apply (Z.pow_le_mono_r 2) in Hle; lia.
Qed.

Section Above.

(** A canonical positive number [mp * 2^ep]. *)
Variables (mp : positive) (ep : Z).
Hypothesis canonical_p : canonical_mantissa prec emax mp ep = true.

Let dp : Z := Z.pos (digits2_pos mp).

Lemma canonical_facts : ep = Z.max (dp + ep - 53) (-1074).
Proof.
  unfold canonical_mantissa in canonical_p. apply Z.eqb_eq in canonical_p.
  rewrite fexp_eq in canonical_p. unfold dp. lia.
Qed.

(** The mantissa [m] at exponent [e] is at least the number, exponents
    compared first. *)
Definition above (m e : Z) : Prop :=
  1 <= m /\ ep <= e /\ (e = ep -> Z.pos mp <= m).

(** The value [M * 2^E] is at least the number. *)
Definition value_above (M E : Z) : Prop :=
  1 <= M
  /\ ((ep <= E /\ Z.pos mp <= M * 2 ^ (E - ep))
      \/ (E < ep /\ Z.pos mp * 2 ^ (ep - E) <= M)).

Lemma above_shr_fexp m e l :
  above m e ->
  above (shr_m (fst (shr_fexp prec emax m e l))) (snd (shr_fexp prec emax m e l)).
Proof.
  intros (Hm & He & Heq).
  pose proof canonical_facts as Hc.
  destruct (shr_fexp_spec m e l ltac:(lia)) as (H0 & H1).
  set (n := fexp prec emax (Zdigits2 m + e) - e) in *.
  destruct (Z_le_gt_dec n 0) as [Hn|Hn].
  - destruct (H0 Hn) as (-> & ->). repeat split; assumption.
  - destruct (H1 ltac:(lia)) as (-> & ->).
    pose proof (Zdigits2_pos_bounds m Hm) as Hd.
    assert (En : n = Zdigits2 m - 53).
    { unfold n in *. rewrite fexp_eq in *. lia. }
    repeat split; try lia.
    apply Z.div_le_lower_bound; [apply Z.pow_pos_nonneg; lia|].
    rewrite Z.mul_1_r. etransitivity; [|apply Hd].
    apply Z.pow_le_mono_r; lia.
Qed.

Lemma above_round m e l : above m e -> above (round_nearest_even m l) e.
Proof.
  intros (Hm & He & Heq). unfold round_nearest_even.
  assert (m <= match l with
               | loc_Exact => m
               | loc_Inexact Lt => m
               | loc_Inexact Eq => if Z.even m then m else m + 1
               | loc_Inexact Gt => m + 1
               end).
  { destruct l as [|[]]; try lia. destruct (Z.even m); lia. }
  repeat split; try lia.
Qed.

Lemma value_above_digits M E :
  value_above M E -> dp + ep <= Zdigits2 M + E.
Proof.
  intros (HM & H). pose proof (Zdigits2_pos_bounds M HM) as HD.
  pose proof (digits2_bounds mp) as Hp. fold dp in Hp.
  assert (0 < dp) by (unfold dp; lia).
  assert (0 < Zdigits2 M) by (destruct M; cbn; lia).
  destruct H as [(He & H) | (He & H)].
  - assert (2 ^ (dp - 1) < 2 ^ (Zdigits2 M + (E - ep))).
    { rewrite Z.pow_add_r by lia.
      assert (0 < 2 ^ (E - ep)) by (apply Z.pow_pos_nonneg; lia). nia. }
    apply pow2_lt_inv in H2; lia.
  - assert (2 ^ (dp - 1 + (ep - E)) < 2 ^ Zdigits2 M).
    { rewrite Z.pow_add_r by lia.
      assert (0 < 2 ^ (ep - E)) by (apply Z.pow_pos_nonneg; lia). nia. }
    apply pow2_lt_inv in H2; lia.
Qed.

Lemma value_above_shr_fexp M E l :
  value_above M E ->
  above (shr_m (fst (shr_fexp prec emax M E l))) (snd (shr_fexp prec emax M E l)).
Proof.
  intros HV. pose proof (value_above_digits M E HV) as HD.
  destruct HV as (HM & H).
  pose proof canonical_facts as Hc.
  destruct (shr_fexp_spec M E l ltac:(lia)) as (H0 & H1).
  set (n := fexp prec emax (Zdigits2 M + E) - E) in *.
  assert (En : n = Z.max (Zdigits2 M + E - 53) (-1074) - E).
  { unfold n. now rewrite fexp_eq. }
  pose proof (Zdigits2_pos_bounds M HM) as Hd.
  destruct (Z_le_gt_dec n 0) as [Hn|Hn].
  - destruct (H0 Hn) as (-> & ->). repeat split; try lia.
    intros ->. destruct H as [(_ & H)|(He & _)]; [|lia].
    now rewrite Z.sub_diag, Z.mul_1_r in H.
  - destruct (H1 ltac:(lia)) as (-> & ->).
    destruct (Z.eq_dec (E + n) ep) as [Heq|Hne].
    + assert (Hlt : E < ep) by lia.
      destruct H as [(He & _)|(_ & H)]; [lia|].
      assert (Hdiv : Z.pos mp <= M / 2 ^ n).
      { apply Z.div_le_lower_bound; [apply Z.pow_pos_nonneg; lia|].
        replace n with (ep - E) by lia. lia. }
      repeat split; lia.
    + assert (En' : n = Zdigits2 M - 53) by lia.
      repeat split; try lia.
      apply Z.div_le_lower_bound; [apply Z.pow_pos_nonneg; lia|].
      rewrite Z.mul_1_r. etransitivity; [|apply Hd].
      apply Z.pow_le_mono_r; lia.
Qed.

(** The result of a rounding, read against the number. *)
Definition sf_above (r : spec_float) : Prop :=
  match r with
  | S754_infinity false => True
  | S754_finite false m e => ep < e \/ (e = ep /\ (mp <= m)%positive)
  | _ => False
  end.

Lemma binary_round_aux_above M E l :
  value_above M E -> sf_above (binary_round_aux prec emax false M E l).
Proof.
  intros HV. unfold binary_round_aux.
  pose proof (value_above_shr_fexp M E l HV) as H1.
  destruct (shr_fexp prec emax M E l) as [mrs' e'] eqn:E1. cbn [fst snd] in H1.
  apply (above_round _ _ (loc_of_shr_record mrs')) in H1.
  apply (above_shr_fexp _ _ loc_Exact) in H1.
  destruct (shr_fexp prec emax _ e' loc_Exact) as [mrs'' e''] eqn:E2.
  cbn [fst snd] in H1. destruct H1 as (Hm & He & Heq).
  destruct (shr_m mrs'') as [|m2|m2]; try lia.
  destruct (e'' <=? emax - prec); cbn; [|exact I].
  destruct (Z.eq_dec e'' ep) as [->|]; [right | left; lia].
  split; [reflexivity|]. specialize (Heq eq_refl). lia.
Qed.

Lemma sf_above_leb r : sf_above r -> SFleb (S754_finite false mp ep) r = true.
Proof.
  destruct r as [[]|[]| |[] m e]; cbn; try contradiction; try reflexivity.
  intros [H | (-> & H)]; unfold SFleb, SFcompare.
  - apply Z.compare_lt_iff in H. now rewrite H.
  - rewrite Z.compare_refl. 
    destruct (Pos.compare_cont Eq mp m) eqn:C; try reflexivity.
    apply Pos.compare_gt_iff in C. lia.
Qed.

Lemma leb_sf_above r : SFleb (S754_finite false mp ep) r = true -> sf_above r.
Proof.
  clear canonical_p dp.
  destruct r as [[]|[]| |[] m e]; cbn; try discriminate; try (intros _; exact I).
  unfold SFleb, SFcompare.
  destruct (Z.compare_spec ep e) as [Heq|H|H]; try discriminate.
  - destruct (Pos.compare_cont Eq mp m) eqn:C; try discriminate; intros _; right;
      (split; [now symmetry|]).
    + apply Pos.compare_eq in C. lia.
    + apply -> Pos.compare_lt_iff in C. lia.
  - intros _. now left.
Qed.

End Above.

(** *** Products, sums and differences *)

Lemma canonical_of_valid s m e :
  valid_binary (S754_finite s m e) = true -> canonical_mantissa prec emax m e = true.
Proof.
  cbn. unfold bounded. intros H. now apply andb_prop in H.
Qed.

Lemma canonical_normal m e :
  canonical_mantissa prec emax m e = true -> -1074 < e -> 2 ^ 52 <= Z.pos m.
Proof.
  intros H He. pose proof (canonical_facts m e H) as Hc.
  pose proof (digits2_bounds m) as Hd.
  assert (Z.pos (digits2_pos m) = 53) as E by lia.
  rewrite E in Hd. exact (proj1 Hd).
Qed.

Lemma canonical_small m e :
  canonical_mantissa prec emax m e = true -> Z.pos m < 2 ^ 53 /\ -1074 <= e.
Proof.
  intros H. pose proof (canonical_facts m e H) as Hc.
  pose proof (digits2_bounds m) as Hd. split; [|lia].
  eapply Z.lt_le_trans; [apply Hd|]. apply Z.pow_le_mono_r; lia.
Qed.

(** The number 1. *)
Definition one_m : positive := 4503599627370496.

Lemma SF_one : Prim2SF 1 = S754_finite false one_m (-52).
Proof. reflexivity. Qed.

Lemma canonical_one : canonical_mantissa prec emax one_m (-52) = true.
Proof. reflexivity. Qed.

(** [p * w >= p] for a positive finite [p] and [w >= 1]. *)
Lemma SFmul_above mp ep w :
  canonical_mantissa prec emax mp ep = true ->
  valid_binary w = true ->
  sf_above one_m (-52) w ->
  sf_above mp ep (SF64mul (S754_finite false mp ep) w).
Proof.
  intros Hp Hv Hw. destruct w as [[]|[]| |[] mw ew]; cbn in Hw; try contradiction.
  - exact I.
  - apply canonical_of_valid in Hv.
    cbn. apply binary_round_aux_above; [exact Hp|].
    unfold value_above. rewrite Pos2Z.inj_mul. split; [lia|].
    destruct (Z_le_gt_dec 0 ew) as [He|He].
    + left. split; [lia|]. replace (ep + ew - ep) with ew by lia.
      assert (0 < 2 ^ ew) by (apply Z.pow_pos_nonneg; lia).
      assert (1 <= Z.pos mw * 2 ^ ew) by nia.
      rewrite <- Z.mul_assoc. nia.
    + right. split; [lia|]. replace (ep - (ep + ew)) with (- ew) by lia.
      assert (2 ^ (- ew) <= Z.pos mw).
      { destruct Hw as [Hlt | (-> & Hm)].
        - pose proof (canonical_normal mw ew Hv ltac:(lia)).
          etransitivity; [|eassumption]. apply Z.pow_le_mono_r; lia.
        - change (2 ^ (- (-52))) with (Z.pos one_m). lia. }
      nia.
Qed.

Lemma shl_align_spec m e e' :
  let '(m', e'') := shl_align m e e' in
  e'' = Z.min e e' /\ Z.pos m' = Z.pos m * 2 ^ (e - e'').
Proof.
  unfold shl_align. destruct (e' - e) as [|d|d] eqn:E.
  - replace (Z.min e e') with e by lia. rewrite Z.sub_diag. split; lia.
  - replace (Z.min e e') with e by lia. rewrite Z.sub_diag. split; lia.
  - replace (Z.min e e') with e' by lia. split; [reflexivity|].
    replace (e - e') with (Z.pos d) by lia.
    change (Pos.iter xO m d) with (shift_pos d m).
    rewrite shift_pos_correct. change (Zpower_pos 2 d) with (2 ^ Z.pos d). lia.
Qed.

(** [a - p] has its sign bit clear when [a >= p]. *)
Lemma SFsub_above mp ep a :
  canonical_mantissa prec emax mp ep = true ->
  valid_binary a = true ->
  sf_above mp ep a ->
  sign_clear (SF64sub a (S754_finite false mp ep)) = true.
Proof.
  intros Hp Hv Ha. destruct a as [[]|[]| |[] ma ea]; cbn in Ha; try contradiction.
  - reflexivity.
  - apply canonical_of_valid in Hv. unfold SF64sub, SFsub, cond_Zopp.
    apply binary_normalize_sign_clear.
    pose proof (shl_align_spec ma ea (Z.min ea ep)) as H1.
    pose proof (shl_align_spec mp ep (Z.min ea ep)) as H2.
    destruct (shl_align ma ea (Z.min ea ep)) as [ma' ea'].
    destruct (shl_align mp ep (Z.min ea ep)) as [mp' ep'].
    destruct H1 as (E1 & M1), H2 as (E2 & M2). cbn [fst].
    rewrite M1, M2.
    pose proof (canonical_small mp ep Hp) as (Hs & Hmin).
    destruct Ha as [Hlt | (-> & Hm)].
    + pose proof (canonical_normal ma ea Hv ltac:(lia)) as Hn.
      replace ea' with ep by lia. replace ep' with ep by lia.
      rewrite Z.sub_diag, Z.mul_1_r.
      assert (2 ^ 1 <= 2 ^ (ea - ep)) by (apply Z.pow_le_mono_r; lia).
      change (2 ^ 1) with 2 in *. change (2 ^ 52) with 4503599627370496 in *.
      change (2 ^ 53) with 9007199254740992 in *. nia.
    + replace ea' with ep by lia. replace ep' with ep by lia.
      rewrite Z.sub_diag, !Z.mul_1_r. lia.
Qed.

(** [1 + x >= 1] when the sign bit of [x] is clear. *)
Lemma SFadd_one_above x :
  sign_clear x = true ->
  sf_above one_m (-52) (SF64add (S754_finite false one_m (-52)) x).
Proof.
  intros Hx. destruct x as [[]|[]| |[] mx ex]; cbn in Hx; try discriminate.
  - cbn. right. split; [reflexivity | lia].
  - exact I.
  - unfold SF64add, SFadd, cond_Zopp.
    pose proof (shl_align_spec one_m (-52) (Z.min (-52) ex)) as H1.
    destruct (shl_align one_m (-52) (Z.min (-52) ex)) as [a ea].
    destruct (shl_align mx ex (Z.min (-52) ex)) as [b eb].
    destruct H1 as (E1 & M1). cbn [fst].
    change (Z.pos a + Z.pos b) with (Z.pos (a + b)).
    cbn [binary_normalize]. unfold binary_round.
    set (ez := Z.min (-52) ex) in *.
    pose proof (shl_align_spec (a + b) ez
                  (fexp prec emax (Z.pos (digits2_pos (a + b)) + ez))) as H2.
    destruct (shl_align (a + b) ez _) as [mz ez'].
    destruct H2 as (E2 & M2).
    apply binary_round_aux_above; [exact canonical_one|].
    unfold value_above. split; [lia|].
    assert (Hez : ez <= -52) by (unfold ez; lia).
    assert (Hez' : ez' <= ez) by lia.
    assert (Hea : ea = ez) by (rewrite E1; unfold ez; lia).
    rewrite Hea in M1.
    assert (Hsum : Z.pos one_m * 2 ^ (-52 - ez') <= Z.pos mz).
    { rewrite M2, Pos2Z.inj_add, M1.
      replace (-52 - ez') with ((-52 - ez) + (ez - ez')) by lia.
      rewrite Z.pow_add_r by lia.
      assert (0 < 2 ^ (ez - ez')) by (apply Z.pow_pos_nonneg; lia).
      assert (0 < 2 ^ (-52 - ez)) by (apply Z.pow_pos_nonneg; lia).
      nia. }
    destruct (Z.eq_dec ez' (-52)) as [->|Hne].
    + left. split; [lia|]. change (-52 - -52) with 0 in *.
      rewrite Z.mul_1_r in *. exact Hsum.
    + right. split; [lia | exact Hsum].
Qed.

(** *** The same facts on numbers *)

Local Open Scope float_scope.

Lemma mul_sign_clear (p r : float) (m : positive) (e : Z) :
  Prim2SF p = S754_finite false m e -> sign_clear (Prim2SF r) = true ->
  sign_clear (Prim2SF (p * r)) = true.
Proof.
  intros Hp Hr. rewrite FloatAxioms.mul_spec, Hp. now apply SFmul_sign_clear.
Qed.

Lemma div_sign_clear (x c : float) (m : positive) (e : Z) :
  Prim2SF c = S754_finite false m e -> sign_clear (Prim2SF x) = true ->
  sign_clear (Prim2SF (x / c)) = true.
Proof.
  intros Hc Hx. rewrite FloatAxioms.div_spec, Hc. now apply SFdiv_sign_clear.
Qed.

Lemma add_one_leb (r : float) :
  sign_clear (Prim2SF r) = true -> (1 <=? 1 + r) = true.
Proof.
  intros Hr. rewrite FloatAxioms.leb_spec, FloatAxioms.add_spec, SF_one.
  apply sf_above_leb. now apply SFadd_one_above.
Qed.

(** [p * w - p] has its sign bit clear for a positive finite [p] and
    [w >= 1]. *)
Lemma growth_sign_clear (p w : float) (m : positive) (e : Z) :
  Prim2SF p = S754_finite false m e -> (1 <=? w) = true ->
  sign_clear (Prim2SF (p * w - p)) = true.
Proof.
  intros Hp Hw.
  assert (Hc : canonical_mantissa prec emax m e = true).
  { apply (canonical_of_valid false). rewrite <- Hp. apply Prim2SF_valid. }
  rewrite FloatAxioms.leb_spec, SF_one in Hw.
  apply leb_sf_above in Hw.
  rewrite FloatAxioms.sub_spec, Hp. apply SFsub_above; [exact Hc | apply Prim2SF_valid |].
  rewrite FloatAxioms.mul_spec, Hp. apply SFmul_above; [exact Hc | apply Prim2SF_valid | exact Hw].
Qed.

End FloatOrder.

(** ** The error of one operation

    The value of a number as a real, and the relative error of [*], [/] and
    [-] on positive numbers away from the ends of the range: at most 2^-52
    (the rounding is to nearest; the coarser bound is enough here). *)

Module FloatError.

Import Reals Lra.
Import Js FloatFacts FloatOrder.
Local Open Scope R_scope.

(** Powers of two. *)
Definition bpow (e : Z) : R := powerRZ 2 e.

Lemma bpow_pos e : 0 < bpow e.
Proof. apply powerRZ_lt. lra. Qed.

Lemma bpow_1 : bpow 1 = 2.
Proof. unfold bpow. apply powerRZ_1. Qed.

Lemma bpow_add a b : bpow (a + b) = bpow a * bpow b.
Proof. apply powerRZ_add. lra. Qed.

Lemma bpow_IZR k : (0 <= k)%Z -> IZR (2 ^ k) = bpow k.
Proof.
  intros H. unfold bpow. rewrite <- (Z2Nat.id k H).
  now rewrite <- pow_IZR, <- pow_powerRZ.
Qed.

Lemma bpow_ge_1 k : (0 <= k)%Z -> 1 <= bpow k.
Proof.
  intros H. rewrite <- bpow_IZR by exact H. apply IZR_le.
  assert (0 < 2 ^ k)%Z by (apply Z.pow_pos_nonneg; lia). lia.
Qed.

Lemma bpow_le a b : (a <= b)%Z -> bpow a <= bpow b.
Proof.
  intros H. replace b with (a + (b - a))%Z by lia. rewrite bpow_add.
  pose proof (bpow_pos a). pose proof (bpow_ge_1 (b - a) ltac:(lia)). nra.
Qed.

Lemma bpow_lt a b : (a < b)%Z -> bpow a < bpow b.
Proof.
  intros H. replace b with (a + (b - a))%Z by lia. rewrite bpow_add.
  pose proof (bpow_pos a).
  assert (2 <= bpow (b - a)).
  { rewrite <- bpow_IZR by lia. apply IZR_le.
    change 2%Z with (2 ^ 1)%Z. apply Z.pow_le_mono_r; lia. }
  nra.
Qed.

Lemma bpow_le_inv a b : bpow a <= bpow b -> (a <= b)%Z.
Proof.
  intros H. destruct (Z_le_gt_dec a b) as [|Hgt]; [assumption|].
  assert (Hlt : (b < a)%Z) by lia. apply bpow_lt in Hlt. lra.
Qed.

Lemma bpow_lt_inv a b : bpow a < bpow b -> (a < b)%Z.
Proof.
  intros H. destruct (Z_lt_le_dec a b) as [|Hle]; [assumption|].
  apply bpow_le in Hle. lra.
Qed.

(** The value of a binary64 number; 0 for the infinities and NaN. *)
Definition val_sf (x : spec_float) : R :=
  match x with
  | S754_finite s m e => (if s then -1 else 1) * IZR (Z.pos m) * bpow e
  | _ => 0
  end.

Definition val (x : float) : R := val_sf (Prim2SF x).

(** A canonical mantissa at its exponent is kept by the rounding. *)
Lemma binary_round_aux_exact sx (m : positive) (e : Z) :
  canonical_mantissa prec emax m e = true -> (e <= 971)%Z ->
  binary_round_aux prec emax sx (Z.pos m) e loc_Exact = S754_finite sx m e.
Proof.
  intros Hc He. unfold canonical_mantissa in Hc. apply Z.eqb_eq in Hc.
  unfold binary_round_aux, shr_fexp. cbn [Zdigits2]. rewrite Hc, Z.sub_diag.
  cbn [shr shr_record_of_loc shr_m loc_of_shr_record round_nearest_even Zdigits2].
  rewrite Hc, Z.sub_diag. cbn [shr shr_record_of_loc shr_m].
  replace (e <=? emax - prec)%Z with true; [reflexivity|].
  symmetry. apply Z.leb_le. exact He.
Qed.

Local Open Scope Z_scope.

Lemma round_nearest_even_cases m l :
  round_nearest_even m l = m \/ round_nearest_even m l = m + 1.
Proof.
  destruct l as [|[]]; cbn; auto. destruct (Z.even m); auto.
Qed.

Lemma Zdigits2_unique M d :
  0 <= d -> 2 ^ (d - 1) <= M < 2 ^ d -> Zdigits2 M = d.
Proof.
  intros Hd H.
  destruct (Z.eq_dec d 0) as [->|Hd0].
  { cbn in H. now replace M with 0 by lia. }
  assert (HM : 1 <= M).
  { assert (0 < 2 ^ (d - 1)); [|lia]. apply Z.pow_pos_nonneg; lia. }
  pose proof (Zdigits2_pos_bounds M HM) as HB.
  assert (0 <= Zdigits2 M).
  { destruct M; cbn; lia. }
  assert (d - 1 < Zdigits2 M) by (apply pow2_lt_inv; lia).
  assert (Zdigits2 M - 1 < d) by (apply pow2_lt_inv; lia).
  lia.
Qed.

(** The rounding of [M * 2^E], for [M] of 53 bits or more in the normal
    range: the result is one of the two 53-bit neighbours. *)
Lemma binary_round_aux_faithful sx M E l :
  2 ^ 52 <= M ->
  -1021 <= Zdigits2 M + E <= 1023 ->
  exists m e m1 n,
    binary_round_aux prec emax sx M E l = S754_finite sx m e
    /\ 0 <= n /\ 2 ^ 52 <= m1
    /\ m1 * 2 ^ n <= M < (m1 + 1) * 2 ^ n
    /\ E + n <= e
    /\ (Z.pos m * 2 ^ (e - (E + n)) = m1 \/ Z.pos m * 2 ^ (e - (E + n)) = m1 + 1).
Proof.
  intros HM HE.
  assert (HM1 : 1 <= M) by (change (2 ^ 52) with 4503599627370496 in HM; lia).
  pose proof (Zdigits2_pos_bounds M HM1) as Hd.
  set (d := Zdigits2 M) in *.
  assert (Hd53 : 52 < d).
  { apply pow2_lt_inv; [|lia]. destruct M; cbn in *; lia. }
  set (n := d - 53).
  assert (Hpn : 0 < 2 ^ n) by (apply Z.pow_pos_nonneg; lia).
  set (m1 := M / 2 ^ n).
  assert (Hdm : m1 * 2 ^ n <= M < (m1 + 1) * 2 ^ n).
  { unfold m1. pose proof (Z.div_mod M (2 ^ n) ltac:(lia)).
    pose proof (Z.mod_pos_bound M (2 ^ n) Hpn). nia. }
  assert (Hsplit : 2 ^ d = 2 ^ 53 * 2 ^ n /\ 2 ^ (d - 1) = 2 ^ 52 * 2 ^ n).
  { split; rewrite <- Z.pow_add_r by lia; f_equal; lia. }
  destruct Hsplit as (Hs1 & Hs2).
  assert (Hm1 : 2 ^ 52 <= m1 < 2 ^ 53) by nia.
  unfold binary_round_aux.
  destruct (shr_fexp_spec M E l ltac:(lia)) as (H0 & H1).
  fold d in H0, H1.
  assert (En : fexp prec emax (d + E) - E = n).
  { rewrite fexp_eq. unfold n. lia. }
  rewrite En in H0, H1.
  assert (Hfst : shr_m (fst (shr_fexp prec emax M E l)) = m1
                 /\ snd (shr_fexp prec emax M E l) = E + n).
  { destruct (Z.eq_dec n 0) as [Hn|Hn].
    - destruct (H0 ltac:(lia)) as (A & B). rewrite A, B. unfold m1.
      rewrite Hn. cbn. rewrite Z.div_1_r. split; lia.
    - apply H1. lia. }
  destruct (shr_fexp prec emax M E l) as [mrs' e'].
  cbn [fst snd] in Hfst. destruct Hfst as (Hfst & ->). rewrite Hfst.
  set (mr := round_nearest_even m1 (loc_of_shr_record mrs')).
  assert (Hmr : mr = m1 \/ mr = m1 + 1) by apply round_nearest_even_cases.
  assert (Hmr2 : 2 ^ 52 <= mr <= 2 ^ 53) by lia.
  destruct (shr_fexp_spec mr (E + n) loc_Exact ltac:(lia)) as (G0 & G1).
  destruct (Z.eq_dec mr (2 ^ 53)) as [Heq|Hne].
  - rewrite Heq in G1 |- *. cbn -[shr_fexp Z.pow] in G1.
    assert (Hn' : fexp prec emax (Zdigits2 (2 ^ 53) + (E + n)) - (E + n) = 1).
    { rewrite fexp_eq. change (Zdigits2 (2 ^ 53)) with 54. lia. }
    rewrite Hn' in G1. destruct (G1 ltac:(lia)) as (A & B).
    destruct (shr_fexp prec emax (2 ^ 53) (E + n) loc_Exact) as [mrs'' e''].
    cbn [fst snd] in A, B. rewrite A, B.
    change (2 ^ 53 / 2 ^ 1) with (Z.pos 4503599627370496).
    cbv iota beta.
    replace (E + n + 1 <=? emax - prec) with true
      by (symmetry; apply Z.leb_le; unfold emax, prec, n; lia).
    exists 4503599627370496%positive, (E + n + 1), m1, n.
    repeat split; try lia.
    replace (E + n + 1 - (E + n)) with 1 by lia.
    change (Z.pos 4503599627370496 * 2 ^ 1) with (2 ^ 53). lia.
  - assert (Hd' : Zdigits2 mr = 53) by (apply Zdigits2_unique; [lia|]; cbn; lia).
    rewrite Hd' in G0.
    assert (Hn' : fexp prec emax (53 + (E + n)) - (E + n) = 0).
    { rewrite fexp_eq. unfold n. lia. }
    rewrite Hn' in G0. destruct (G0 ltac:(lia)) as (A & B).
    destruct (shr_fexp prec emax mr (E + n) loc_Exact) as [mrs'' e''].
    cbn [fst snd] in A, B. rewrite A, B.
    destruct mr as [|p|p] eqn:Emr; try (change (2 ^ 52) with 4503599627370496 in Hmr2; lia).
    replace (E + n <=? emax - prec) with true
      by (symmetry; apply Z.leb_le; unfold emax, prec, n; lia).
    exists p, (E + n), m1, n.
    rewrite Z.sub_diag, Z.mul_1_r. repeat split; try lia.
Qed.

Local Open Scope R_scope.

Lemma IZR_mul_pow2 (a k : Z) : (0 <= k)%Z -> IZR (a * 2 ^ k) = IZR a * bpow k.
Proof. intros H. now rewrite mult_IZR, bpow_IZR. Qed.

Lemma bpow_opp_mul k : bpow (- k) * bpow k = 1.
Proof. rewrite <- bpow_add. now replace (- k + k)%Z with 0%Z by lia. Qed.

(** The result of a rounding in the normal range, against any number in the
    interval the mantissa stands for: the relative error is at most 2^-52. *)
Lemma binary_round_aux_close sx M E l (V : R) :
  (2 ^ 52 <= M)%Z ->
  bpow (-1000) <= V <= bpow 1000 ->
  IZR M * bpow E <= V <= IZR (M + 1) * bpow E ->
  exists m e,
    binary_round_aux prec emax sx M E l = S754_finite sx m e
    /\ Rabs (IZR (Z.pos m) * bpow e - V) <= bpow (-52) * V.
Proof.
  intros HM HR HV.
  assert (HM1 : (1 <= M)%Z) by (change (2 ^ 52)%Z with 4503599627370496%Z in HM; lia).
  pose proof (Zdigits2_pos_bounds M HM1) as Hd.
  assert (Hd0 : (0 <= Zdigits2 M)%Z) by (destruct M; cbn; lia).
  set (d := Zdigits2 M) in *.
  assert (Hd1 : (1 <= d)%Z).
  { destruct (Z_lt_le_dec d 1); [|assumption].
    replace d with 0%Z in Hd by lia. cbn in Hd. lia. }
  pose proof (bpow_pos E) as HpE.
  assert (Hlo : (-1000 <= d + E)%Z).
  { apply bpow_le_inv. rewrite bpow_add. rewrite <- (bpow_IZR d) by lia.
    assert (IZR (M + 1) <= IZR (2 ^ d)) by (apply IZR_le; lia). nra. }
  assert (Hhi : (d - 1 + E <= 1000)%Z).
  { destruct (Z_lt_le_dec 1000 (d - 1 + E)) as [Hc|]; [|lia]. exfalso.
    apply bpow_lt in Hc. rewrite bpow_add, <- (bpow_IZR (d - 1)) in Hc by lia.
    assert (IZR (2 ^ (d - 1)) <= IZR M) by (apply IZR_le; lia). nra. }
  destruct (binary_round_aux_faithful sx M E l HM ltac:(fold d; lia))
    as (m & e & m1 & n & Hr & Hn & Hm1 & Hdiv & He & Hcase).
  exists m, e. split; [exact Hr|].
  set (B := bpow (E + n)).
  assert (HB : 0 < B) by apply bpow_pos.
  assert (Hval : IZR (Z.pos m) * bpow e = IZR (Z.pos m * 2 ^ (e - (E + n))) * B).
  { rewrite IZR_mul_pow2 by lia. unfold B. rewrite Rmult_assoc, <- bpow_add.
    do 2 f_equal. lia. }
  assert (Ha : bpow 52 <= IZR m1).
  { rewrite <- (bpow_IZR 52) by lia. now apply IZR_le. }
  assert (Hlow : IZR m1 * B <= IZR M * bpow E).
  { unfold B. rewrite bpow_add, (Rmult_comm (bpow E)), <- Rmult_assoc.
    rewrite <- (IZR_mul_pow2 m1 n) by lia.
    apply Rmult_le_compat_r; [lra|]. apply IZR_le. lia. }
  assert (Hupp : IZR (M + 1) * bpow E <= IZR (m1 + 1) * B).
  { unfold B. rewrite bpow_add, (Rmult_comm (bpow E)), <- Rmult_assoc.
    rewrite <- (IZR_mul_pow2 (m1 + 1) n) by lia.
    apply Rmult_le_compat_r; [lra|]. apply IZR_le. lia. }
  rewrite !plus_IZR in Hupp. rewrite plus_IZR in HV.
  assert (H52 : bpow (-52) * bpow 52 = 1) by apply (bpow_opp_mul 52).
  assert (HBV : B <= bpow (-52) * V).
  { pose proof (bpow_pos (-52)) as Hp.
    assert (1 <= bpow (-52) * IZR m1) by nra.
    assert (B <= bpow (-52) * (IZR m1 * B)) by nra.
    nra. }
  rewrite Hval. apply Rabs_le.
  destruct Hcase as [-> | ->]; [|rewrite plus_IZR]; split; nra.
Qed.

(** *** Positive finite numbers and their values *)

Definition pos_finite (x : float) : Prop :=
  exists m e, Prim2SF x = S754_finite false m e.

Lemma val_finite x m e :
  Prim2SF x = S754_finite false m e -> val x = IZR (Z.pos m) * bpow e.
Proof. intros H. unfold val. rewrite H. cbn. lra. Qed.

Lemma canonical_of_float x s m e :
  Prim2SF x = S754_finite s m e -> canonical_mantissa prec emax m e = true.
Proof.
  intros H. apply (canonical_of_valid s). rewrite <- H. apply Prim2SF_valid.
Qed.

(** A number of value 2^-1000 or more is normal: its mantissa has 53 bits. *)
Lemma normal_of_val m e :
  canonical_mantissa prec emax m e = true ->
  bpow (-1000) <= IZR (Z.pos m) * bpow e ->
  (2 ^ 52 <= Z.pos m < 2 ^ 53)%Z /\ Zdigits2 (Z.pos m) = 53%Z.
Proof.
  intros Hc Hv. destruct (canonical_small m e Hc) as (Hs & He).
  assert (Hn : (2 ^ 52 <= Z.pos m)%Z).
  { apply (canonical_normal m e Hc).
    destruct (Z.eq_dec e (-1074)) as [->|]; [exfalso|lia].
    assert (IZR (Z.pos m) < IZR (2 ^ 53)) by now apply IZR_lt.
    rewrite (bpow_IZR 53) in H by lia.
    assert (bpow 53 * bpow (-1074) < bpow (-1000)).
    { rewrite <- bpow_add. apply bpow_lt. lia. }
    pose proof (bpow_pos (-1074)). nra. }
  split; [lia|]. apply Zdigits2_unique; [lia|]. cbn -[Z.pow]. lia.
Qed.

Lemma bpow_1000 :
  bpow (-500) * bpow (-500) = bpow (-1000) /\ bpow 500 * bpow 500 = bpow 1000.
Proof. split; now rewrite <- bpow_add. Qed.

Local Open Scope float_scope.

(** Multiplication of two positive numbers away from the ends of the range. *)
Lemma mul_close (x y : float) :
  pos_finite x -> pos_finite y ->
  (bpow (-500) <= val x <= bpow 500)%R -> (bpow (-500) <= val y <= bpow 500)%R ->
  pos_finite (x * y)
  /\ (Rabs (val (x * y) - val x * val y) <= bpow (-52) * (val x * val y))%R.
Proof.
  intros (m1 & e1 & Hx) (m2 & e2 & Hy) Rx Ry.
  pose proof (val_finite x m1 e1 Hx) as Vx.
  pose proof (val_finite y m2 e2 Hy) as Vy.
  pose proof bpow_1000 as (B1 & B2).
  pose proof (bpow_pos (-500)) as Bp. pose proof (bpow_pos 500) as Bq.
  pose proof (bpow_le (-1000) (-500) ltac:(lia)) as Ble.
  assert (Nx := normal_of_val m1 e1 (canonical_of_float x _ _ _ Hx) ltac:(rewrite <- Vx; lra)).
  assert (Ny := normal_of_val m2 e2 (canonical_of_float y _ _ _ Hy) ltac:(rewrite <- Vy; lra)).
  destruct Nx as (Nx & _), Ny as (Ny & _).
  assert (HV : (val x * val y = IZR (Z.pos (m1 * m2)) * bpow (e1 + e2))%R).
  { rewrite Vx, Vy, Pos2Z.inj_mul, mult_IZR, bpow_add. ring. }
  destruct (binary_round_aux_close false (Z.pos (m1 * m2)) (e1 + e2) loc_Exact
              (val x * val y)%R) as (m & e & Hr & Hb).
  - rewrite Pos2Z.inj_mul. change (2 ^ 52)%Z with 4503599627370496%Z in *. nia.
  - split; [rewrite <- B1 | rewrite <- B2]; nra.
  - rewrite HV. split; [lra|]. apply Rmult_le_compat_r; [pose proof (bpow_pos (e1 + e2)); lra|].
    apply IZR_le. lia.
  - assert (Hm : Prim2SF (x * y) = S754_finite false m e).
    { rewrite FloatAxioms.mul_spec, Hx, Hy. exact Hr. }
    split; [now exists m, e|]. now rewrite (val_finite _ _ _ Hm).
Qed.

Lemma quotient_range (a b : R) :
  (bpow (-500) <= a <= bpow 500)%R -> (bpow (-500) <= b <= bpow 500)%R ->
  (bpow (-1000) <= a / b <= bpow 1000)%R.
Proof.
  intros Ha Hb. pose proof bpow_1000 as (B1 & B2).
  pose proof (bpow_pos (-500)) as Bp. pose proof (bpow_pos 500) as Bq.
  assert (H1 : (bpow (-500) * bpow 500 = 1)%R) by apply (bpow_opp_mul 500).
  assert (Hb0 : (0 < b)%R) by lra.
  assert (Hq : (a / b * b = a)%R) by (field; lra).
  set (q := (a / b)%R) in *.
  split.
  - apply (Rmult_le_reg_r b); [exact Hb0|]. rewrite Hq.
    apply Rle_trans with (bpow (-1000) * bpow 500)%R.
    + apply Rmult_le_compat_l; [pose proof (bpow_pos (-1000)); lra | lra].
    + rewrite <- B1. nra.
  - apply (Rmult_le_reg_r b); [exact Hb0|]. rewrite Hq.
    apply Rle_trans with (bpow 1000 * bpow (-500))%R.
    + rewrite <- B2. nra.
    + apply Rmult_le_compat_l; [pose proof (bpow_pos 1000); lra | lra].
Qed.

(** Division of two positive numbers away from the ends of the range. *)
Lemma div_close (x y : float) :
  pos_finite x -> pos_finite y ->
  (bpow (-500) <= val x <= bpow 500)%R -> (bpow (-500) <= val y <= bpow 500)%R ->
  pos_finite (x / y)
  /\ (Rabs (val (x / y) - val x / val y) <= bpow (-52) * (val x / val y))%R.
Proof.
  intros (m1 & e1 & Hx) (m2 & e2 & Hy) Rx Ry.
  pose proof (val_finite x m1 e1 Hx) as Vx.
  pose proof (val_finite y m2 e2 Hy) as Vy.
  pose proof (quotient_range _ _ Rx Ry) as RV.
  pose proof (bpow_pos (-500)) as Bp.
  pose proof (bpow_le (-1000) (-500) ltac:(lia)) as Ble.
  assert (Nx := normal_of_val m1 e1 (canonical_of_float x _ _ _ Hx) ltac:(rewrite <- Vx; lra)).
  assert (Ny := normal_of_val m2 e2 (canonical_of_float y _ _ _ Hy) ltac:(rewrite <- Vy; lra)).
  destruct Nx as (Nx & Dx), Ny as (Ny & Dy).
  set (A := IZR (Z.pos m1)) in *. set (C := IZR (Z.pos m2)) in *.
  assert (HA : (bpow 52 <= A < bpow 53)%R).
  { unfold A. rewrite <- (bpow_IZR 52), <- (bpow_IZR 53) by lia.
    split; [apply IZR_le | apply IZR_lt]; lia. }
  assert (HC : (bpow 52 <= C < bpow 53)%R).
  { unfold C. rewrite <- (bpow_IZR 52), <- (bpow_IZR 53) by lia.
    split; [apply IZR_le | apply IZR_lt]; lia. }
  pose proof (bpow_pos 52) as B52.
  assert (B53 : (bpow 53 = 2 * bpow 52)%R).
  { change 53%Z with (1 + 52)%Z. rewrite bpow_add, bpow_1. reflexivity. }
  pose proof (bpow_pos e1) as P1. pose proof (bpow_pos e2) as P2.
  set (E := (e1 - e2 - 53)%Z).
  pose proof (bpow_pos E) as PE.
  assert (HE : (bpow e1 = bpow e2 * bpow 53 * bpow E)%R).
  { rewrite <- !bpow_add. f_equal. unfold E. lia. }
  set (V := (val x / val y)%R) in *.
  assert (HVC : (V * C = A * bpow 53 * bpow E)%R).
  { unfold V. rewrite Vx, Vy, HE. field. lra. }
  assert (Hexp : (-1021 <= e1 - e2)%Z).
  { assert (Hlt : (-1000 < e1 - e2 + 1)%Z); [|lia].
    apply bpow_lt_inv. replace (e1 - e2 + 1)%Z with (1 + 53 + E)%Z by (unfold E; lia).
    rewrite !bpow_add, bpow_1.
    apply Rle_lt_trans with V; [lra|].
    apply (Rmult_lt_reg_r C); [lra|]. rewrite HVC. nra. }
  assert (Hm : exists m e, Prim2SF (x / y) = S754_finite false m e
                /\ (Rabs (IZR (Z.pos m) * bpow e - V) <= bpow (-52) * V)%R).
  { rewrite FloatAxioms.div_spec, Hx, Hy.
    unfold SF64div, SFdiv, SFdiv_core_binary. rewrite Dx, Dy, fexp_eq.
    replace (Z.min (Z.max (53 + e1 - (53 + e2) - 53) (-1074)) (e1 - e2)) with E
      by (unfold E; lia).
    replace (e1 - e2 - E)%Z with 53%Z by (unfold E; lia).
    cbv iota. rewrite Z.shiftl_mul_pow2 by lia.
    pose proof (Z_div_mod (Z.pos m1 * 2 ^ 53) (Z.pos m2) ltac:(lia)) as Hdm.
    destruct (Z.div_eucl (Z.pos m1 * 2 ^ 53) (Z.pos m2)) as [q r].
    destruct Hdm as (Hdm & Hr). cbn [xorb].
    assert (Hq : (2 ^ 52 <= q)%Z).
    { change (2 ^ 52)%Z with 4503599627370496%Z in *.
      change (2 ^ 53)%Z with 9007199254740992%Z in *. nia. }
    assert (HqA : (IZR q * C <= A * bpow 53 < (IZR q + 1) * C)%R).
    { unfold A, C. rewrite <- (IZR_mul_pow2 (Z.pos m1) 53) by lia.
      rewrite <- (plus_IZR q 1), <- !mult_IZR.
      split; [apply IZR_le | apply IZR_lt]; nia. }
    apply binary_round_aux_close; [exact Hq | exact RV |].
    rewrite plus_IZR. split.
    - apply (Rmult_le_reg_r C); [lra|]. rewrite HVC. nra.
    - apply (Rmult_le_reg_r C); [lra|]. rewrite HVC. nra. }
  destruct Hm as (m & e & Hm & Hb).
  split; [now exists m, e|]. now rewrite (val_finite _ _ _ Hm).
Qed.

Local Open Scope R_scope.

(** The rounding of a positive [m * 2^e] in the normal range: relative error
    at most 2^-52, and none when [m] fits in 53 bits. *)
Lemma binary_round_close sx (m : positive) (e : Z) :
  bpow (-1000) <= IZR (Z.pos m) * bpow e <= bpow 1000 ->
  exists m' e',
    binary_round prec emax sx m e = S754_finite sx m' e'
    /\ Rabs (IZR (Z.pos m') * bpow e' - IZR (Z.pos m) * bpow e)
       <= bpow (-52) * (IZR (Z.pos m) * bpow e)
    /\ ((Z.pos m < 2 ^ 53)%Z -> IZR (Z.pos m') * bpow e' = IZR (Z.pos m) * bpow e).
Proof.
  intros HR. set (V := IZR (Z.pos m) * bpow e) in *.
  pose proof (digits2_bounds m) as Hd.
  set (d := Z.pos (digits2_pos m)) in *.
  assert (Hd1 : (1 <= d)%Z) by (unfold d; lia).
  pose proof (bpow_pos e) as Pe.
  assert (Hlo : (-1000 < d + e)%Z).
  { apply bpow_lt_inv. rewrite bpow_add, <- (bpow_IZR d) by lia.
    assert (IZR (Z.pos m) < IZR (2 ^ d)) by (apply IZR_lt; lia).
    unfold V in HR. nra. }
  assert (Hhi : (d - 1 + e <= 1000)%Z).
  { apply bpow_le_inv. rewrite bpow_add, <- (bpow_IZR (d - 1)) by lia.
    assert (IZR (2 ^ (d - 1)) <= IZR (Z.pos m)) by (apply IZR_le; lia).
    unfold V in HR. nra. }
  unfold binary_round. fold d. rewrite fexp_eq.
  replace (Z.max (d + e - 53) (-1074)) with (d + e - 53)%Z by lia.
  pose proof (shl_align_spec m e (d + e - 53)) as HS.
  destruct (shl_align m e (d + e - 53)) as [mz ez]. destruct HS as (Hez & Hmz).
  destruct (Z_le_gt_dec d 53) as [Hs|Hs].
  - replace (Z.min e (d + e - 53)) with (d + e - 53)%Z in Hez by lia. subst ez.
    replace (e - (d + e - 53))%Z with (53 - d)%Z in Hmz by lia.
    assert (Hsplit : (2 ^ 53 = 2 ^ d * 2 ^ (53 - d) /\ 2 ^ 52 = 2 ^ (d - 1) * 2 ^ (53 - d))%Z).
    { split; rewrite <- Z.pow_add_r by lia; f_equal; lia. }
    destruct Hsplit as (S1 & S2).
    assert (Hp : (0 < 2 ^ (53 - d))%Z) by (apply Z.pow_pos_nonneg; lia).
    assert (Hdz : Zdigits2 (Z.pos mz) = 53%Z).
    { apply Zdigits2_unique; [lia|]. change (53 - 1)%Z with 52%Z. nia. }
    assert (Hc : canonical_mantissa prec emax mz (d + e - 53) = true).
    { unfold canonical_mantissa. apply Z.eqb_eq. cbn [Zdigits2] in Hdz.
      rewrite Hdz, fexp_eq. lia. }
    rewrite (binary_round_aux_exact sx mz (d + e - 53) Hc) by lia.
    exists mz, (d + e - 53)%Z.
    assert (Hv : IZR (Z.pos mz) * bpow (d + e - 53) = V).
    { rewrite Hmz, IZR_mul_pow2 by lia. unfold V. rewrite Rmult_assoc, <- bpow_add.
      do 2 f_equal. lia. }
    split; [reflexivity|]. split; [|intros _; exact Hv].
    rewrite Hv, Rminus_diag, Rabs_R0.
    pose proof (bpow_pos (-52)). pose proof (bpow_pos (-1000)). nra.
  - replace (Z.min e (d + e - 53)) with e in Hez by lia. subst ez.
    rewrite Z.sub_diag, Z.mul_1_r in Hmz. rewrite Hmz.
    assert (H53 : (2 ^ 53 <= 2 ^ (d - 1))%Z) by (apply Z.pow_le_mono_r; lia).
    destruct (binary_round_aux_close sx (Z.pos m) e loc_Exact V) as (m' & e' & Hr & Hb).
    + change (2 ^ 52)%Z with 4503599627370496%Z.
      change (2 ^ 53)%Z with 9007199254740992%Z in H53. lia.
    + exact HR.
    + unfold V. split; [lra|]. apply Rmult_le_compat_r; [lra|]. apply IZR_le. lia.
    + exists m', e'. split; [exact Hr|]. split; [exact Hb|].
      intros Hlt. lia.
Qed.

Lemma bpow_0 : bpow 0 = 1.
Proof. reflexivity. Qed.

(** Whole numbers below 2^53 are numbers of the format. *)
Lemma of_Z_val (n : Z) :
  (0 < n < 2 ^ 53)%Z -> pos_finite (of_Z n) /\ val (of_Z n) = IZR n.
Proof.
  intros Hn. destruct n as [|p|p]; try lia.
  assert (Hr : bpow (-1000) <= IZR (Z.pos p) * bpow 0 <= bpow 1000).
  { rewrite bpow_0, Rmult_1_r.
    pose proof (bpow_le (-1000) 0 ltac:(lia)) as H0. rewrite bpow_0 in H0.
    pose proof (bpow_le 53 1000 ltac:(lia)) as H1.
    rewrite <- (bpow_IZR 53) in H1 by lia.
    assert (1 <= IZR (Z.pos p)) by (apply IZR_le; lia).
    assert (IZR (Z.pos p) <= IZR (2 ^ 53)) by (apply IZR_le; lia).
    lra. }
  destruct (binary_round_close false p 0 Hr) as (m & e & Hb & _ & Hex).
  assert (Hm : Prim2SF (of_Z (Z.pos p)) = S754_finite false m e).
  { unfold of_Z. rewrite FloatAxioms.of_uint63_spec, Uint63.of_Z_spec.
    rewrite Z.mod_small; [exact Hb|].
    change wB with (2 ^ 63)%Z. change (2 ^ 53)%Z with 9007199254740992%Z in Hn.
    change (2 ^ 63)%Z with 9223372036854775808%Z. lia. }
  split; [now exists m, e|].
  rewrite (val_finite _ _ _ Hm), (Hex ltac:(lia)), bpow_0. lra.
Qed.

(** [Math.round] on a positive number below 2^52: the nearest whole number,
    the upper one at a tie. *)
Lemma Math_round_spec (x : float) :
  pos_finite x -> val x < bpow 52 ->
  exists n : Z,
    Math_round x = of_Z n /\ (0 <= n)%Z /\ val x - 1 / 2 < IZR n <= val x + 1 / 2.
Proof.
  intros (m & e & Hx) Hlt.
  pose proof (val_finite x m e Hx) as Vx.
  pose proof (canonical_of_float x _ _ _ Hx) as Hc.
  assert (He : (e < 0)%Z).
  { destruct (Z_lt_le_dec e 0) as [|He]; [assumption|exfalso].
    pose proof (canonical_normal m e Hc ltac:(lia)) as Hn.
    apply IZR_le in Hn. rewrite (bpow_IZR 52) in Hn by lia.
    pose proof (bpow_ge_1 e He). pose proof (bpow_pos 52). nra. }
  unfold Math_round. rewrite Hx.
  replace (0 <=? e)%Z with false by (symmetry; apply Z.leb_gt; exact He).
  cbv zeta.
  set (d := (2 ^ (- e))%Z).
  assert (Hd : (0 < d)%Z) by (apply Z.pow_pos_nonneg; lia).
  pose proof (Z.div_mod (Z.pos m) d ltac:(lia)) as Hdm.
  pose proof (Z.mod_pos_bound (Z.pos m) d Hd) as Hr.
  set (q := (Z.pos m / d)%Z) in *. set (r := (Z.pos m mod d)%Z) in *.
  assert (Hq : (0 <= q)%Z) by (apply Z.div_pos; lia).
  assert (HD : IZR d * bpow e = 1).
  { unfold d. rewrite (bpow_IZR (- e)) by lia. apply bpow_opp_mul. }
  assert (HdR : 0 < IZR d) by now apply IZR_lt.
  assert (Hval : val x * IZR d = IZR q * IZR d + IZR r).
  { rewrite Vx, Rmult_assoc, (Rmult_comm (bpow e)), HD, Rmult_1_r.
    rewrite Hdm at 1. rewrite plus_IZR, mult_IZR. ring. }
  assert (Hr0 : 0 <= IZR r) by (apply IZR_le; lia).
  destruct (Z.leb_spec d (2 * r)) as [Hup|Hup].
  - exists (q + 1)%Z. split; [reflexivity|]. split; [lia|].
    apply IZR_le in Hup. rewrite mult_IZR in Hup.
    assert (IZR r < IZR d) by (apply IZR_lt; lia).
    rewrite plus_IZR. split.
    + apply (Rmult_lt_reg_r (IZR d)); [exact HdR|]. nra.
    + apply (Rmult_le_reg_r (IZR d)); [exact HdR|]. nra.
  - exists q. split; [reflexivity|]. split; [lia|].
    apply IZR_lt in Hup. rewrite mult_IZR in Hup.
    split.
    + apply (Rmult_lt_reg_r (IZR d)); [exact HdR|]. nra.
    + apply (Rmult_le_reg_r (IZR d)); [exact HdR|]. nra.
Qed.

(** *** Comparisons *)

Lemma mag_lt_exp m1 e1 m2 e2 :
  canonical_mantissa prec emax m1 e1 = true ->
  canonical_mantissa prec emax m2 e2 = true ->
  (e1 < e2)%Z ->
  IZR (Z.pos m1) * bpow e1 < IZR (Z.pos m2) * bpow e2.
Proof.
  intros H1 H2 He.
  destruct (canonical_small m1 e1 H1) as (Hs & Hmin).
  pose proof (canonical_normal m2 e2 H2 ltac:(lia)) as Hn.
  apply IZR_lt in Hs. apply IZR_le in Hn.
  rewrite (bpow_IZR 53) in Hs by lia. rewrite (bpow_IZR 52) in Hn by lia.
  pose proof (bpow_pos e1) as P1. pose proof (bpow_pos e2) as P2.
  pose proof (bpow_pos 52) as P52.
  assert (B53 : bpow 53 = 2 * bpow 52).
  { change 53%Z with (1 + 52)%Z. now rewrite bpow_add, bpow_1. }
  assert (Hle : 2 * bpow e1 <= bpow e2).
  { rewrite <- bpow_1, <- bpow_add. apply bpow_le. lia. }
  apply Rlt_le_trans with (bpow 53 * bpow e1); [nra|].
  apply Rle_trans with (bpow 52 * bpow e2); nra.
Qed.

Lemma SFcompare_val m1 e1 m2 e2 :
  canonical_mantissa prec emax m1 e1 = true ->
  canonical_mantissa prec emax m2 e2 = true ->
  match SFcompare (S754_finite false m1 e1) (S754_finite false m2 e2) with
  | Some Lt => IZR (Z.pos m1) * bpow e1 < IZR (Z.pos m2) * bpow e2
  | Some Eq => IZR (Z.pos m1) * bpow e1 = IZR (Z.pos m2) * bpow e2
  | Some Gt => IZR (Z.pos m2) * bpow e2 < IZR (Z.pos m1) * bpow e1
  | None => False
  end.
Proof.
  intros H1 H2. unfold SFcompare.
  destruct (Z.compare_spec e1 e2) as [->|H|H].
  - pose proof (bpow_pos e2) as P2.
    destruct (Pos.compare_cont Eq m1 m2) eqn:C.
    + apply Pos.compare_eq in C. now subst.
    + apply -> Pos.compare_lt_iff in C.
      apply Rmult_lt_compat_r; [exact P2|]. apply IZR_lt. lia.
    + apply -> Pos.compare_gt_iff in C.
      apply Rmult_lt_compat_r; [exact P2|]. apply IZR_lt. lia.
  - now apply mag_lt_exp.
  - now apply mag_lt_exp.
Qed.

Local Open Scope float_scope.

Lemma leb_val (x y : float) :
  pos_finite x -> pos_finite y -> (x <=? y) = true -> (val x <= val y)%R.
Proof.
  intros (m1 & e1 & Hx) (m2 & e2 & Hy).
  rewrite FloatAxioms.leb_spec, (val_finite _ _ _ Hx), (val_finite _ _ _ Hy), Hx, Hy.
  pose proof (SFcompare_val m1 e1 m2 e2 (canonical_of_float x _ _ _ Hx)
                (canonical_of_float y _ _ _ Hy)) as H.
  unfold SFleb. destruct (SFcompare _ _) as [[]|]; try discriminate; intros _; lra.
Qed.

(** A number between two positive finite numbers is positive and finite. *)
Lemma between_pos_finite (lo hi x : float) :
  pos_finite lo -> pos_finite hi ->
  (lo <=? x) = true -> (x <=? hi) = true -> pos_finite x.
Proof.
  intros (ml & el & Hl) (mh & eh & Hh).
  rewrite !FloatAxioms.leb_spec, Hl, Hh. unfold pos_finite.
  destruct (Prim2SF x) as [[]|[]| |[] m e]; cbn; try discriminate.
  intros _ _. now exists m, e.
Qed.

(** *** Relative error, with a decimal bound *)

Local Open Scope R_scope.

Definition eps : R := 1 / 1000000000000000.

Definition near (a V : R) : Prop := V * (1 - eps) <= a <= V * (1 + eps).

Lemma bpow_m52 : bpow (-52) = 1 / 4503599627370496.
Proof.
  assert (H : bpow (-52) * bpow 52 = 1) by apply (bpow_opp_mul 52).
  rewrite <- (bpow_IZR 52) in H by lia.
  change (2 ^ 52)%Z with 4503599627370496%Z in H. lra.
Qed.

Lemma Rabs_le_between a b : Rabs a <= b -> - b <= a <= b.
Proof. unfold Rabs. destruct (Rcase_abs a); lra. Qed.

Lemma near_of_close a V : 0 <= V -> Rabs (a - V) <= bpow (-52) * V -> near a V.
Proof.
  intros HV H. rewrite bpow_m52 in H.
  apply Rabs_le_between in H. unfold near, eps. lra.
Qed.

(** The numbers of the computation all lie between 10^-30 and 10^30. *)
Lemma in_range a :
  1 / 1000000000000000000000000000000 <= a <= 1000000000000000000000000000000 ->
  bpow (-500) <= a <= bpow 500.
Proof.
  intros H.
  assert (H1 : bpow (-100) * bpow 100 = 1) by apply (bpow_opp_mul 100).
  pose proof (bpow_le (-500) (-100) ltac:(lia)) as L.
  pose proof (bpow_le 100 500 ltac:(lia)) as U.
  rewrite <- (bpow_IZR 100) in H1, U by lia.
  change (2 ^ 100)%Z with 1267650600228229401496703205376%Z in H1, U.
  lra.
Qed.

Local Open Scope float_scope.

Lemma mul_near (x y : float) :
  pos_finite x -> pos_finite y ->
  (1 / 1000000000000000000000000000000 <= val x <= 1000000000000000000000000000000)%R ->
  (1 / 1000000000000000000000000000000 <= val y <= 1000000000000000000000000000000)%R ->
  pos_finite (x * y) /\ near (val (x * y)) (val x * val y).
Proof.
  intros Fx Fy Rx Ry.
  destruct (mul_close x y Fx Fy (in_range _ Rx) (in_range _ Ry)) as (F & H).
  split; [exact F|]. apply near_of_close; [nra | exact H].
Qed.

Lemma div_near (x y : float) :
  pos_finite x -> pos_finite y ->
  (1 / 1000000000000000000000000000000 <= val x <= 1000000000000000000000000000000)%R ->
  (1 / 1000000000000000000000000000000 <= val y <= 1000000000000000000000000000000)%R ->
  pos_finite (x / y) /\ near (val (x / y)) (val x / val y).
Proof.
  intros Fx Fy Rx Ry.
  destruct (div_close x y Fx Fy (in_range _ Rx) (in_range _ Ry)) as (F & H).
  split; [exact F|]. apply near_of_close; [|exact H].
  apply Rlt_le, Rdiv_lt_0_compat; lra.
Qed.

(** *** Subtraction and the absolute value *)

Definition finite_or_zero (z : float) : Prop :=
  match Prim2SF z with
  | S754_zero _ | S754_finite _ _ _ => True
  | _ => False
  end.

Local Open Scope R_scope.

Lemma exponent_lower m e :
  canonical_mantissa prec emax m e = true ->
  bpow (-500) <= IZR (Z.pos m) * bpow e -> (-1000 <= e)%Z.
Proof.
  intros Hc Hv. destruct (canonical_small m e Hc) as (Hs & _).
  apply IZR_lt in Hs. rewrite (bpow_IZR 53) in Hs by lia.
  assert (Hlt : (-500 < 53 + e)%Z); [|lia].
  apply bpow_lt_inv. rewrite bpow_add. pose proof (bpow_pos e). nra.
Qed.

Lemma shl_align_val m e ez :
  (ez <= e)%Z ->
  IZR (Z.pos (fst (shl_align m e ez))) * bpow ez = IZR (Z.pos m) * bpow e.
Proof.
  intros H. pose proof (shl_align_spec m e ez) as HS.
  destruct (shl_align m e ez) as [a ea]. destruct HS as (He & Ha). cbn [fst].
  replace ea with ez in Ha by lia.
  rewrite Ha, IZR_mul_pow2 by lia. rewrite Rmult_assoc, <- bpow_add.
  do 2 f_equal. lia.
Qed.

Local Open Scope float_scope.

Lemma sub_close (x y : float) :
  pos_finite x -> pos_finite y ->
  (bpow (-500) <= val x <= bpow 500)%R -> (bpow (-500) <= val y <= bpow 500)%R ->
  finite_or_zero (x - y)
  /\ (Rabs (val (x - y) - (val x - val y)) <= bpow (-52) * Rabs (val x - val y))%R.
Proof.
  intros (m1 & e1 & Hx) (m2 & e2 & Hy) Rx Ry.
  pose proof (val_finite x m1 e1 Hx) as Vx.
  pose proof (val_finite y m2 e2 Hy) as Vy.
  pose proof (exponent_lower m1 e1 (canonical_of_float x _ _ _ Hx)
                ltac:(rewrite <- Vx; lra)) as L1.
  pose proof (exponent_lower m2 e2 (canonical_of_float y _ _ _ Hy)
                ltac:(rewrite <- Vy; lra)) as L2.
  set (ez := Z.min e1 e2).
  pose proof (shl_align_val m1 e1 ez ltac:(unfold ez; lia)) as A1.
  pose proof (shl_align_val m2 e2 ez ltac:(unfold ez; lia)) as A2.
  rewrite <- Vx in A1. rewrite <- Vy in A2.
  unfold finite_or_zero, val at 1.
  rewrite FloatAxioms.sub_spec, Hx, Hy.
  unfold SF64sub, SFsub, cond_Zopp. fold ez.
  set (a := fst (shl_align m1 e1 ez)) in *.
  set (b := fst (shl_align m2 e2 ez)) in *.
  assert (HD : (IZR (Z.pos a - Z.pos b) * bpow ez = val x - val y)%R).
  { rewrite minus_IZR. lra. }
  pose proof (bpow_pos ez) as Pz.
  pose proof (bpow_le (-1000) ez ltac:(unfold ez; lia)) as Lz.
  pose proof (bpow_le 500 1000 ltac:(lia)) as L5.
  pose proof (bpow_pos (-500)) as Bp.
  pose proof (bpow_pos (-52)) as B52.
  destruct (Z.pos a - Z.pos b)%Z as [|p|p] eqn:ED.
  - cbn. split; [exact I|]. rewrite Rmult_0_l in HD. rewrite <- HD.
    rewrite Rminus_diag, Rabs_R0. lra.
  - assert (Hp : (1 <= IZR (Z.pos p))%R) by (apply IZR_le; lia).
    destruct (binary_round_close false p ez) as (m & e & Hr & Hb & _).
    { rewrite HD. split; [|lra]. rewrite <- HD. nra. }
    cbn [binary_normalize]. rewrite Hr. split; [exact I|].
    cbn [val_sf]. rewrite HD in Hb. rewrite Rabs_pos_eq with (x := (val x - val y)%R).
    + replace (1 * IZR (Z.pos m) * bpow e)%R with (IZR (Z.pos m) * bpow e)%R by ring.
      exact Hb.
    + rewrite <- HD. nra.
  - assert (Hp : (1 <= IZR (Z.pos p))%R) by (apply IZR_le; lia).
    assert (HD' : (IZR (Z.pos p) * bpow ez = val y - val x)%R).
    { change (Z.neg p) with (- Z.pos p)%Z in HD. rewrite opp_IZR in HD. lra. }
    destruct (binary_round_close true p ez) as (m & e & Hr & Hb & _).
    { rewrite HD'. split; [|lra]. rewrite <- HD'. nra. }
    cbn [binary_normalize]. rewrite Hr. split; [exact I|].
    cbn [val_sf]. rewrite HD' in Hb.
    replace (val x - val y)%R with (- (val y - val x))%R by ring.
    rewrite Rabs_Ropp, Rabs_pos_eq with (x := (val y - val x)%R).
    + replace (-1 * IZR (Z.pos m) * bpow e - - (val y - val x))%R
        with (- (IZR (Z.pos m) * bpow e - (val y - val x)))%R by ring.
      rewrite Rabs_Ropp. exact Hb.
    + rewrite <- HD'. nra.
Qed.

Lemma val_abs (z : float) : val (abs z) = Rabs (val z).
Proof.
  unfold val. rewrite FloatAxioms.abs_spec.
  destruct (Prim2SF z) as [s|s| |s m e]; cbn; try (now rewrite Rabs_R0).
  pose proof (bpow_pos e) as Pe.
  assert (0 < IZR (Z.pos m))%R by (apply IZR_lt; lia).
  destruct s.
  - replace (-1 * IZR (Z.pos m) * bpow e)%R with (- (IZR (Z.pos m) * bpow e))%R by ring.
    rewrite Rabs_Ropp, Rabs_pos_eq; nra.
  - rewrite Rabs_pos_eq; nra.
Qed.

Lemma ltb_abs_of_val (z c : float) :
  finite_or_zero z -> pos_finite c -> (Rabs (val z) < val c)%R ->
  (abs z <? c) = true.
Proof.
  intros Hz (mc & ec & Hc) Hlt. rewrite <- val_abs in Hlt. revert Hlt.
  unfold val. rewrite FloatAxioms.ltb_spec, FloatAxioms.abs_spec, Hc.
  unfold finite_or_zero in Hz.
  pose proof (fun s m e => canonical_of_float z s m e) as Cz.
  destruct (Prim2SF z) as [s|s| |s m e]; try contradiction; cbn [SFabs val_sf].
  - reflexivity.
  - intros Hlt.
    pose proof (SFcompare_val m e mc ec (Cz s m e eq_refl)
                  (canonical_of_float c _ _ _ Hc)) as H.
    unfold SFltb. destruct (SFcompare _ _) as [[]|]; try reflexivity; lra.
Qed.

Lemma abs_pos_finite (x : float) : pos_finite x -> abs x = x.
Proof.
  intros (m & e & H). apply Prim2SF_inj. now rewrite FloatAxioms.abs_spec, H.
Qed.

Lemma pos_finite_nonzero (x : float) : pos_finite x -> strict_eq x 0 = false.
Proof.
  intros (m & e & H). unfold strict_eq. now rewrite FloatAxioms.eqb_spec, H.
Qed.

(** *** The numbers of the formulas *)

Local Open Scope R_scope.

Lemma bpow_opp_inv k : (0 <= k)%Z -> bpow (- k) = 1 / IZR (2 ^ k).
Proof.
  intros H. pose proof (bpow_opp_mul k) as E. rewrite <- (bpow_IZR k) in E by exact H.
  assert (0 < IZR (2 ^ k)) by (apply IZR_lt, Z.pow_pos_nonneg; lia).
  apply (Rmult_eq_reg_r (IZR (2 ^ k))); [|lra]. rewrite E. field. lra.
Qed.

Lemma whole_pos_finite (n : Z) : (0 < n < 2 ^ 53)%Z -> pos_finite (of_Z n).
Proof. intros H. apply (of_Z_val n H). Qed.

Lemma whole_val (n : Z) : (0 < n < 2 ^ 53)%Z -> val (of_Z n) = IZR n.
Proof. intros H. apply (of_Z_val n H). Qed.

Lemma val_twentieth : pos_finite 0.05%float /\ 1 / 20 <= val 0.05%float.
Proof.
  assert (H : Prim2SF 0.05%float = S754_finite false 7205759403792794 (-57))
    by reflexivity.
  split; [now exists 7205759403792794%positive, (-57)%Z|].
  rewrite (val_finite _ _ _ H).
  replace (bpow (-57)) with (1 / IZR (2 ^ 57))
    by (symmetry; apply (bpow_opp_inv 57); lia).
  change (2 ^ 57)%Z with 144115188075855872%Z. lra.
Qed.

End FloatError.

(** ** The interest formulas *)

Section InterestFacts.

Import Js Interest FloatFacts.
Local Open Scope float_scope.
Local Open Scope string_scope.

Variable Math_pow : float -> float -> float.

(** The rate the spec gives as the inverse of each scheme, before it is
    turned into a percentage: closed form for [simple], [compound_monthly]
    and [compound_annually], the 30th root for [compound_daily]. *)
Definition inverse_rate (interestScheme : string) (absInterest absPrincipal : float) : float :=
  if interestScheme =? "compound_daily" then
    (Math_pow (1 + absInterest / absPrincipal) (1 / 30) - 1) * 365
  else if interestScheme =? "compound_annually" then
    Math_pow (1 + absInterest / absPrincipal) 12 - 1
  else absInterest / absPrincipal * 12.

(** A percentage rounded to 2 decimal places. *)
Definition round2 (rate : float) : float := Math_round (rate * 100 * 100) / 100.

(** C7: [calculateAPRFromInterest] returns null exactly when the principal or
    the interest charged is 0; for nonzero inputs it returns the percentage
    of the scheme's inverse on the absolute values, rounded to 2 decimal
    places, so the signs of the inputs do not matter. *)
Theorem calculateAPRFromInterest_null_iff :
  forall (interestCharged principal : float) (interestScheme : string),
    (calculateAPRFromInterest Math_pow interestCharged principal interestScheme = None
     <-> (strict_eq principal 0 = true \/ strict_eq interestCharged 0 = true))
    /\ (strict_eq principal 0 = false -> strict_eq interestCharged 0 = false ->
        calculateAPRFromInterest Math_pow interestCharged principal interestScheme
        = Some (round2 (inverse_rate interestScheme
                          (Math_abs interestCharged) (Math_abs principal))))
    /\ calculateAPRFromInterest Math_pow interestCharged principal interestScheme
       = calculateAPRFromInterest Math_pow (Math_abs interestCharged) (Math_abs principal)
           interestScheme.
Proof.
  intros i p s.
  assert (Hsome : strict_eq p 0 = false -> strict_eq i 0 = false ->
                  calculateAPRFromInterest Math_pow i p s
                  = Some (round2 (inverse_rate s (Math_abs i) (Math_abs p)))).
  { intros Hp Hi. unfold calculateAPRFromInterest, inverse_rate, round2.
    rewrite Hp, Hi. cbn [orb].
    destruct (s =? "simple") eqn:E1.
    { apply String.eqb_eq in E1. subst s. reflexivity. }
    destruct (s =? "compound_monthly") eqn:E2.
    { apply String.eqb_eq in E2. subst s. reflexivity. }
    destruct (s =? "compound_daily") eqn:E3; [reflexivity|].
    destruct (s =? "compound_annually") eqn:E4; reflexivity. }
  split; [|split].
  - split.
    + intros H. destruct (strict_eq p 0) eqn:Hp; [now left|].
      destruct (strict_eq i 0) eqn:Hi; [now right|].
      rewrite (Hsome eq_refl eq_refl) in H. discriminate.
    + intros [H | H]; unfold calculateAPRFromInterest; rewrite H;
        [reflexivity | now rewrite orb_true_r].
  - exact Hsome.
  - unfold calculateAPRFromInterest, strict_eq, Math_abs.
    rewrite !abs_eqb_zero, !abs_abs. reflexivity.
Qed.

(** C8: the two worked values of the spec. *)
Theorem calculateInterest_worked_values :
  forall frequency : string,
    calculateInterest Math_pow (-250000) 18.5 "simple" frequency = 3854%float
    /\ calculateInterest Math_pow (-250000) 18 "compound_monthly" frequency = 3750%float.
Proof.
  intros frequency; split; vm_compute; reflexivity.
Qed.

(** C9, at the balance -1000 and the APR 15: the product is 12.5 cents;
    [simple] divides 150 by 12 and rounds 12.5 up to 13, while
    [compound_monthly] multiplies by the double nearest to 0.15/12 and rounds
    12.499999999999998 down to 12. *)
Theorem simple_and_compound_monthly_differ :
  forall frequency : string,
    calculateInterest Math_pow (-1000) 15 "simple" frequency = 13%float
    /\ calculateInterest Math_pow (-1000) 15 "compound_monthly" frequency = 12%float
    /\ (1000 * (15 / 100)) / 12 = 12.5%float
    /\ PrimFloat.ltb (1000 * ((15 / 100) / 12)) 12.5 = true.
Proof.
  intros frequency; repeat split; vm_compute; reflexivity.
Qed.

(** C1, the counterexample: on a principal of 100 cents at an APR of 1 the
    monthly interest, 100 * 0.01 / 12 cents, rounds to 0 although neither
    input is 0. *)
Lemma calculateInterest_zero_without_zero_input :
  PrimFloat.ltb 0 100 = true /\ PrimFloat.leb 0 1 = true
  /\ strict_eq 1 0 = false /\ strict_eq 100 0 = false
  /\ forall (pow : float -> float -> float) (frequency : string),
       calculateInterest pow (-100) 1 "simple" frequency = 0%float.
Proof.
  repeat split; vm_compute; reflexivity.
Qed.

End InterestFacts.

(** ** Rounding to whole cents *)

Module RoundingFacts.

Import Reals Lra.
Import Js FloatFacts FloatOrder FloatError.

Local Open Scope R_scope.

Lemma val_half : pos_finite 0.5%float /\ val 0.5%float = 1 / 2.
Proof.
  assert (H : Prim2SF 0.5%float = S754_finite false 4503599627370496 (-53))
    by reflexivity.
  split; [now exists 4503599627370496%positive, (-53)%Z|].
  rewrite (val_finite _ _ _ H).
  replace (bpow (-53)) with (1 / IZR (2 ^ 53))
    by (symmetry; apply (bpow_opp_inv 53); lia).
  change (2 ^ 53)%Z with 9007199254740992%Z. lra.
Qed.

(** The order of two positive numbers is the order of their values. *)
Lemma ltb_val (x y : float) :
  pos_finite x -> pos_finite y -> (PrimFloat.ltb x y = true <-> val x < val y).
Proof.
  intros (m1 & e1 & Hx) (m2 & e2 & Hy).
  rewrite FloatAxioms.ltb_spec, (val_finite _ _ _ Hx), (val_finite _ _ _ Hy), Hx, Hy.
  pose proof (SFcompare_val m1 e1 m2 e2 (canonical_of_float x _ _ _ Hx)
                (canonical_of_float y _ _ _ Hy)) as H.
  unfold SFltb. destruct (SFcompare _ _) as [[]|]; split; intros G;
    try discriminate; try reflexivity; try contradiction; lra.
Qed.

(** A positive value belongs to a positive finite number. *)
Lemma pos_finite_of_val (z : float) : finite_or_zero z -> 0 < val z -> pos_finite z.
Proof.
  unfold finite_or_zero, val, pos_finite.
  destruct (Prim2SF z) as [s|s| |s m e]; cbn; try contradiction; try lra.
  intros _ H. destruct s; [|now exists m, e].
  pose proof (bpow_pos e). assert (0 < IZR (Z.pos m)) by (apply IZR_lt; lia). nra.
Qed.

(** [Math.round] gives 0 exactly below one half. *)
Lemma Math_round_zero_iff (x : float) :
  sign_clear (Prim2SF x) = true ->
  (strict_eq (Math_round x) 0 = true <-> PrimFloat.ltb x 0.5 = true).
Proof.
  intros Hs. destruct val_half as (Fh & Vh).
  destruct (Prim2SF x) as [s|s| |s m e] eqn:Ex; try discriminate;
    destruct s; try discriminate.
  - unfold Math_round, strict_eq.
    rewrite Ex, FloatAxioms.eqb_spec, FloatAxioms.ltb_spec, Ex. now split.
  - unfold Math_round, strict_eq.
    rewrite Ex, FloatAxioms.eqb_spec, FloatAxioms.ltb_spec, Ex. now split.
  - assert (Fx : pos_finite x) by now exists m, e.
    pose proof (val_finite x m e Ex) as Vx.
    pose proof (canonical_of_float x _ _ _ Ex) as Hc.
    destruct (canonical_small m e Hc) as (Hm & _).
    apply IZR_lt in Hm. rewrite (bpow_IZR 53) in Hm by lia.
    assert (Hm1 : 1 <= IZR (Z.pos m)) by (apply IZR_le; lia).
    rewrite (ltb_val x _ Fx Fh), Vh.
    assert (B53 : bpow 53 = 2 * bpow 52).
    { change 53%Z with (1 + 52)%Z. now rewrite bpow_add, bpow_1. }
    pose proof (bpow_pos 52) as P52. pose proof (bpow_pos e) as Pe.
    destruct (Z_lt_le_dec e 0) as [He|He].
    + assert (Hlt : val x < bpow 52).
      { pose proof (bpow_le e (-1) ltac:(lia)) as L.
        assert (H1 : bpow (-1) * bpow 1 = 1) by apply (bpow_opp_mul 1).
        rewrite bpow_1 in H1. rewrite Vx. nra. }
      destruct (Math_round_spec x Fx Hlt) as (n & -> & Hn0 & Hn).
      assert (B52 : bpow 52 = 4503599627370496)
        by (rewrite <- (bpow_IZR 52) by lia; reflexivity).
      destruct (Z.eq_dec n 0) as [->|Hne].
      * split; [intros _; lra | intros _; reflexivity].
      * assert (Hn53 : (0 < n < 2 ^ 53)%Z).
        { split; [lia|]. apply lt_IZR.
          change (2 ^ 53)%Z with 9007199254740992%Z. lra. }
        rewrite (pos_finite_nonzero _ (whole_pos_finite n Hn53)).
        split; [discriminate|]. intros Hv. exfalso.
        assert (IZR n < 1) by lra. apply lt_IZR in H. lia.
    + unfold Math_round. rewrite Ex.
      replace (0 <=? e)%Z with true by (symmetry; apply Z.leb_le; exact He).
      rewrite (pos_finite_nonzero x Fx). split; [discriminate|].
      intros Hv. exfalso. pose proof (bpow_ge_1 e He). rewrite Vx in Hv. nra.
Qed.

End RoundingFacts.

(** ** Interest of 0 *)

Section ZeroInterest.

Import Reals Lra.
Import Js Interest FloatFacts FloatOrder FloatError RoundingFacts.
Local Open Scope string_scope.

Variable Math_pow : float -> float -> float.

(** The interest of a scheme on a principal, before [Math.round] makes it
    whole cents. *)
Definition unrounded_interest (principal apr : float) (interestScheme : string) : float :=
  let rate := (apr / 100)%float in
  if interestScheme =? "simple" then ((principal * rate) / 12)%float
  else if interestScheme =? "compound_monthly" then (principal * (rate / 12))%float
  else if interestScheme =? "compound_daily" then
    (principal * Math_pow (1 + rate / 365) 30 - principal)%float
  else if interestScheme =? "compound_annually" then
    (principal * Math_pow (1 + rate) (1 / 12) - principal)%float
  else ((principal * rate) / 12)%float.

Lemma calculateInterest_rounds (P a : float) (s f : string) :
  pos_finite P -> strict_eq a 0 = false ->
  calculateInterest Math_pow (- P) a s f = Math_round (unrounded_interest P a s).
Proof.
  intros HP Ha. unfold calculateInterest, unrounded_interest, Math_abs.
  rewrite abs_opp, (abs_pos_finite P HP), (pos_finite_nonzero P HP), Ha.
  cbn [orb]. cbv zeta.
  destruct (s =? "simple"); [reflexivity|].
  destruct (s =? "compound_monthly"); [reflexivity|].
  destruct (s =? "compound_daily"); [reflexivity|].
  destruct (s =? "compound_annually"); reflexivity.
Qed.

Lemma unrounded_interest_sign_clear (P a : float) (s : string) :
  pos_finite P -> PrimFloat.leb 0 a = true -> strict_eq a 0 = false ->
  (s = "compound_daily" ->
   PrimFloat.leb 1 (Math_pow (1 + a / 100 / 365) 30) = true) ->
  (s = "compound_annually" ->
   PrimFloat.leb 1 (Math_pow (1 + a / 100) (1 / 12)) = true) ->
  sign_clear (Prim2SF (unrounded_interest P a s)) = true.
Proof.
  intros (m & e & EP) Ha Ga Hd Hy.
  assert (Hrate : sign_clear (Prim2SF (a / 100)) = true).
  { eapply div_sign_clear; [reflexivity|]. now apply nonneg_nonzero. }
  assert (Hsimple : sign_clear (Prim2SF (P * (a / 100) / 12)) = true).
  { eapply div_sign_clear; [reflexivity|].
    eapply mul_sign_clear; [exact EP | exact Hrate]. }
  unfold unrounded_interest. cbv zeta.
  destruct (s =? "simple"); [exact Hsimple|].
  destruct (s =? "compound_monthly").
  { eapply mul_sign_clear; [exact EP|].
    eapply div_sign_clear; [reflexivity | exact Hrate]. }
  destruct (s =? "compound_daily") eqn:Ed.
  { apply String.eqb_eq in Ed. eapply growth_sign_clear; [exact EP|]. now apply Hd. }
  destruct (s =? "compound_annually") eqn:Ey; [|exact Hsimple].
  apply String.eqb_eq in Ey. eapply growth_sign_clear; [exact EP|]. now apply Hy.
Qed.

Local Open Scope R_scope.

Ltac wide := unfold near, eps in *; lra.

(** The interest before rounding of the schemes without a power: the exact
    interest up to three roundings. *)
Lemma unrounded_interest_close (P a : float) (s : string) :
  s <> "compound_daily" -> s <> "compound_annually" ->
  pos_finite P -> pos_finite a ->
  1 <= val P <= 1000000000000000 -> 1 / 1000000 <= val a <= 1000000 ->
  pos_finite (unrounded_interest P a s)
  /\ val P * val a / 1200 * (1 - 4 * eps) <= val (unrounded_interest P a s)
     <= val P * val a / 1200 * (1 + 4 * eps).
Proof.
  intros Hd Hy FP Fr RP Rr.
  assert (F100 : pos_finite 100%float) by (apply (whole_pos_finite 100); cbn; lia).
  assert (V100 : val 100%float = 100) by (apply (whole_val 100); cbn; lia).
  assert (F12 : pos_finite 12%float) by (apply (whole_pos_finite 12); cbn; lia).
  assert (V12 : val 12%float = 12) by (apply (whole_val 12); cbn; lia).
  destruct (div_near a 100%float Fr F100 ltac:(lra) ltac:(lra)) as (F1 & N1).
  rewrite V100 in N1.
  set (p := val P) in *. set (rho := val a) in *.
  set (a1 := val (a / 100)%float) in *.
  assert (B1 : 1 / 1000000000 <= a1 <= 100000) by wide.
  assert (Hsimple :
            pos_finite (P * (a / 100) / 12)%float
            /\ p * rho / 1200 * (1 - 4 * eps) <= val (P * (a / 100) / 12)%float
               <= p * rho / 1200 * (1 + 4 * eps)).
  { destruct (mul_near P (a / 100)%float FP F1 ltac:(fold p; lra) ltac:(fold a1; lra))
      as (F2 & N2).
    fold p a1 in N2. set (a2 := val (P * (a / 100))%float) in *.
    assert (T1 : p * rho / 100 * (1 - eps) <= p * a1 <= p * rho / 100 * (1 + eps)).
    { unfold near in N1. split.
      - replace (p * rho / 100 * (1 - eps)) with (p * (rho / 100 * (1 - eps))) by field.
        apply Rmult_le_compat_l; lra.
      - replace (p * rho / 100 * (1 + eps)) with (p * (rho / 100 * (1 + eps))) by field.
        apply Rmult_le_compat_l; lra. }
    assert (HT : 1 / 1000000 <= p * rho <= 1000000000000000000000) by nra.
    assert (B2 : 1 / 1000000000 <= a2 <= 100000000000000000000) by wide.
    destruct (div_near (P * (a / 100))%float 12%float F2 F12
                ltac:(fold a2; lra) ltac:(lra)) as (F3 & N3).
    rewrite V12 in N3. fold a2 in N3.
    split; [exact F3 | wide]. }
  unfold unrounded_interest. cbv zeta.
  destruct (s =? "simple"); [exact Hsimple|].
  destruct (s =? "compound_monthly").
  - destruct (div_near (a / 100)%float 12%float F1 F12 ltac:(fold a1; lra) ltac:(lra))
      as (F2 & N2).
    rewrite V12 in N2. fold a1 in N2. set (b2 := val (a / 100 / 12)%float) in *.
    assert (B2 : 1 / 100000000000 <= b2 <= 10000) by wide.
    destruct (mul_near P (a / 100 / 12)%float FP F2 ltac:(fold p; lra) ltac:(fold b2; lra))
      as (F3 & N3).
    fold p b2 in N3.
    assert (HT : 1 / 1000000 <= p * rho <= 1000000000000000000000) by nra.
    assert (T1 : p * rho / 1200 * (1 - 2 * eps) <= p * b2
                 <= p * rho / 1200 * (1 + 5 / 2 * eps)).
    { split.
      - replace (p * rho / 1200 * (1 - 2 * eps)) with (p * (rho / 1200 * (1 - 2 * eps)))
          by field.
        apply Rmult_le_compat_l; [lra | wide].
      - replace (p * rho / 1200 * (1 + 5 / 2 * eps))
          with (p * (rho / 1200 * (1 + 5 / 2 * eps))) by field.
        apply Rmult_le_compat_l; [lra | wide]. }
    split; [exact F3 | wide].
  - destruct (s =? "compound_daily") eqn:Ed; [apply String.eqb_eq in Ed; contradiction|].
    destruct (s =? "compound_annually") eqn:Ey; [apply String.eqb_eq in Ey; contradiction|].
    exact Hsimple.
Qed.

Local Open Scope float_scope.

(** C1, as the code has it: for a finite principal above 0 and an APR of at
    least 0, every scheme returns a value that is at least 0, and it returns
    0 exactly when the APR is 0 or the interest before rounding is below half
    a cent (it returns 0 on a balance of 0 as well).  For the schemes without
    a power, a principal from 1 to 10^15 cents and an APR from 10^-6 to 10^6,
    that is: 0 when principal * APR / 1200 is at most 1/2 - 10^-14, and not
    0 when it is at least 1/2 + 10^-14.  For [compound_daily] and
    [compound_annually] the power the formula takes, whose base is at least
    1, is assumed to be at least 1. *)
Theorem calculateInterest_zero_below_half_a_cent :
  forall (principal apr : float) (interestScheme frequency : string),
    PrimFloat.ltb 0 principal = true ->
    PrimFloat.ltb principal infinity = true ->
    PrimFloat.leb 0 apr = true ->
    (interestScheme = "compound_daily"%string ->
     PrimFloat.leb 1 (Math_pow (1 + apr / 100 / 365) 30) = true) ->
    (interestScheme = "compound_annually"%string ->
     PrimFloat.leb 1 (Math_pow (1 + apr / 100) (1 / 12)) = true) ->
    PrimFloat.leb 0 (calculateInterest Math_pow (- principal) apr interestScheme frequency)
    = true
    /\ (strict_eq (calculateInterest Math_pow (- principal) apr interestScheme frequency) 0
        = true
        <-> strict_eq apr 0 = true
            \/ PrimFloat.ltb (unrounded_interest principal apr interestScheme) 0.5 = true)
    /\ (strict_eq apr 0 = true ->
        calculateInterest Math_pow (- principal) apr interestScheme frequency = 0)
    /\ calculateInterest Math_pow 0 apr interestScheme frequency = 0
    /\ (interestScheme <> "compound_daily"%string ->
        interestScheme <> "compound_annually"%string ->
        (1 <= val principal <= 1000000000000000)%R ->
        (1 / 1000000 <= val apr <= 1000000)%R ->
        ((val principal * val apr / 1200 <= 1 / 2 - 1 / 100000000000000)%R ->
         strict_eq (calculateInterest Math_pow (- principal) apr interestScheme frequency) 0
         = true)
        /\ ((1 / 2 + 1 / 100000000000000 <= val principal * val apr / 1200)%R ->
            strict_eq (calculateInterest Math_pow (- principal) apr interestScheme frequency)
              0 = false)).
Proof.
  intros P a s f HP Hfin Ha Hd Hy.
  assert (FP : pos_finite P) by now apply finite_positive.
  assert (Hzero : strict_eq a 0 = true -> calculateInterest Math_pow (- P) a s f = 0).
  { intros H0. unfold calculateInterest. rewrite H0, orb_true_r. reflexivity. }
  destruct (strict_eq a 0) eqn:Ga.
  - rewrite (Hzero eq_refl).
    split; [reflexivity|]. split; [split; [now left | reflexivity]|].
    split; [reflexivity|]. split; [reflexivity|].
    intros _ _ _ Rr. exfalso. revert Ga Rr. unfold strict_eq, val.
    rewrite FloatAxioms.eqb_spec.
    destruct (Prim2SF a) as [[]|[]| |[] m e]; cbn; try discriminate; intros _; lra.
  - pose proof (unrounded_interest_sign_clear P a s FP Ha Ga Hd Hy) as Hs.
    rewrite (calculateInterest_rounds P a s f FP Ga).
    pose proof (Math_round_zero_iff _ Hs) as Hiff.
    split; [now apply sign_clear_leb, Math_round_sign_clear|].
    split.
    { rewrite Hiff. split; [now right | intros [H | H]; [discriminate | exact H]]. }
    split; [discriminate|]. split; [reflexivity|].
    intros Nd Ny RP Rr.
    assert (Fa : pos_finite a).
    { revert Ha Rr. unfold pos_finite, val. rewrite FloatAxioms.leb_spec.
      destruct (Prim2SF a) as [[]|[]| |[] m e]; cbn; try discriminate; intros _ Rr;
        try lra. now exists m, e. }
    destruct (unrounded_interest_close P a s Nd Ny FP Fa RP Rr) as (FU & BU).
    destruct val_half as (Fh & Vh).
    pose proof (ltb_val _ _ FU Fh) as Hlt. rewrite Vh in Hlt.
    assert (HT : (1 / 1000000 <= val P * val a <= 1000000000000000000000)%R) by nra.
    unfold eps in BU. split.
    + intros Hlow. apply Hiff, Hlt. lra.
    + intros Hhigh. apply Bool.not_true_is_false. intros E.
      apply Hiff, Hlt in E. lra.
Qed.

End ZeroInterest.

(** ** The round trip through the two formulas *)

(** *** From a principal of 13334 cents on *)

Section RoundTripBound.

Import Reals Lra.
Import Js Interest FloatFacts FloatError.

Local Open Scope string_scope.

Variable Math_pow : float -> float -> float.

Lemma calculateInterest_simple (P r : float) (f : string) :
  pos_finite P -> pos_finite r ->
  calculateInterest Math_pow (- P) r "simple" f = Math_round ((P * (r / 100)) / 12)%float.
Proof.
  intros HP Hr. unfold calculateInterest, Math_abs.
  rewrite abs_opp, (abs_pos_finite P HP).
  now rewrite (pos_finite_nonzero P HP), (pos_finite_nonzero r Hr).
Qed.

Lemma calculateInterest_compound_monthly (P r : float) (f : string) :
  pos_finite P -> pos_finite r ->
  calculateInterest Math_pow (- P) r "compound_monthly" f
  = Math_round (P * ((r / 100) / 12))%float.
Proof.
  intros HP Hr. unfold calculateInterest, Math_abs.
  rewrite abs_opp, (abs_pos_finite P HP).
  now rewrite (pos_finite_nonzero P HP), (pos_finite_nonzero r Hr).
Qed.

Lemma calculateAPRFromInterest_monthly (I P : float) (s : string) :
  s = "simple" \/ s = "compound_monthly" ->
  pos_finite I -> pos_finite P ->
  calculateAPRFromInterest Math_pow I P s
  = Some (Math_round (I / P * 12 * 100 * 100) / 100)%float.
Proof.
  intros Hs HI HP. unfold calculateAPRFromInterest, Math_abs.
  rewrite (abs_pos_finite P HP), (abs_pos_finite I HI).
  rewrite (pos_finite_nonzero P HP), (pos_finite_nonzero I HI).
  destruct Hs as [-> | ->]; reflexivity.
Qed.

Local Open Scope R_scope.

Ltac ranged := unfold near, eps in *; lra.

(** The interest before rounding, in both schemes: the exact interest up to
    three roundings. *)
Lemma interest_before_rounding (P r : float) (s : string) :
  s = "simple" \/ s = "compound_monthly" ->
  pos_finite P -> pos_finite r ->
  13334 <= val P <= 1000000000000000 -> 1 / 20 <= val r <= 1000 ->
  exists U : float,
    (forall f, calculateInterest Math_pow (- P) r s f = Math_round U)
    /\ pos_finite U
    /\ val P * val r / 1200 * (1 - 4 * eps) <= val U
       <= val P * val r / 1200 * (1 + 4 * eps).
Proof.
  intros Hs FP Fr RP Rr.
  assert (F100 : pos_finite 100%float) by (apply (whole_pos_finite 100); cbn; lia).
  assert (V100 : val 100%float = 100) by (apply (whole_val 100); cbn; lia).
  assert (F12 : pos_finite 12%float) by (apply (whole_pos_finite 12); cbn; lia).
  assert (V12 : val 12%float = 12) by (apply (whole_val 12); cbn; lia).
  destruct (div_near r 100%float Fr F100 ltac:(lra) ltac:(lra)) as (F1 & N1).
  rewrite V100 in N1.
  set (p := val P) in *. set (rho := val r) in *.
  set (a1 := val (r / 100)%float) in *.
  assert (HT : 666 <= p * rho <= 1000000000000000000) by nra.
  assert (B1 : 4 / 10000 <= a1 <= 11) by ranged.
  destruct Hs as [-> | ->].
  - destruct (mul_near P (r / 100)%float FP F1 ltac:(fold p; lra) ltac:(fold a1; lra))
      as (F2 & N2).
    fold p a1 in N2. set (a2 := val (P * (r / 100))%float) in *.
    assert (T1 : p * rho / 100 * (1 - eps) <= p * a1 <= p * rho / 100 * (1 + eps)).
    { unfold near in N1. split.
      - replace (p * rho / 100 * (1 - eps)) with (p * (rho / 100 * (1 - eps))) by field.
        apply Rmult_le_compat_l; lra.
      - replace (p * rho / 100 * (1 + eps)) with (p * (rho / 100 * (1 + eps))) by field.
        apply Rmult_le_compat_l; lra. }
    assert (B2 : 1 <= a2 <= 100000000000000000) by ranged.
    destruct (div_near (P * (r / 100))%float 12%float F2 F12
                ltac:(fold a2; lra) ltac:(lra)) as (F3 & N3).
    rewrite V12 in N3. fold a2 in N3.
    exists ((P * (r / 100)) / 12)%float. split; [|split; [exact F3|]].
    + intros f. now apply calculateInterest_simple.
    + ranged.
  - destruct (div_near (r / 100)%float 12%float F1 F12 ltac:(fold a1; lra) ltac:(lra))
      as (F2 & N2).
    rewrite V12 in N2. fold a1 in N2. set (b2 := val (r / 100 / 12)%float) in *.
    assert (B2 : 1 / 100000 <= b2 <= 1) by ranged.
    destruct (mul_near P (r / 100 / 12)%float FP F2 ltac:(fold p; lra) ltac:(fold b2; lra))
      as (F3 & N3).
    fold p b2 in N3.
    assert (T1 : p * rho / 1200 * (1 - 2 * eps) <= p * b2
                 <= p * rho / 1200 * (1 + 5 / 2 * eps)).
    { split.
      - replace (p * rho / 1200 * (1 - 2 * eps)) with (p * (rho / 1200 * (1 - 2 * eps)))
          by field.
        apply Rmult_le_compat_l; [lra | ranged].
      - replace (p * rho / 1200 * (1 + 5 / 2 * eps))
          with (p * (rho / 1200 * (1 + 5 / 2 * eps))) by field.
        apply Rmult_le_compat_l; [lra | ranged]. }
    exists (P * (r / 100 / 12))%float. split; [|split; [exact F3|]].
    + intros f. now apply calculateInterest_compound_monthly.
    + ranged.
Qed.

(** The interest in whole cents. *)
Lemma interest_in_cents (P r : float) (s : string) :
  s = "simple" \/ s = "compound_monthly" ->
  pos_finite P -> pos_finite r ->
  13334 <= val P <= 1000000000000000 -> 1 / 20 <= val r <= 1000 ->
  exists n : Z,
    (forall f, calculateInterest Math_pow (- P) r s f = of_Z n)
    /\ (1 <= n < 1000000000000000)%Z
    /\ val P * val r / 1200 * (1 - 4 * eps) - 1 / 2 <= IZR n
       <= val P * val r / 1200 * (1 + 4 * eps) + 1 / 2.
Proof.
  intros Hs FP Fr RP Rr.
  destruct (interest_before_rounding P r s Hs FP Fr RP Rr) as (U & HU & FU & BU).
  assert (HT : 666 <= val P * val r <= 1000000000000000000) by nra.
  assert (B52 : bpow 52 = 4503599627370496) by (rewrite <- (bpow_IZR 52) by lia; reflexivity).
  destruct (Math_round_spec U FU ltac:(unfold eps in *; lra)) as (n & Hn & Hn0 & Bn).
  exists n. split; [intros f; now rewrite HU|]. split.
  - split.
    + assert (0 < n)%Z; [|lia]. apply lt_IZR. unfold eps in *. lra.
    + apply lt_IZR. unfold eps in *. lra.
  - lra.
Qed.

(** The APR computed back from an interest of [n] cents. *)
Lemma apr_from_cents (P : float) (n : Z) (rho : R) (s : string) :
  s = "simple" \/ s = "compound_monthly" ->
  pos_finite P ->
  13334 <= val P <= 1000000000000000 -> 1 / 20 <= rho <= 1000 ->
  (1 <= n < 1000000000000000)%Z ->
  val P * rho / 1200 * (1 - 4 * eps) - 1 / 2 <= IZR n
  <= val P * rho / 1200 * (1 + 4 * eps) + 1 / 2 ->
  exists v : float,
    calculateAPRFromInterest Math_pow (of_Z n) P s = Some v
    /\ pos_finite v
    /\ Rabs (val v - rho) <= 49998 / 1000000.
Proof.
  intros Hs FP RP Rr Hn Bn.
  assert (Hn53 : (0 < n < 2 ^ 53)%Z).
  { change (2 ^ 53)%Z with 9007199254740992%Z. lia. }
  pose proof (whole_pos_finite n Hn53) as FI.
  pose proof (whole_val n Hn53) as VI.
  assert (F100 : pos_finite 100%float) by (apply (whole_pos_finite 100); cbn; lia).
  assert (V100 : val 100%float = 100) by (apply (whole_val 100); cbn; lia).
  assert (F12 : pos_finite 12%float) by (apply (whole_pos_finite 12); cbn; lia).
  assert (V12 : val 12%float = 12) by (apply (whole_val 12); cbn; lia).
  set (p := val P) in *. set (N := IZR n) in *.
  assert (HN : 1 <= N < 1000000000000000).
  { unfold N. split; [apply IZR_le | apply IZR_lt]; lia. }
  set (ip := / p).
  assert (Hip : 0 < ip <= 1 / 13334).
  { unfold ip. split; [apply Rinv_0_lt_compat; lra|].
    replace (1 / 13334) with (/ 13334) by lra.
    apply Rinv_le_contravar; lra. }
  assert (Hpip : p * ip = 1) by (unfold ip; field; lra).
  set (Q := N / p).
  assert (HQ : rho / 1200 * (1 - 4 * eps) - ip / 2 <= Q
               <= rho / 1200 * (1 + 4 * eps) + ip / 2).
  { change Q with (N * ip). split.
    - replace (rho / 1200 * (1 - 4 * eps) - ip / 2)
        with ((p * rho / 1200 * (1 - 4 * eps) - 1 / 2) * ip)
        by (unfold ip; field; lra).
      apply Rmult_le_compat_r; lra.
    - replace (rho / 1200 * (1 + 4 * eps) + ip / 2)
        with ((p * rho / 1200 * (1 + 4 * eps) + 1 / 2) * ip)
        by (unfold ip; field; lra).
      apply Rmult_le_compat_r; lra. }
  assert (HQ0 : 1 / 1000000 <= Q <= 1) by (unfold eps in *; lra).
  rewrite (calculateAPRFromInterest_monthly _ _ s Hs FI FP).
  destruct (div_near (of_Z n) P FI FP ltac:(rewrite VI; lra) ltac:(fold p; lra))
    as (F1 & N1).
  rewrite VI in N1. fold p Q in N1.
  set (q := val (of_Z n / P)%float) in *.
  assert (Bq : 1 / 10000000 <= q <= 2) by ranged.
  destruct (mul_near _ 12%float F1 F12 ltac:(fold q; lra) ltac:(lra)) as (F2 & N2).
  rewrite V12 in N2. fold q in N2.
  set (w := val (of_Z n / P * 12)%float) in *.
  assert (Bw : 1 / 1000000 <= w <= 30) by ranged.
  destruct (mul_near _ 100%float F2 F100 ltac:(fold w; lra) ltac:(lra)) as (F3 & N3).
  rewrite V100 in N3. fold w in N3.
  set (x := val (of_Z n / P * 12 * 100)%float) in *.
  assert (Bx : 1 / 10000 <= x <= 4000) by ranged.
  destruct (mul_near _ 100%float F3 F100 ltac:(fold x; lra) ltac:(lra)) as (F4 & N4).
  rewrite V100 in N4. fold x in N4.
  set (y := val (of_Z n / P * 12 * 100 * 100)%float) in *.
  assert (By : 120000 * Q * (1 - 5 * eps) <= y <= 120000 * Q * (1 + 5 * eps)) by ranged.
  assert (B52 : bpow 52 = 4503599627370496) by (rewrite <- (bpow_IZR 52) by lia; reflexivity).
  destruct (Math_round_spec _ F4 ltac:(fold y; unfold eps in *; lra)) as (k & Hk & Hk0 & Bk).
  fold y in Bk. rewrite Hk.
  assert (Hk1 : (0 < k < 2 ^ 53)%Z).
  { change (2 ^ 53)%Z with 9007199254740992%Z. split.
    - apply lt_IZR. unfold eps in *. lra.
    - apply lt_IZR. unfold eps in *. lra. }
  pose proof (whole_pos_finite k Hk1) as FK.
  pose proof (whole_val k Hk1) as VK.
  assert (HK : 1 <= IZR k) by (apply IZR_le; lia).
  destruct (div_near (of_Z k) 100%float FK F100 ltac:(rewrite VK; unfold eps in *; lra)
              ltac:(lra)) as (F5 & N5).
  rewrite VK, V100 in N5.
  exists (of_Z k / 100)%float. split; [reflexivity|]. split; [exact F5|].
  apply Rabs_le. ranged.
Qed.

Local Open Scope float_scope.

(** From a principal of 13334 cents on, and for an APR from 0.05 to 1000,
    the APR computed back from the interest is within 0.05 of the APR. *)
Lemma apr_of_interest_close (P r : float) (s f : string) :
  s = "simple"%string \/ s = "compound_monthly"%string ->
  (13334 <=? P) = true -> (P <=? 1000000000000000) = true ->
  (0.05 <=? r) = true -> (r <=? 1000) = true ->
  exists v : float,
    calculateAPRFromInterest Math_pow (calculateInterest Math_pow (- P) r s f) P s
    = Some v
    /\ (abs (v - r) <? 0.05) = true.
Proof.
  intros Hs P1 P2 R1 R2.
  assert (Flo : pos_finite 13334) by (apply (whole_pos_finite 13334); cbn; lia).
  assert (Vlo : val 13334 = 13334%R) by (apply (whole_val 13334); cbn; lia).
  assert (Fhi : pos_finite 1000000000000000)
    by (apply (whole_pos_finite 1000000000000000); cbn; lia).
  assert (Vhi : val 1000000000000000 = 1000000000000000%R)
    by (apply (whole_val 1000000000000000); cbn; lia).
  assert (Fk : pos_finite 1000) by (apply (whole_pos_finite 1000); cbn; lia).
  assert (Vk : val 1000 = 1000%R) by (apply (whole_val 1000); cbn; lia).
  destruct val_twentieth as (Ft & Vt).
  pose proof (between_pos_finite _ _ P Flo Fhi P1 P2) as FP.
  pose proof (between_pos_finite _ _ r Ft Fk R1 R2) as Fr.
  pose proof (leb_val _ _ Flo FP P1) as BP1. pose proof (leb_val _ _ FP Fhi P2) as BP2.
  pose proof (leb_val _ _ Ft Fr R1) as BR1. pose proof (leb_val _ _ Fr Fk R2) as BR2.
  rewrite Vlo in BP1. rewrite Vhi in BP2. rewrite Vk in BR2.
  assert (RP : (13334 <= val P <= 1000000000000000)%R) by lra.
  assert (Rr : (1 / 20 <= val r <= 1000)%R) by lra.
  destruct (interest_in_cents P r s Hs FP Fr RP Rr) as (n & Hn & Bn & Cn).
  destruct (apr_from_cents P n (val r) s Hs FP RP Rr Bn Cn) as (v & Hv & Fv & Dv).
  exists v. rewrite Hn. split; [exact Hv|].
  pose proof (Rabs_le_between _ _ Dv) as Dv'.
  destruct (sub_close v r Fv Fr) as (Fz & Hz).
  - apply in_range. lra.
  - apply in_range. lra.
  - apply ltb_abs_of_val; [exact Fz | exact Ft |].
    rewrite bpow_m52 in Hz. apply Rabs_le_between in Hz.
    apply Rlt_le_trans with (1 / 20)%R; [|exact Vt].
    apply Rabs_def1; lra.
Qed.

End RoundTripBound.

(** *** The schemes with a power *)

Module PowerFacts.

Import Reals Lra.
Import Js FloatFacts FloatOrder FloatError RoundingFacts.

Local Open Scope R_scope.

(** Addition of two positive numbers away from the ends of the range. *)
Lemma add_near (x y : float) :
  pos_finite x -> pos_finite y ->
  1 / 1000000000000000000000000000000 <= val x <= 1000000000000000000000000000000 ->
  1 / 1000000000000000000000000000000 <= val y <= 1000000000000000000000000000000 ->
  pos_finite (x + y)%float /\ near (val (x + y)%float) (val x + val y).
Proof.
  intros (m1 & e1 & Hx) (m2 & e2 & Hy) Rx' Ry'.
  pose proof (in_range _ Rx') as Rx. pose proof (in_range _ Ry') as Ry.
  pose proof (val_finite x m1 e1 Hx) as Vx.
  pose proof (val_finite y m2 e2 Hy) as Vy.
  pose proof (exponent_lower m1 e1 (canonical_of_float x _ _ _ Hx)
                ltac:(rewrite <- Vx; lra)) as L1.
  pose proof (exponent_lower m2 e2 (canonical_of_float y _ _ _ Hy)
                ltac:(rewrite <- Vy; lra)) as L2.
  set (ez := Z.min e1 e2).
  pose proof (shl_align_val m1 e1 ez ltac:(unfold ez; lia)) as A1.
  pose proof (shl_align_val m2 e2 ez ltac:(unfold ez; lia)) as A2.
  rewrite <- Vx in A1. rewrite <- Vy in A2.
  unfold pos_finite, val at 1.
  rewrite FloatAxioms.add_spec, Hx, Hy.
  unfold SF64add, SFadd, cond_Zopp. fold ez.
  set (a := fst (shl_align m1 e1 ez)) in *.
  set (b := fst (shl_align m2 e2 ez)) in *.
  change (Z.pos a + Z.pos b)%Z with (Z.pos (a + b)).
  assert (HD : IZR (Z.pos (a + b)) * bpow ez = val x + val y).
  { rewrite Pos2Z.inj_add, plus_IZR. lra. }
  pose proof (bpow_le 500 1000 ltac:(lia)) as L5.
  pose proof (bpow_le (-1000) (-500) ltac:(lia)) as L6.
  pose proof (bpow_pos (-1000)) as Bp.
  assert (B501 : 2 * bpow 500 <= bpow 1000).
  { rewrite <- bpow_1, <- bpow_add. apply bpow_le. lia. }
  destruct (binary_round_close false (a + b) ez) as (m & e & Hr & Hb & _).
  { rewrite HD. lra. }
  cbn [binary_normalize]. rewrite Hr. split; [now exists m, e|].
  cbn [val_sf]. rewrite HD in Hb.
  replace (1 * IZR (Z.pos m) * bpow e) with (IZR (Z.pos m) * bpow e) by ring.
  apply near_of_close; [lra | exact Hb].
Qed.

(** The difference of two positive numbers, the greater one first. *)
Lemma sub_near (x y : float) :
  pos_finite x -> pos_finite y ->
  1 / 1000000000000000000000000000000 <= val x <= 1000000000000000000000000000000 ->
  1 / 1000000000000000000000000000000 <= val y <= 1000000000000000000000000000000 ->
  val y < val x ->
  pos_finite (x - y)%float /\ near (val (x - y)%float) (val x - val y).
Proof.
  intros Fx Fy Rx Ry Hlt.
  destruct (sub_close x y Fx Fy (in_range _ Rx) (in_range _ Ry)) as (Fz & Hz).
  rewrite (Rabs_pos_eq (val x - val y)) in Hz by lra.
  assert (N : near (val (x - y)%float) (val x - val y))
    by (apply near_of_close; [lra | exact Hz]).
  split; [|exact N]. apply pos_finite_of_val; [exact Fz|].
  unfold near, eps in N. nra.
Qed.

(** *** Powers with a whole exponent *)

Lemma pow_ge_1 (a : R) (n : nat) : 1 <= a -> 1 <= a ^ n.
Proof. intros H. apply pow_R1_Rle. exact H. Qed.

(** Two numbers from 1 on are no further apart than their n-th powers
    divided by n. *)
Lemma pow_diff_lower (a b : R) (n : nat) :
  1 <= b <= a -> INR n * (a - b) <= a ^ n - b ^ n.
Proof.
  intros H. induction n as [|n IH].
  - cbn. lra.
  - rewrite S_INR. cbn [pow].
    pose proof (pow_ge_1 b n ltac:(lra)) as Hb.
    assert (H1 : a * (INR n * (a - b)) <= a * (a ^ n - b ^ n))
      by (apply Rmult_le_compat_l; lra).
    assert (H2 : 1 * (INR n * (a - b)) <= a * (INR n * (a - b))).
    { apply Rmult_le_compat_r; [|lra]. apply Rmult_le_pos; [apply pos_INR | lra]. }
    assert (H3 : 1 * (a - b) <= b ^ n * (a - b))
      by (apply Rmult_le_compat_r; lra).
    replace (a * a ^ n - b * b ^ n) with (a * (a ^ n - b ^ n) + b ^ n * (a - b)) by ring.
    lra.
Qed.

(** The n-th powers of two numbers from 0 to [M] are no further apart than
    n * M^(n-1) times the numbers. *)
Lemma pow_diff_upper (a b M : R) (n : nat) :
  0 <= b <= a -> a <= M -> a ^ S n - b ^ S n <= INR (S n) * M ^ n * (a - b).
Proof.
  intros H HM. induction n as [|n IH].
  - cbn. lra.
  - rewrite S_INR.
    assert (HMn : 0 <= M ^ n) by (apply pow_le; lra).
    assert (HMS : 0 <= M ^ S n) by (apply pow_le; lra).
    assert (Hbn : b ^ S n <= M ^ S n) by (apply pow_incr; lra).
    assert (H1 : a * (a ^ S n - b ^ S n) <= M * (INR (S n) * M ^ n * (a - b))).
    { apply Rle_trans with (a * (INR (S n) * M ^ n * (a - b))).
      - apply Rmult_le_compat_l; lra.
      - apply Rmult_le_compat_r; [|lra].
        apply Rmult_le_pos; [|lra]. apply Rmult_le_pos; [apply pos_INR | exact HMn]. }
    assert (H3 : b ^ S n * (a - b) <= M ^ S n * (a - b))
      by (apply Rmult_le_compat_r; lra).
    replace (a ^ S (S n) - b ^ S (S n))
      with (a * (a ^ S n - b ^ S n) + b ^ S n * (a - b)) by (cbn [pow]; ring).
    replace ((INR (S n) + 1) * M ^ S n * (a - b))
      with (M * (INR (S n) * M ^ n * (a - b)) + M ^ S n * (a - b)) by (cbn [pow]; ring).
    lra.
Qed.

(** A positive number whose n-th power is at least 1 is at least 1. *)
Lemma pow_ge_1_inv (a : R) (n : nat) : 0 <= a -> 1 <= a ^ S n -> 1 <= a.
Proof.
  intros H0 H. destruct (Rle_lt_dec 1 a) as [|Hlt]; [assumption|exfalso].
  assert (a ^ S n < 1); [|lra]. apply pow_lt_1_compat; [lra | lia].
Qed.

End PowerFacts.

Section RoundTripPowers.

Import Reals Lra.
Import Js Interest FloatFacts FloatError RoundingFacts PowerFacts.

Local Open Scope string_scope.

Variable Math_pow : float -> float -> float.

Local Open Scope R_scope.

(** The relative accuracy asked of [Math.pow]: 10^-13. *)
Definition eta : R := 1 / 10000000000000.

(** [Math.pow(x, y)] is the n-th power of [x], up to a relative 10^-13. *)
Definition power_accurate (x y : float) (n : nat) : Prop :=
  pos_finite (Math_pow x y)
  /\ val x ^ n * (1 - eta) <= val (Math_pow x y) <= val x ^ n * (1 + eta).

(** [Math.pow(x, y)] is the n-th root of [x]: its n-th power is [x], up to a
    relative 10^-13. *)
Definition root_accurate (x y : float) (n : nat) : Prop :=
  pos_finite (Math_pow x y)
  /\ val x * (1 - eta) <= val (Math_pow x y) ^ n <= val x * (1 + eta).

Lemma calculateInterest_compound_daily (P r : float) (f : string) :
  pos_finite P -> pos_finite r ->
  calculateInterest Math_pow (- P) r "compound_daily" f
  = Math_round (P * Math_pow (1 + r / 100 / 365) 30 - P)%float.
Proof.
  intros HP Hr.
  now rewrite (calculateInterest_rounds Math_pow P r _ f HP (pos_finite_nonzero r Hr)).
Qed.

Lemma calculateInterest_compound_annually (P r : float) (f : string) :
  pos_finite P -> pos_finite r ->
  calculateInterest Math_pow (- P) r "compound_annually" f
  = Math_round (P * Math_pow (1 + r / 100) (1 / 12) - P)%float.
Proof.
  intros HP Hr.
  now rewrite (calculateInterest_rounds Math_pow P r _ f HP (pos_finite_nonzero r Hr)).
Qed.

Lemma calculateAPRFromInterest_compound_daily (I P : float) :
  pos_finite I -> pos_finite P ->
  calculateAPRFromInterest Math_pow I P "compound_daily"
  = Some (Math_round ((Math_pow (1 + I / P) (1 / 30) - 1) * 365 * 100 * 100) / 100)%float.
Proof.
  intros HI HP. unfold calculateAPRFromInterest, Math_abs.
  rewrite (abs_pos_finite P HP), (abs_pos_finite I HI).
  rewrite (pos_finite_nonzero P HP), (pos_finite_nonzero I HI). reflexivity.
Qed.

Lemma calculateAPRFromInterest_compound_annually (I P : float) :
  pos_finite I -> pos_finite P ->
  calculateAPRFromInterest Math_pow I P "compound_annually"
  = Some (Math_round ((Math_pow (1 + I / P) 12 - 1) * 100 * 100) / 100)%float.
Proof.
  intros HI HP. unfold calculateAPRFromInterest, Math_abs.
  rewrite (abs_pos_finite P HP), (abs_pos_finite I HI).
  rewrite (pos_finite_nonzero P HP), (pos_finite_nonzero I HI). reflexivity.
Qed.

Ltac sized := unfold near, eps, eta in *; lra.

Lemma whole_numbers :
  (pos_finite 1%float /\ val 1%float = 1)
  /\ (pos_finite 12%float /\ val 12%float = 12)
  /\ (pos_finite 100%float /\ val 100%float = 100)
  /\ (pos_finite 365%float /\ val 365%float = 365).
Proof.
  repeat split;
    first [ apply (whole_pos_finite 1) | apply (whole_val 1)
          | apply (whole_pos_finite 12) | apply (whole_val 12)
          | apply (whole_pos_finite 100) | apply (whole_val 100)
          | apply (whole_pos_finite 365) | apply (whole_val 365) ];
    cbn; lia.
Qed.

(** *** Compounding by the day *)

(** The base of the daily power: 1 plus the daily rate. *)
Lemma daily_base (r : float) :
  pos_finite r -> 1 / 20 <= val r <= 100 ->
  pos_finite (1 + r / 100 / 365)%float
  /\ val r / 36500 - 2 * eps <= val (1 + r / 100 / 365)%float - 1
     <= val r / 36500 + 2 * eps.
Proof.
  intros Fr Rr.
  destruct whole_numbers as ((F1 & V1) & _ & (F100 & V100) & (F365 & V365)).
  destruct (div_near r 100%float Fr F100 ltac:(lra) ltac:(lra)) as (Fa & Na).
  rewrite V100 in Na. set (a1 := val (r / 100)%float) in *.
  assert (Ba : 4 / 10000 <= a1 <= 2) by sized.
  destruct (div_near (r / 100)%float 365%float Fa F365 ltac:(fold a1; lra) ltac:(lra))
    as (Fd & Nd).
  rewrite V365 in Nd. fold a1 in Nd. set (d := val (r / 100 / 365)%float) in *.
  assert (Bd : 1 / 1000000 <= d <= 1 / 100) by sized.
  destruct (add_near 1%float (r / 100 / 365)%float F1 Fd ltac:(lra) ltac:(fold d; lra))
    as (Fb & Nb).
  rewrite V1 in Nb. fold d in Nb.
  split; [exact Fb | sized].
Qed.


(** The interest in whole cents, against the 30th power of the base. *)
Lemma daily_interest_in_cents (P r : float) :
  pos_finite P -> pos_finite r ->
  13600 <= val P <= 1000000000000000 -> 1 / 20 <= val r <= 100 ->
  power_accurate (1 + r / 100 / 365)%float 30%float 30 ->
  exists n : Z,
    (forall f, calculateInterest Math_pow (- P) r "compound_daily" f = of_Z n)
    /\ (1 <= n < 1000000000000000)%Z
    /\ val P * val (1 + r / 100 / 365)%float ^ 30 * (1 - 2 * eta) - val P - 1 / 2
       <= IZR n
       <= val P * val (1 + r / 100 / 365)%float ^ 30 * (1 + 2 * eta) - val P + 1 / 2.
Proof.
  intros FP Fr RP Rr (FW & BW).
  destruct (daily_base r Fr Rr) as (Fb & Bb).
  set (b := (1 + r / 100 / 365)%float) in *.
  set (beta := val b) in *. set (G := beta ^ 30) in *.
  set (p := val P) in *. set (w := val (Math_pow b 30)) in *.
  assert (HG1 : 1 + 30 * (beta - 1) <= G).
  { pose proof (pow_diff_lower beta 1 30 ltac:(unfold eps in *; lra)) as H.
    rewrite pow1 in H. replace (INR 30) with 30 in H by (simpl; lra). fold G in H. lra. }
  assert (HG2 : G <= 11 / 10).
  { apply Rle_trans with ((10028 / 10000) ^ 30); [|lra].
    apply pow_incr. unfold eps in *. lra. }
  destruct (mul_near P (Math_pow b 30) FP FW ltac:(fold p; lra) ltac:(fold w; sized))
    as (Fm & Nm).
  fold p w in Nm. set (amt := val (P * Math_pow b 30)%float) in *.
  set (pG := p * G).
  assert (Hpw : pG * (1 - eta) <= p * w <= pG * (1 + eta)).
  { unfold pG. split.
    - replace (p * G * (1 - eta)) with (p * (G * (1 - eta))) by ring.
      apply Rmult_le_compat_l; lra.
    - replace (p * G * (1 + eta)) with (p * (G * (1 + eta))) by ring.
      apply Rmult_le_compat_l; lra. }
  assert (HpG : p + p * (4 / 100000) <= pG <= p * (11 / 10)).
  { unfold pG. split.
    - replace (p + p * (4 / 100000)) with (p * (1 + 4 / 100000)) by ring.
      apply Rmult_le_compat_l; unfold eps in *; lra.
    - apply Rmult_le_compat_l; lra. }
  set (pw := p * w) in *.
  destruct (sub_near (P * Math_pow b 30)%float P Fm FP
              ltac:(fold amt; sized) ltac:(fold p; lra) ltac:(fold amt p; sized))
    as (Fi & Ni).
  fold amt p in Ni. set (int := val (P * Math_pow b 30 - P)%float) in *.
  assert (B52 : bpow 52 = 4503599627370496)
    by (rewrite <- (bpow_IZR 52) by lia; reflexivity).
  destruct (Math_round_spec _ Fi ltac:(fold int; sized)) as (n & Hn & Hn0 & Bn).
  fold int in Bn.
  exists n. split.
  { intros f. rewrite (calculateInterest_compound_daily P r f FP Fr). exact Hn. }
  split.
  - split.
    + assert (0 < n)%Z; [|lia]. apply lt_IZR. sized.
    + apply lt_IZR. sized.
  - fold pG. sized.
Qed.


Lemma val_pos (x : float) : pos_finite x -> 0 < val x.
Proof.
  intros (m & e & H). rewrite (val_finite _ _ _ H).
  pose proof (bpow_pos e). assert (0 < IZR (Z.pos m)) by (apply IZR_lt; lia). nra.
Qed.

(** The APR computed back from an interest of [n] cents. *)
Lemma daily_apr_from_cents (P : float) (n : Z) (beta rho : R) :
  pos_finite P ->
  13600 <= val P <= 1000000000000000 -> 1 / 20 <= rho <= 100 ->
  rho / 36500 - 2 * eps <= beta - 1 <= rho / 36500 + 2 * eps ->
  (1 <= n < 1000000000000000)%Z ->
  val P * beta ^ 30 * (1 - 2 * eta) - val P - 1 / 2 <= IZR n
  <= val P * beta ^ 30 * (1 + 2 * eta) - val P + 1 / 2 ->
  root_accurate (1 + of_Z n / P)%float (1 / 30)%float 30 ->
  exists v : float,
    calculateAPRFromInterest Math_pow (of_Z n) P "compound_daily" = Some v
    /\ pos_finite v
    /\ Rabs (val v - rho) <= 49998 / 1000000.
Proof.
  intros FP RP Rr Bb Hn Bn (FT & BT).
  assert (Hn53 : (0 < n < 2 ^ 53)%Z).
  { change (2 ^ 53)%Z with 9007199254740992%Z. lia. }
  pose proof (whole_pos_finite n Hn53) as FI.
  pose proof (whole_val n Hn53) as VI.
  destruct whole_numbers as ((F1 & V1) & _ & (F100 & V100) & (F365 & V365)).
  set (p := val P) in *. set (N := IZR n) in *. set (G := beta ^ 30) in *.
  assert (HN : 1 <= N < 1000000000000000).
  { unfold N. split; [apply IZR_le | apply IZR_lt]; lia. }
  set (ip := / p).
  assert (Hip : 0 < ip <= 1 / 13600).
  { unfold ip. split; [apply Rinv_0_lt_compat; lra|].
    replace (1 / 13600) with (/ 13600) by lra.
    apply Rinv_le_contravar; lra. }
  assert (HG1 : 1 + 30 * (beta - 1) <= G).
  { pose proof (pow_diff_lower beta 1 30 ltac:(unfold eps in *; lra)) as H.
    rewrite pow1 in H. replace (INR 30) with 30 in H by (simpl; lra). fold G in H. lra. }
  assert (HG2 : G <= 11 / 10).
  { apply Rle_trans with ((10028 / 10000) ^ 30); [|lra].
    apply pow_incr. unfold eps in *. lra. }
  set (Q := N / p).
  assert (HQ : G * (1 - 2 * eta) - 1 - ip / 2 <= Q <= G * (1 + 2 * eta) - 1 + ip / 2).
  { change Q with (N * ip). split.
    - replace (G * (1 - 2 * eta) - 1 - ip / 2)
        with ((p * G * (1 - 2 * eta) - p - 1 / 2) * ip)
        by (unfold ip; field; lra).
      apply Rmult_le_compat_r; lra.
    - replace (G * (1 + 2 * eta) - 1 + ip / 2)
        with ((p * G * (1 + 2 * eta) - p + 1 / 2) * ip)
        by (unfold ip; field; lra).
      apply Rmult_le_compat_r; lra. }
  assert (HQ0 : 4 / 1000000 <= Q <= 2 / 10) by sized.
  rewrite (calculateAPRFromInterest_compound_daily _ _ FI FP).
  destruct (div_near (of_Z n) P FI FP ltac:(rewrite VI; lra) ltac:(fold p; lra))
    as (Fq & Nq).
  rewrite VI in Nq. fold p Q in Nq.
  set (q := val (of_Z n / P)%float) in *.
  destruct (add_near 1%float (of_Z n / P)%float F1 Fq ltac:(lra) ltac:(fold q; sized))
    as (Fr & Nr).
  rewrite V1 in Nr. fold q in Nr.
  set (ratio := (1 + of_Z n / P)%float) in *.
  set (R := val ratio) in *.
  set (T := Math_pow ratio (1 / 30)%float) in *.
  set (tau := val T) in *. set (Th := tau ^ 30) in *.
  set (h := ip * (50001 / 100000) + 1 / 1000000000000).
  assert (Hh : G - h <= Th <= G + h) by (unfold h; sized).
  assert (Hb1 : 1 <= beta) by (unfold eps in *; lra).
  assert (Ht1 : 1 <= tau).
  { apply (pow_ge_1_inv tau 29); [apply Rlt_le, (val_pos T FT)|].
    fold Th. unfold h in Hh. unfold eps in *. lra. }
  assert (Htau : beta - h / 30 <= tau <= beta + h / 30).
  { destruct (Rle_lt_dec beta tau) as [Hle | Hlt].
    - pose proof (pow_diff_lower tau beta 30 ltac:(lra)) as H.
      replace (INR 30) with 30 in H by (simpl; lra). fold Th G in H.
      unfold h in *. lra.
    - pose proof (pow_diff_lower beta tau 30 ltac:(lra)) as H.
      replace (INR 30) with 30 in H by (simpl; lra). fold Th G in H.
      unfold h in *. lra. }
  assert (Bt : 1 + 14 / 100000000 <= tau <= 1 + 1 / 100)
    by (unfold h in *; unfold eps in *; lra).
  destruct (sub_near T 1%float FT F1 ltac:(fold tau; lra) ltac:(lra)
              ltac:(fold tau; lra)) as (Fd & Nd).
  rewrite V1 in Nd. fold tau in Nd.
  set (dr := val (T - 1)%float) in *.
  assert (Bd : 1 / 10000000 <= dr <= 2 / 100) by sized.
  destruct (mul_near _ 365%float Fd F365 ltac:(fold dr; lra) ltac:(lra)) as (F2 & N2).
  rewrite V365 in N2. fold dr in N2.
  set (w := val ((T - 1) * 365)%float) in *.
  assert (Bw : 1 / 100000 <= w <= 10) by sized.
  destruct (mul_near _ 100%float F2 F100 ltac:(fold w; lra) ltac:(lra)) as (F3 & N3).
  rewrite V100 in N3. fold w in N3.
  set (x := val ((T - 1) * 365 * 100)%float) in *.
  assert (Bx : 1 / 1000 <= x <= 1000) by sized.
  destruct (mul_near _ 100%float F3 F100 ltac:(fold x; lra) ltac:(lra)) as (F4 & N4).
  rewrite V100 in N4. fold x in N4.
  set (y := val ((T - 1) * 365 * 100 * 100)%float) in *.
  assert (By : 3650000 * (tau - 1) * (1 - 5 * eps) <= y
               <= 3650000 * (tau - 1) * (1 + 5 * eps)) by sized.
  assert (B52 : bpow 52 = 4503599627370496)
    by (rewrite <- (bpow_IZR 52) by lia; reflexivity).
  destruct (Math_round_spec _ F4 ltac:(fold y; sized)) as (k & Hk & Hk0 & Bk).
  fold y in Bk. rewrite Hk.
  assert (Hk1 : (0 < k < 2 ^ 53)%Z).
  { change (2 ^ 53)%Z with 9007199254740992%Z. split.
    - apply lt_IZR. unfold h in *. sized.
    - apply lt_IZR. sized. }
  pose proof (whole_pos_finite k Hk1) as FK.
  pose proof (whole_val k Hk1) as VK.
  assert (HK : 1 <= IZR k) by (apply IZR_le; lia).
  destruct (div_near (of_Z k) 100%float FK F100 ltac:(rewrite VK; sized) ltac:(lra))
    as (F5 & N5).
  rewrite VK, V100 in N5.
  exists (of_Z k / 100)%float. split; [reflexivity|]. split; [exact F5|].
  apply Rabs_le. unfold h in *. sized.
Qed.


(** *** Compounding by the year *)

(** The base of the yearly root: 1 plus the rate. *)
Lemma annual_base (r : float) :
  pos_finite r -> 1 / 20 <= val r <= 100 ->
  pos_finite (1 + r / 100)%float
  /\ val r / 100 - 4 * eps <= val (1 + r / 100)%float - 1 <= val r / 100 + 4 * eps.
Proof.
  intros Fr Rr.
  destruct whole_numbers as ((F1 & V1) & _ & (F100 & V100) & _).
  destruct (div_near r 100%float Fr F100 ltac:(lra) ltac:(lra)) as (Fa & Na).
  rewrite V100 in Na. set (a1 := val (r / 100)%float) in *.
  assert (Ba : 4 / 10000 <= a1 <= 2) by sized.
  destruct (add_near 1%float (r / 100)%float F1 Fa ltac:(lra) ltac:(fold a1; lra))
    as (Fb & Nb).
  rewrite V1 in Nb. fold a1 in Nb.
  split; [exact Fb | sized].
Qed.

(** A 12th root of a number from 1.00049 to 2.0001. *)
Lemma twelfth_root_range (omega beta : R) :
  0 <= omega ->
  100049 / 100000 <= beta <= 20001 / 10000 ->
  beta * (1 - eta) <= omega ^ 12 <= beta * (1 + eta) ->
  1 + 2 / 100000 <= omega <= 106 / 100.
Proof.
  intros H0 Hb Hw.
  assert (H1 : 1 <= omega).
  { apply (pow_ge_1_inv omega 11); [exact H0|]. unfold eta in *. lra. }
  assert (H2 : omega <= 106 / 100).
  { destruct (Rle_lt_dec omega (106 / 100)) as [|Hlt]; [assumption|exfalso].
    assert (H : (106 / 100) ^ 12 <= omega ^ 12) by (apply pow_incr; lra).
    assert (2 + 1 / 100 <= (106 / 100) ^ 12) by lra.
    unfold eta in *. lra. }
  split; [|exact H2].
  pose proof (pow_diff_upper omega 1 (106 / 100) 11 ltac:(lra) H2) as H.
  rewrite pow1 in H. replace (INR 12) with 12 in H by (simpl; lra).
  assert (Hc : 12 * (106 / 100) ^ 11 * (omega - 1) <= 23 * (omega - 1)).
  { apply Rmult_le_compat_r; lra. }
  unfold eta in *. lra.
Qed.

(** The interest in whole cents, against the 12th root of the base. *)
Lemma annual_interest_in_cents (P r : float) :
  pos_finite P -> pos_finite r ->
  26000 <= val P <= 1000000000000000 -> 1 / 20 <= val r <= 100 ->
  root_accurate (1 + r / 100)%float (1 / 12)%float 12 ->
  exists n : Z,
    (forall f, calculateInterest Math_pow (- P) r "compound_annually" f = of_Z n)
    /\ (1 <= n < 1000000000000000)%Z
    /\ val P * val (Math_pow (1 + r / 100) (1 / 12))%float * (1 - 3 * eps) - val P - 1 / 2
       <= IZR n
       <= val P * val (Math_pow (1 + r / 100) (1 / 12))%float * (1 + 3 * eps) - val P
          + 1 / 2.
Proof.
  intros FP Fr RP Rr (FW & BW).
  destruct (annual_base r Fr Rr) as (Fb & Bb).
  set (b := (1 + r / 100)%float) in *.
  set (beta := val b) in *.
  set (W := Math_pow b (1 / 12)%float) in *.
  set (p := val P) in *. set (omega := val W) in *.
  destruct (twelfth_root_range omega beta (Rlt_le _ _ (val_pos W FW))
              ltac:(unfold eps in *; lra) BW) as (Hw1 & Hw2).
  destruct (mul_near P W FP FW ltac:(fold p; lra) ltac:(fold omega; lra)) as (Fm & Nm).
  fold p omega in Nm. set (amt := val (P * W)%float) in *.
  assert (Hpw : p + p * (2 / 100000) <= p * omega <= p * (106 / 100)).
  { split.
    - replace (p + p * (2 / 100000)) with (p * (1 + 2 / 100000)) by ring.
      apply Rmult_le_compat_l; lra.
    - apply Rmult_le_compat_l; lra. }
  set (pw := p * omega) in *.
  destruct (sub_near (P * W)%float P Fm FP
              ltac:(fold amt; sized) ltac:(fold p; lra) ltac:(fold amt p; sized))
    as (Fi & Ni).
  fold amt p in Ni. set (int := val (P * W - P)%float) in *.
  assert (B52 : bpow 52 = 4503599627370496)
    by (rewrite <- (bpow_IZR 52) by lia; reflexivity).
  destruct (Math_round_spec _ Fi ltac:(fold int; sized)) as (n & Hn & Hn0 & Bn).
  fold int in Bn.
  exists n. split.
  { intros f. rewrite (calculateInterest_compound_annually P r f FP Fr). exact Hn. }
  split.
  - split.
    + assert (0 < n)%Z; [|lia]. apply lt_IZR. sized.
    + apply lt_IZR. sized.
  - sized.
Qed.

(** The APR computed back from an interest of [n] cents. *)
Lemma annual_apr_from_cents (P : float) (n : Z) (omega beta rho : R) :
  pos_finite P ->
  26000 <= val P <= 1000000000000000 -> 1 / 20 <= rho <= 100 ->
  rho / 100 - 4 * eps <= beta - 1 <= rho / 100 + 4 * eps ->
  0 <= omega -> beta * (1 - eta) <= omega ^ 12 <= beta * (1 + eta) ->
  (1 <= n < 1000000000000000)%Z ->
  val P * omega * (1 - 3 * eps) - val P - 1 / 2 <= IZR n
  <= val P * omega * (1 + 3 * eps) - val P + 1 / 2 ->
  power_accurate (1 + of_Z n / P)%float 12%float 12 ->
  exists v : float,
    calculateAPRFromInterest Math_pow (of_Z n) P "compound_annually" = Some v
    /\ pos_finite v
    /\ Rabs (val v - rho) <= 49998 / 1000000.
Proof.
  intros FP RP Rr Bb Hw0 Bw Hn Bn (FV & BV).
  assert (Hn53 : (0 < n < 2 ^ 53)%Z).
  { change (2 ^ 53)%Z with 9007199254740992%Z. lia. }
  pose proof (whole_pos_finite n Hn53) as FI.
  pose proof (whole_val n Hn53) as VI.
  destruct whole_numbers as ((F1 & V1) & _ & (F100 & V100) & _).
  destruct (twelfth_root_range omega beta Hw0 ltac:(unfold eps in *; lra) Bw)
    as (Hw1 & Hw2).
  set (p := val P) in *. set (N := IZR n) in *. set (Om := omega ^ 12) in *.
  assert (HN : 1 <= N < 1000000000000000).
  { unfold N. split; [apply IZR_le | apply IZR_lt]; lia. }
  set (ip := / p).
  assert (Hip : 0 < ip <= 1 / 26000).
  { unfold ip. split; [apply Rinv_0_lt_compat; lra|].
    replace (1 / 26000) with (/ 26000) by lra.
    apply Rinv_le_contravar; lra. }
  assert (Hip9 : 1 / 1000000000000000 <= ip).
  { unfold ip. replace (1 / 1000000000000000) with (/ 1000000000000000) by lra.
    apply Rinv_le_contravar; lra. }
  set (Q := N / p).
  assert (HQ : omega * (1 - 3 * eps) - 1 - ip / 2 <= Q
               <= omega * (1 + 3 * eps) - 1 + ip / 2).
  { change Q with (N * ip). split.
    - replace (omega * (1 - 3 * eps) - 1 - ip / 2)
        with ((p * omega * (1 - 3 * eps) - p - 1 / 2) * ip)
        by (unfold ip; field; lra).
      apply Rmult_le_compat_r; lra.
    - replace (omega * (1 + 3 * eps) - 1 + ip / 2)
        with ((p * omega * (1 + 3 * eps) - p + 1 / 2) * ip)
        by (unfold ip; field; lra).
      apply Rmult_le_compat_r; lra. }
  assert (HQ1 : ip <= Q).
  { change Q with (N * ip). replace ip with (1 * ip) at 1 by ring.
    apply Rmult_le_compat_r; lra. }
  assert (HQ0 : 1 / 1000000000000000 <= Q <= 1 / 10) by sized.
  rewrite (calculateAPRFromInterest_compound_annually _ _ FI FP).
  destruct (div_near (of_Z n) P FI FP ltac:(rewrite VI; lra) ltac:(fold p; lra))
    as (Fq & Nq).
  rewrite VI in Nq. fold p Q in Nq.
  set (q := val (of_Z n / P)%float) in *.
  destruct (add_near 1%float (of_Z n / P)%float F1 Fq ltac:(lra) ltac:(fold q; sized))
    as (Fr & Nr).
  rewrite V1 in Nr. fold q in Nr.
  set (ratio := (1 + of_Z n / P)%float) in *.
  set (R := val ratio) in *.
  set (V := Math_pow ratio 12%float) in *.
  set (g := ip * (50001 / 100000) + 1 / 100000000000000).
  assert (Hg : omega - g <= R <= omega + g) by (unfold g; sized).
  assert (HR : 1 <= R <= 1061 / 1000) by (unfold g in *; sized).
  set (Rp := R ^ 12) in *.
  assert (Hc : 12 * (1061 / 1000) ^ 11 <= 2304 / 100) by lra.
  assert (HRp : Om - 2304 / 100 * g <= Rp <= Om + 2304 / 100 * g).
  { assert (Hg0 : 0 <= g) by (unfold g; lra).
    destruct (Rle_lt_dec omega R) as [Hle | Hlt].
    - pose proof (pow_diff_upper R omega (1061 / 1000) 11 ltac:(lra) ltac:(lra)) as H.
      replace (INR 12) with 12 in H by (simpl; lra). fold Rp Om in H.
      assert (H' : 12 * (1061 / 1000) ^ 11 * (R - omega) <= 2304 / 100 * g).
      { apply Rle_trans with (2304 / 100 * (R - omega)).
        - apply Rmult_le_compat_r; lra.
        - apply Rmult_le_compat_l; lra. }
      assert (Om <= Rp) by (apply pow_incr; lra).
      lra.
    - pose proof (pow_diff_upper omega R (1061 / 1000) 11 ltac:(lra) ltac:(lra)) as H.
      replace (INR 12) with 12 in H by (simpl; lra). fold Rp Om in H.
      assert (H' : 12 * (1061 / 1000) ^ 11 * (omega - R) <= 2304 / 100 * g).
      { apply Rle_trans with (2304 / 100 * (omega - R)).
        - apply Rmult_le_compat_r; lra.
        - apply Rmult_le_compat_l; lra. }
      assert (Rp <= Om) by (apply pow_incr; lra).
      lra. }
  fold Rp in BV. set (vv := val V) in *.
  assert (Bv : rho / 100 - (2304 / 100 * g + 1 / 100000000000)
               <= vv - 1 <= rho / 100 + (2304 / 100 * g + 1 / 100000000000))
    by (unfold g in *; sized).
  assert (Bv1 : 1 + 5 / 100000 <= vv <= 3) by (unfold g in *; sized).
  destruct (sub_near V 1%float FV F1 ltac:(fold vv; lra) ltac:(lra)
              ltac:(fold vv; lra)) as (Fd & Nd).
  rewrite V1 in Nd. fold vv in Nd.
  set (dr := val (V - 1)%float) in *.
  assert (Bd : 4 / 100000 <= dr <= 3) by sized.
  destruct (mul_near _ 100%float Fd F100 ltac:(fold dr; lra) ltac:(lra)) as (F3 & N3).
  rewrite V100 in N3. fold dr in N3.
  set (x := val ((V - 1) * 100)%float) in *.
  assert (Bx : 1 / 1000 <= x <= 1000) by sized.
  destruct (mul_near _ 100%float F3 F100 ltac:(fold x; lra) ltac:(lra)) as (F4 & N4).
  rewrite V100 in N4. fold x in N4.
  set (y := val ((V - 1) * 100 * 100)%float) in *.
  assert (By : 10000 * (vv - 1) * (1 - 4 * eps) <= y
               <= 10000 * (vv - 1) * (1 + 4 * eps)) by sized.
  assert (B52 : bpow 52 = 4503599627370496)
    by (rewrite <- (bpow_IZR 52) by lia; reflexivity).
  destruct (Math_round_spec _ F4 ltac:(fold y; sized)) as (k & Hk & Hk0 & Bk).
  fold y in Bk. rewrite Hk.
  assert (Hk1 : (0 < k < 2 ^ 53)%Z).
  { change (2 ^ 53)%Z with 9007199254740992%Z. split.
    - apply lt_IZR. unfold g in *. sized.
    - apply lt_IZR. sized. }
  pose proof (whole_pos_finite k Hk1) as FK.
  pose proof (whole_val k Hk1) as VK.
  assert (HK : 1 <= IZR k) by (apply IZR_le; lia).
  destruct (div_near (of_Z k) 100%float FK F100 ltac:(rewrite VK; sized) ltac:(lra))
    as (F5 & N5).
  rewrite VK, V100 in N5.
  exists (of_Z k / 100)%float. split; [reflexivity|]. split; [exact F5|].
  apply Rabs_le. unfold g in *. sized.
Qed.

End RoundTripPowers.

Section RoundTripClose.

Import Reals Lra.
Import Js Interest FloatFacts FloatError RoundingFacts PowerFacts.

Local Open Scope string_scope.

Variable Math_pow : float -> float -> float.

Local Open Scope float_scope.

(** Two numbers whose values are less than 0.049998 apart are equal within
    1 decimal place. *)
Lemma close_within_one_decimal (v r : float) :
  pos_finite v -> pos_finite r -> (1 / 20 <= val r <= 1000)%R ->
  (Rabs (val v - val r) <= 49998 / 1000000)%R ->
  (abs (v - r) <? 0.05) = true.
Proof.
  intros Fv Fr Rr Dv.
  destruct val_twentieth as (Ft & Vt).
  pose proof (Rabs_le_between _ _ Dv) as Dv'.
  destruct (sub_close v r Fv Fr) as (Fz & Hz).
  - apply in_range. lra.
  - apply in_range. lra.
  - apply ltb_abs_of_val; [exact Fz | exact Ft |].
    rewrite bpow_m52 in Hz. apply Rabs_le_between in Hz.
    apply Rlt_le_trans with (1 / 20)%R; [|exact Vt].
    apply Rabs_def1; lra.
Qed.

(** The bounds of a principal and of an APR, as numbers. *)
Lemma principal_range (lo hi : Z) (P : float) :
  (0 < lo < 2 ^ 53)%Z -> (0 < hi < 2 ^ 53)%Z ->
  (of_Z lo <=? P) = true -> (P <=? of_Z hi) = true ->
  pos_finite P /\ (IZR lo <= val P <= IZR hi)%R.
Proof.
  intros Hlo Hhi P1 P2.
  pose proof (whole_pos_finite lo Hlo) as Flo. pose proof (whole_val lo Hlo) as Vlo.
  pose proof (whole_pos_finite hi Hhi) as Fhi. pose proof (whole_val hi Hhi) as Vhi.
  pose proof (between_pos_finite _ _ P Flo Fhi P1 P2) as FP.
  pose proof (leb_val _ _ Flo FP P1) as B1. pose proof (leb_val _ _ FP Fhi P2) as B2.
  rewrite Vlo in B1. rewrite Vhi in B2. now split.
Qed.

Lemma apr_range (hi : Z) (r : float) :
  (0 < hi < 2 ^ 53)%Z ->
  (0.05 <=? r) = true -> (r <=? of_Z hi) = true ->
  pos_finite r /\ (1 / 20 <= val r <= IZR hi)%R.
Proof.
  intros Hhi R1 R2.
  destruct val_twentieth as (Ft & Vt).
  pose proof (whole_pos_finite hi Hhi) as Fhi. pose proof (whole_val hi Hhi) as Vhi.
  pose proof (between_pos_finite _ _ r Ft Fhi R1 R2) as Fr.
  pose proof (leb_val _ _ Ft Fr R1) as B1. pose proof (leb_val _ _ Fr Fhi R2) as B2.
  rewrite Vhi in B2. split; [exact Fr | lra].
Qed.

(** Compounding by the day, from a principal of 13600 cents on: the APR
    computed back from the interest is within 0.05 of the APR. *)
Lemma daily_apr_of_interest_close (P r : float) (f : string) :
  (13600 <=? P) = true -> (P <=? 1000000000000000) = true ->
  (0.05 <=? r) = true -> (r <=? 100) = true ->
  power_accurate Math_pow (1 + r / 100 / 365) 30 30 ->
  root_accurate Math_pow
    (1 + calculateInterest Math_pow (- P) r "compound_daily" f / P) (1 / 30) 30 ->
  exists v : float,
    calculateAPRFromInterest Math_pow
      (calculateInterest Math_pow (- P) r "compound_daily" f) P "compound_daily"
    = Some v
    /\ (abs (v - r) <? 0.05) = true.
Proof.
  intros P1 P2 R1 R2 Hpow Hroot.
  destruct (principal_range 13600 1000000000000000 P ltac:(cbn; lia) ltac:(cbn; lia) P1 P2)
    as (FP & RP).
  destruct (apr_range 100 r ltac:(cbn; lia) R1 R2) as (Fr & Rr).
  destruct (daily_interest_in_cents Math_pow P r FP Fr RP Rr Hpow) as (n & Hn & Bn & Cn).
  destruct (daily_base r Fr Rr) as (_ & Bb).
  rewrite Hn in Hroot |- *.
  destruct (daily_apr_from_cents Math_pow P n _ (val r) FP RP Rr Bb Bn Cn Hroot)
    as (v & Hv & Fv & Dv).
  exists v. split; [exact Hv|].
  apply close_within_one_decimal; [exact Fv | exact Fr | lra | exact Dv].
Qed.

(** Compounding by the year, from a principal of 26000 cents on. *)
Lemma annual_apr_of_interest_close (P r : float) (f : string) :
  (26000 <=? P) = true -> (P <=? 1000000000000000) = true ->
  (0.05 <=? r) = true -> (r <=? 100) = true ->
  root_accurate Math_pow (1 + r / 100) (1 / 12) 12 ->
  power_accurate Math_pow
    (1 + calculateInterest Math_pow (- P) r "compound_annually" f / P) 12 12 ->
  exists v : float,
    calculateAPRFromInterest Math_pow
      (calculateInterest Math_pow (- P) r "compound_annually" f) P "compound_annually"
    = Some v
    /\ (abs (v - r) <? 0.05) = true.
Proof.
  intros P1 P2 R1 R2 Hroot Hpow.
  destruct (principal_range 26000 1000000000000000 P ltac:(cbn; lia) ltac:(cbn; lia) P1 P2)
    as (FP & RP).
  destruct (apr_range 100 r ltac:(cbn; lia) R1 R2) as (Fr & Rr).
  destruct (annual_interest_in_cents Math_pow P r FP Fr RP Rr Hroot)
    as (n & Hn & Bn & Cn).
  destruct (annual_base r Fr Rr) as (_ & Bb).
  rewrite Hn in Hpow |- *.
  destruct Hroot as (FW & BW).
  destruct (annual_apr_from_cents Math_pow P n _ _ (val r) FP RP Rr Bb
              (Rlt_le _ _ (val_pos _ FW)) BW Bn Cn Hpow)
    as (v & Hv & Fv & Dv).
  exists v. split; [exact Hv|].
  apply close_within_one_decimal; [exact Fv | exact Fr | lra | exact Dv].
Qed.

End RoundTripClose.

Section RoundTripFacts.

Import Js Interest Ranges.
Local Open Scope string_scope.

Variable Math_pow : float -> float -> float.

(** [calculateAPRFromInterest(calculateInterest(-P, r, s, _), P, s)]. *)
Definition round_trip (principal apr : float) (interestScheme frequency : string) :
    option float :=
  calculateAPRFromInterest Math_pow
    (calculateInterest Math_pow (- principal) apr interestScheme frequency)
    principal interestScheme.

(** Equal within 1 decimal place: the difference is below 0.05. *)
Definition within_one_decimal (a b : float) : bool :=
  PrimFloat.ltb (abs (a - b)) 0.05.

(** C2, the counterexample: on a principal of 1000 cents at an APR of 10 the
    interest, 8.33 cents, is posted as 8 cents, and the APR computed back is
    9.6, which is 0.4 away from 10. *)
Lemma round_trip_off_at_small_principal :
  PrimFloat.ltb 0 1000 = true
  /\ (forall (pow : float -> float -> float) (frequency : string),
        calculateInterest pow (-1000) 10 "simple" frequency = 8%float
        /\ calculateAPRFromInterest pow
             (calculateInterest pow (-1000) 10 "simple" frequency) 1000 "simple"
           = Some 9.6%float)
  /\ within_one_decimal 9.6 10 = false.
Proof.
  repeat split; vm_compute; reflexivity.
Qed.

(** C2, as the code has it: the round trip returns a number within 1
    decimal place of the APR
    - for [simple] and [compound_monthly], for every principal from 13334
      cents to 10^15 cents and every APR from 0.05 to 1000;
    - for [compound_daily], for every principal from 13600 cents to 10^15
      cents and every APR from 0.05 to 100;
    - for [compound_annually], for every principal from 26000 cents to 10^15
      cents and every APR from 0.05 to 100;
    for the last two provided the two powers the round trip takes are
    accurate up to a relative 10^-13: the power of the interest formula and
    the power of the APR formula, one of them a 30th (12th) power and the
    other a 30th (12th) root. *)
Theorem round_trip_within_one_decimal :
  (forall (principal apr : float) (interestScheme frequency : string),
      interestScheme = "simple" \/ interestScheme = "compound_monthly" ->
      PrimFloat.leb 13334 principal = true ->
      PrimFloat.leb principal 1000000000000000 = true ->
      PrimFloat.leb 0.05 apr = true ->
      PrimFloat.leb apr 1000 = true ->
      exists v : float,
        round_trip principal apr interestScheme frequency = Some v
        /\ within_one_decimal v apr = true)
  /\ (forall (principal apr : float) (frequency : string),
        PrimFloat.leb 13600 principal = true ->
        PrimFloat.leb principal 1000000000000000 = true ->
        PrimFloat.leb 0.05 apr = true ->
        PrimFloat.leb apr 100 = true ->
        power_accurate Math_pow (1 + apr / 100 / 365)%float 30%float 30 ->
        root_accurate Math_pow
          (1 + calculateInterest Math_pow (- principal) apr "compound_daily" frequency
               / principal)%float
          (1 / 30)%float 30 ->
        exists v : float,
          round_trip principal apr "compound_daily" frequency = Some v
          /\ within_one_decimal v apr = true)
  /\ (forall (principal apr : float) (frequency : string),
        PrimFloat.leb 26000 principal = true ->
        PrimFloat.leb principal 1000000000000000 = true ->
        PrimFloat.leb 0.05 apr = true ->
        PrimFloat.leb apr 100 = true ->
        root_accurate Math_pow (1 + apr / 100)%float (1 / 12)%float 12 ->
        power_accurate Math_pow
          (1 + calculateInterest Math_pow (- principal) apr "compound_annually" frequency
               / principal)%float
          12%float 12 ->
        exists v : float,
          round_trip principal apr "compound_annually" frequency = Some v
          /\ within_one_decimal v apr = true).
Proof.
  split; [|split].
  - intros P r s f Hs P1 P2 R1 R2.
    exact (apr_of_interest_close Math_pow P r s f Hs P1 P2 R1 R2).
  - intros P r f P1 P2 R1 R2 Hpow Hroot.
    exact (daily_apr_of_interest_close Math_pow P r f P1 P2 R1 R2 Hpow Hroot).
  - intros P r f P1 P2 R1 R2 Hroot Hpow.
    exact (annual_apr_of_interest_close Math_pow P r f P1 P2 R1 R2 Hroot Hpow).
Qed.

End RoundTripFacts.

(** ** The interest poster *)

Section PosterFacts.

Import Js Interest Ledger Automation FloatFacts.
Local Open Scope string_scope.

Variable Math_pow : float -> float -> float.
Variable uuid_of : nat -> string.
Variable Number_toString : float -> string.

(** The interest [postInterestTransaction] computes in the state [w]: the
    formula on the sum of the non-tombstoned amounts of the account. *)
Definition computed_interest (p : InterestScheduleParams) (w : world) : float :=
  calculateInterest Math_pow (or_zero (select_balance (db w) (accountId p)))
    (apr p) (interestScheme p) (compoundingFrequency p).

Definition nothing_to_post : string :=
  "No interest to post (balance is zero or APR is zero)".

Lemma calculateInterest_zero_balance (balance a : float) (s f : string) :
  strict_eq balance 0 = true -> calculateInterest Math_pow balance a s f = 0%float.
Proof.
  intros H. unfold calculateInterest, strict_eq, Math_abs in *.
  rewrite abs_eqb_zero, H. reflexivity.
Qed.

(** C5: [postInterestTransaction] raises the "nothing to post" error exactly
    when the computed interest is 0, and then the store is left as it was;
    a zero balance (no transaction, or amounts that sum to 0) is such a
    case.  When the interest is not 0 the call returns normally. *)
Theorem postInterestTransaction_nothing_to_post :
  forall (e : env) (p : InterestScheduleParams) (date : option string) (w : world),
    (strict_eq (computed_interest p w) 0 = true ->
       postInterestTransaction Math_pow uuid_of Number_toString e p date w
       = (Throw nothing_to_post, w))
    /\ (strict_eq (computed_interest p w) 0 = false ->
        exists id w',
          postInterestTransaction Math_pow uuid_of Number_toString e p date w
          = (Ok id, w')
          /\ exists t, transactions (db w') = (transactions (db w) ++ [t])%list
                       /\ tx_acct t = accountId p
                       /\ tx_amount t = (- computed_interest p w)%float)
    /\ (strict_eq (or_zero (select_balance (db w) (accountId p))) 0 = true ->
        strict_eq (computed_interest p w) 0 = true).
Proof.
  intros e p date w. unfold computed_interest. repeat split.
  - intros H. unfold postInterestTransaction, bind, query, throw.
    cbv beta iota zeta. rewrite H. reflexivity.
  - intros H. unfold postInterestTransaction, bind, query.
    cbv beta iota zeta. rewrite H.
    destruct (select_payee (db w) "Interest Charge") as [pid|];
      cbn; eexists; eexists; (split; [reflexivity|]);
      eexists; (split; [reflexivity|]); split; reflexivity.
  - intros H. rewrite (calculateInterest_zero_balance _ _ _ _ H). reflexivity.
Qed.

End PosterFacts.

(** ** The interest schedule manager *)

Section ScheduleFacts.

Import Js Ledger Automation.
Local Open Scope string_scope.

Variable uuid_of : nat -> string.
Variable toDateRepr : string -> Z.

Definition config_of (p : InterestScheduleParams) : action_value :=
  AInterestConfig (apr p) (interestScheme p) (compoundingFrequency p).

(** The schedule rows the lookup of [setupInterestSchedule] selects for an
    account. *)
Definition governing (d : database) (acct : string) : list schedule :=
  filter (governs d acct) (schedules d).

(** What an update may do to an action row of the store [d]: nothing but
    replace the value, and only on the row the lookup of the configuration
    action or of the category action of rule [ruleId] returned. *)
Definition action_frame (d : database) (ruleId : string) (p : InterestScheduleParams)
    (a a' : rule_action) : Prop :=
  ra_id a' = ra_id a /\ ra_rule a' = ra_rule a /\ ra_field a' = ra_field a
  /\ ra_op a' = ra_op a
  /\ (ra_value a' = ra_value a
      \/ (select_action d ruleId "debt_interest_config" = Some (ra_id a)
          /\ ra_value a' = config_of p)
      \/ (select_action d ruleId "category" = Some (ra_id a)
          /\ ra_value a' = AText (interestCategoryId p))).

(** The effect of a call that found a schedule: no table but [rule_actions]
    and [schedules_next_date] changes, no identifier is drawn, and those two
    tables keep their rows. *)
Definition only_updates (e : env) (p : InterestScheduleParams) (scheduleId ruleId : string)
    (nextDate : string) (w w' : world) : Prop :=
  uuid_count w' = uuid_count w
  /\ accounts (db w') = accounts (db w)
  /\ transactions (db w') = transactions (db w)
  /\ payees (db w') = payees (db w)
  /\ categories (db w') = categories (db w)
  /\ rules (db w') = rules (db w)
  /\ rule_conditions (db w') = rule_conditions (db w)
  /\ schedules (db w') = schedules (db w)
  /\ Forall2 (action_frame (db w) ruleId p) (rule_actions (db w)) (rule_actions (db w'))
  /\ schedules_next_date (db w')
     = map (set_next_date scheduleId (toDateRepr nextDate) (now e))
         (schedules_next_date (db w)).

Lemma Forall2_map_r {A B} (R : A -> B -> Prop) (f : A -> B) (l : list A) :
  (forall a, In a l -> R a (f a)) -> Forall2 R l (map f l).
Proof.
  induction l as [|a l IH]; intros H; cbn; constructor.
  - apply H. now left.
  - apply IH. intros b Hb. apply H. now right.
Qed.

Lemma Forall2_diag {A} (R : A -> A -> Prop) (l : list A) :
  (forall a, In a l -> R a a) -> Forall2 R l l.
Proof.
  intros H. rewrite <- (map_id l) at 2. now apply Forall2_map_r.
Qed.

Lemma set_action_value_keys (id : string) (v : action_value) (a : rule_action) :
  ra_id (set_action_value id v a) = ra_id a
  /\ ra_rule (set_action_value id v a) = ra_rule a
  /\ ra_field (set_action_value id v a) = ra_field a
  /\ ra_op (set_action_value id v a) = ra_op a.
Proof.
  unfold set_action_value. destruct (ra_id a =? id); cbn; auto.
Qed.

Lemma set_action_value_value (id : string) (v : action_value) (a : rule_action) :
  ra_value (set_action_value id v a) = if ra_id a =? id then v else ra_value a.
Proof.
  unfold set_action_value. destruct (ra_id a =? id); reflexivity.
Qed.

Lemma find_map_same {A B} (f : A -> A) (key : A -> B) (test : B -> bool) (l : list A) :
  (forall a, key (f a) = key a) ->
  option_map key (find (fun a => test (key a)) (map f l))
  = option_map key (find (fun a => test (key a)) l).
Proof.
  intros Hk. induction l as [|a l IH]; cbn; [reflexivity|].
  rewrite Hk. destruct (test (key a)); cbn; [now rewrite Hk | exact IH].
Qed.

(** Replacing values leaves what [select_action] returns. *)
Lemma select_action_after_update (d : database) (id : string) (v : action_value)
    (ruleId field : string) :
  select_action (set_rule_actions (map (set_action_value id v) (rule_actions d)) d)
    ruleId field
  = select_action d ruleId field.
Proof.
  unfold select_action. cbn.
  pose proof (find_map_same (set_action_value id v)
                (fun a => (ra_id a, ra_rule a, ra_field a))
                (fun k => (snd (fst k) =? ruleId) && (snd k =? field))
                (rule_actions d)) as H.
  cbn in H. 
  assert (Hk : forall a, (ra_id (set_action_value id v a), ra_rule (set_action_value id v a),
                          ra_field (set_action_value id v a))
                         = (ra_id a, ra_rule a, ra_field a)).
  { intros a. destruct (set_action_value_keys id v a) as (-> & -> & -> & _). reflexivity. }
  specialize (H Hk).
  destruct (find _ (map _ _)) as [a1|], (find _ (rule_actions d)) as [a2|];
    cbn in H; try discriminate; [|reflexivity].
  now injection H as -> _ _.
Qed.

Lemma updateInterestSchedule_only_updates
    (e : env) (p : InterestScheduleParams) (scheduleId ruleId nextDate : string) (w : world) :
  Dates.getNextInterestDate (today e) (interestPostingDay p) None = Some nextDate ->
  exists w',
    updateInterestSchedule toDateRepr e scheduleId ruleId p w = (Ok tt, w')
    /\ only_updates e p scheduleId ruleId nextDate w w'.
Proof.
  intros Hd.
  unfold updateInterestSchedule, nextInterestDate, bind, query, ret, update_rule_action,
    update_next_date, modify.
  rewrite Hd. cbv beta iota zeta.
  destruct (select_action (db w) ruleId "debt_interest_config") as [cfg|] eqn:Ecfg;
    cbv beta iota zeta; cbn [db uuid_count].
  - rewrite select_action_after_update.
    destruct (select_action (db w) ruleId "category") as [cat|] eqn:Ecat;
      cbv beta iota zeta; cbn [db uuid_count];
      eexists; (split; [reflexivity|]); unfold only_updates; cbn;
      repeat (split; [reflexivity|]); (split; [|reflexivity]).
    + rewrite map_map. apply Forall2_map_r. intros a _.
      destruct (set_action_value_keys cat (AText (interestCategoryId p))
                  (set_action_value cfg (config_of p) a)) as (K1 & K2 & K3 & K4).
      destruct (set_action_value_keys cfg (config_of p) a) as (L1 & L2 & L3 & L4).
      unfold action_frame. fold (config_of p).
      rewrite K1, K2, K3, K4, L1, L2, L3, L4. repeat (split; [reflexivity|]).
      rewrite !set_action_value_value, L1.
      destruct (ra_id a =? cat) eqn:E1.
      * apply String.eqb_eq in E1. subst cat. right; right. now split.
      * destruct (ra_id a =? cfg) eqn:E2.
        -- apply String.eqb_eq in E2. subst cfg. right; left. now split.
        -- now left.
    + apply Forall2_map_r. intros a _.
      destruct (set_action_value_keys cfg (config_of p) a) as (L1 & L2 & L3 & L4).
      unfold action_frame. fold (config_of p).
      rewrite L1, L2, L3, L4. repeat (split; [reflexivity|]).
      rewrite set_action_value_value. destruct (ra_id a =? cfg) eqn:E2.
      * apply String.eqb_eq in E2. subst cfg. right; left. now split.
      * now left.
  - destruct (select_action (db w) ruleId "category") as [cat|] eqn:Ecat;
      cbv beta iota zeta; cbn [db uuid_count];
      eexists; (split; [reflexivity|]); unfold only_updates; cbn;
      repeat (split; [reflexivity|]); (split; [|reflexivity]).
    + apply Forall2_map_r. intros a _.
      destruct (set_action_value_keys cat (AText (interestCategoryId p)) a)
        as (L1 & L2 & L3 & L4).
      unfold action_frame. rewrite L1, L2, L3, L4. repeat (split; [reflexivity|]).
      rewrite set_action_value_value. destruct (ra_id a =? cat) eqn:E2.
      * apply String.eqb_eq in E2. subst cat. right; right. now split.
      * now left.
    + apply Forall2_diag. intros a _. unfold action_frame.
      repeat (split; [reflexivity|]). now left.
Qed.

Lemma find_ext_eq {A} (f g : A -> bool) (l : list A) :
  (forall a, f a = g a) -> find f l = find g l.
Proof.
  intros H. induction l as [|a l IH]; cbn; [reflexivity|].
  now rewrite H, IH.
Qed.

(** The lookup reads the schedule, rule and condition tables only. *)
Lemma governs_ext (d d' : database) (acct : string) (s : schedule) :
  rules d' = rules d -> rule_conditions d' = rule_conditions d ->
  governs d' acct s = governs d acct s.
Proof.
  intros Hr Hc. unfold governs, rule_matches. now rewrite Hr, Hc.
Qed.

Lemma governing_ext (d d' : database) (acct : string) :
  schedules d' = schedules d -> rules d' = rules d ->
  rule_conditions d' = rule_conditions d ->
  governing d' acct = governing d acct
  /\ select_schedule d' acct = select_schedule d acct.
Proof.
  intros Hs Hr Hc. unfold governing, select_schedule. rewrite Hs.
  split.
  - apply filter_ext. intros s. now apply governs_ext.
  - erewrite find_ext_eq; [reflexivity|]. intros s. now apply governs_ext.
Qed.

Lemma governs_intro (d : database) (acct : string) (s : schedule) (r : rule)
    (rc : rule_condition) :
  In r (rules d) -> In rc (rule_conditions d) ->
  rule_id r = sch_rule s -> rule_stage r = None ->
  rc_rule rc = rule_id r -> rc_field rc = "acct" -> rc_value rc = acct ->
  governs d acct s = true.
Proof.
  intros Hr Hrc E1 E2 E3 E4 E5. unfold governs. apply existsb_exists.
  exists r. split; [exact Hr|]. unfold rule_matches.
  rewrite E1, String.eqb_refl, E2. cbn. apply existsb_exists.
  exists rc. split; [exact Hrc|]. unfold condition_matches.
  rewrite E3, E4, E5, E1, !String.eqb_refl. reflexivity.
Qed.


Lemma setupInterestSchedule_found
    (e : env) (p : InterestScheduleParams) (w : world) (s0 : schedule) (nextDate : string) :
  find (governs (db w) (accountId p)) (schedules (db w)) = Some s0 ->
  Dates.getNextInterestDate (today e) (interestPostingDay p) None = Some nextDate ->
  exists w',
    setupInterestSchedule uuid_of toDateRepr e p w = (Ok (sch_id s0), w')
    /\ only_updates e p (sch_id s0) (sch_rule s0) nextDate w w'.
Proof.
  intros Hf Hd.
  destruct (updateInterestSchedule_only_updates e p (sch_id s0) (sch_rule s0) nextDate w Hd)
    as (w' & Hu & Hframe).
  exists w'. split; [|exact Hframe].
  unfold setupInterestSchedule, bind, query, select_schedule, ret.
  rewrite Hf. cbv beta iota zeta. rewrite Hu. reflexivity.
Qed.


(** The schedule row a call creates when [n] identifiers were drawn before. *)
Definition created_schedule (p : InterestScheduleParams) (n : nat) : schedule :=
  {| sch_id := uuid_of n; sch_rule := uuid_of (S n); sch_active := true;
     sch_completed := false; sch_posts_transaction := true;
     sch_name := "Interest for Account " ++ accountId p |}.

Definition created_rule (n : nat) : rule :=
  {| rule_id := uuid_of (S n); rule_stage := None |}.

Definition created_condition (p : InterestScheduleParams) (n : nat) (id : string) :
    rule_condition :=
  {| rc_id := id; rc_rule := uuid_of (S n); rc_field := "acct"; rc_op := "is";
     rc_value := accountId p |}.

Lemma setupInterestSchedule_created
    (e : env) (p : InterestScheduleParams) (w : world) (nextDate : string) :
  find (governs (db w) (accountId p)) (schedules (db w)) = None ->
  Dates.getNextInterestDate (today e) (interestPostingDay p) None = Some nextDate ->
  exists (w' : world) (cid : string),
    setupInterestSchedule uuid_of toDateRepr e p w = (Ok (uuid_of (uuid_count w)), w')
    /\ schedules (db w') = (schedules (db w) ++ [created_schedule p (uuid_count w)])%list
    /\ rules (db w') = (rules (db w) ++ [created_rule (uuid_count w)])%list
    /\ rule_conditions (db w')
       = (rule_conditions (db w) ++ [created_condition p (uuid_count w) cid])%list.
Proof.
  intros Hf Hd.
  unfold setupInterestSchedule, bind, query, select_schedule, ret, uuidv4, insertPayee,
    insert_rule, insert_rule_condition, insert_rule_action, insert_schedule,
    insertWithUUID_next_date, nextInterestDate, modify, bind, uuidv4, ret.
  rewrite Hf, Hd. cbv beta iota zeta. cbn [db uuid_count].
  destruct (select_payee (db w) "Interest Charge") as [pid|];
    cbv beta iota zeta; cbn [db uuid_count];
    eexists; eexists; (split; [reflexivity|]); cbn; repeat split; reflexivity.
Qed.

Lemma filter_none {A} (f : A -> bool) (l : list A) :
  (forall a, In a l -> f a = false) -> filter f l = [].
Proof.
  induction l as [|a l IH]; intros H; cbn; [reflexivity|].
  rewrite (H a (or_introl eq_refl)). apply IH. intros b Hb. apply H. now right.
Qed.

Lemma find_app_none {A} (f : A -> bool) (l : list A) (x : A) :
  (forall a, In a l -> f a = false) -> f x = true -> find f (l ++ [x]) = Some x.
Proof.
  induction l as [|a l IH]; intros H Hx; cbn.
  - now rewrite Hx.
  - rewrite (H a (or_introl eq_refl)). apply IH; [|exact Hx].
    intros b Hb. apply H. now right.
Qed.

Lemma existsb_ext_in {A} (f g : A -> bool) (l : list A) :
  (forall a, In a l -> f a = g a) -> existsb f l = existsb g l.
Proof.
  induction l as [|a l IH]; intros H; cbn; [reflexivity|].
  rewrite (H a (or_introl eq_refl)). f_equal. apply IH. intros b Hb. apply H. now right.
Qed.

(** After a creation the lookup selects the new schedule row and no other,
    provided the identifier of the new rule is the rule of no schedule that
    was there. *)
Lemma governs_after_creation
    (d d' : database) (p : InterestScheduleParams) (n : nat) (cid : string) :
  schedules d' = (schedules d ++ [created_schedule p n])%list ->
  rules d' = (rules d ++ [created_rule n])%list ->
  rule_conditions d' = (rule_conditions d ++ [created_condition p n cid])%list ->
  (forall s, In s (schedules d) -> sch_rule s <> uuid_of (S n)) ->
  (forall s, In s (schedules d) ->
             governs d' (accountId p) s = governs d (accountId p) s)
  /\ governs d' (accountId p) (created_schedule p n) = true.
Proof.
  intros Hs Hr Hc Hfresh. split.
  - intros s Hin. specialize (Hfresh s Hin).
    unfold governs. rewrite Hr, existsb_app. cbn [existsb].
    assert (Hnew : rule_matches d' (accountId p) s (created_rule n) = false).
    { unfold rule_matches. cbn [created_rule rule_id].
      apply String.eqb_neq in Hfresh. rewrite String.eqb_sym in Hfresh.
      now rewrite Hfresh. }
    rewrite Hnew, !orb_false_r.
    apply existsb_ext_in. intros r _. unfold rule_matches.
    destruct (rule_id r =? sch_rule s) eqn:E; [|reflexivity].
    apply String.eqb_eq in E. cbn [andb]. f_equal.
    rewrite Hc, existsb_app. cbn [existsb].
    unfold condition_matches at 2. cbn [created_condition rc_rule].
    assert (E' : (uuid_of (S n) =? rule_id r) = false).
    { apply String.eqb_neq. congruence. }
    rewrite E'. cbn. now rewrite orb_false_r.
  - eapply governs_intro with (r := created_rule n) (rc := created_condition p n cid);
      try reflexivity.
    + rewrite Hr. apply in_or_app. right. now left.
    + rewrite Hc. apply in_or_app. right. now left.
Qed.

Lemma find_governs_ext (d d' : database) (acct : string) :
  schedules d' = schedules d -> rules d' = rules d ->
  rule_conditions d' = rule_conditions d ->
  find (governs d' acct) (schedules d') = find (governs d acct) (schedules d).
Proof.
  intros Hs Hr Hc. rewrite Hs. apply find_ext_eq. intros s. now apply governs_ext.
Qed.

Lemma only_updates_tables (e : env) (p : InterestScheduleParams) (sid rid nd : string)
    (w w' : world) :
  only_updates e p sid rid nd w w' ->
  schedules (db w') = schedules (db w) /\ rules (db w') = rules (db w)
  /\ rule_conditions (db w') = rule_conditions (db w).
Proof.
  unfold only_updates. intuition.
Qed.

(** C6, as the code has it: two calls in succession for the same account
    return the same schedule id, and the second call creates no row (it only
    updates, see [only_updates]).  The number of schedule rows that govern
    the account is afterwards what it was before, and 1 when there was none:
    exactly one row when the starting store held at most one.  The
    identifier drawn for the new rule is assumed fresh for the schedule
    table, and the current day readable. *)
Theorem setupInterestSchedule_twice :
  forall (e1 e2 : env) (p1 p2 : InterestScheduleParams) (w : world)
         (nextDate1 nextDate2 : string),
    accountId p2 = accountId p1 ->
    Dates.getNextInterestDate (today e1) (interestPostingDay p1) None = Some nextDate1 ->
    Dates.getNextInterestDate (today e2) (interestPostingDay p2) None = Some nextDate2 ->
    (forall s, In s (schedules (db w)) -> sch_rule s <> uuid_of (S (uuid_count w))) ->
    exists (id ruleId : string) (w1 w2 : world),
      setupInterestSchedule uuid_of toDateRepr e1 p1 w = (Ok id, w1)
      /\ setupInterestSchedule uuid_of toDateRepr e2 p2 w1 = (Ok id, w2)
      /\ only_updates e2 p2 id ruleId nextDate2 w1 w2
      /\ List.length (governing (db w2) (accountId p1))
         = Nat.max 1 (List.length (governing (db w) (accountId p1)))
      /\ (governing (db w) (accountId p1) = [] ->
          exists s, governing (db w2) (accountId p1) = [s] /\ sch_id s = id).
Proof.
  intros e1 e2 p1 p2 w nd1 nd2 Hacct Hd1 Hd2 Hfresh.
  destruct (find (governs (db w) (accountId p1)) (schedules (db w))) as [s0|] eqn:Hf.
  - (* the first call finds a schedule *)
    destruct (setupInterestSchedule_found e1 p1 w s0 nd1 Hf Hd1) as (w1 & Hrun1 & Hu1).
    destruct (only_updates_tables _ _ _ _ _ _ _ Hu1) as (Hs1 & Hr1 & Hc1).
    assert (Hf1 : find (governs (db w1) (accountId p2)) (schedules (db w1)) = Some s0).
    { rewrite Hacct, <- Hf. now apply find_governs_ext. }
    destruct (setupInterestSchedule_found e2 p2 w1 s0 nd2 Hf1 Hd2) as (w2 & Hrun2 & Hu2).
    destruct (only_updates_tables _ _ _ _ _ _ _ Hu2) as (Hs2 & Hr2 & Hc2).
    exists (sch_id s0), (sch_rule s0), w1, w2.
    assert (Hg : governing (db w2) (accountId p1) = governing (db w) (accountId p1)).
    { transitivity (governing (db w1) (accountId p1)); now apply governing_ext. }
    assert (Hin : In s0 (governing (db w) (accountId p1))).
    { unfold governing. apply filter_In. now apply find_some in Hf. }
    split; [exact Hrun1|]. split; [exact Hrun2|]. split; [exact Hu2|]. split.
    + rewrite Hg. destruct (governing (db w) (accountId p1)); [destruct Hin|].
      cbn. now destruct (List.length l).
    + intros Hnil. rewrite Hnil in Hin. destruct Hin.
  - (* the first call creates the schedule *)
    destruct (setupInterestSchedule_created e1 p1 w nd1 Hf Hd1)
      as (w1 & cid & Hrun1 & Hs1 & Hr1 & Hc1).
    destruct (governs_after_creation (db w) (db w1) p1 (uuid_count w) cid
                Hs1 Hr1 Hc1 Hfresh) as (Hold & Hnew).
    assert (Hfalse : forall s, In s (schedules (db w)) ->
                               governs (db w1) (accountId p1) s = false).
    { intros s Hin. rewrite (Hold s Hin). exact (find_none _ _ Hf s Hin). }
    set (snew := created_schedule p1 (uuid_count w)) in *.
    assert (Hf1 : find (governs (db w1) (accountId p2)) (schedules (db w1)) = Some snew).
    { rewrite Hacct, Hs1. now apply find_app_none. }
    destruct (setupInterestSchedule_found e2 p2 w1 snew nd2 Hf1 Hd2) as (w2 & Hrun2 & Hu2).
    destruct (only_updates_tables _ _ _ _ _ _ _ Hu2) as (Hs2 & Hr2 & Hc2).
    exists (sch_id snew), (sch_rule snew), w1, w2.
    assert (Hg2 : governing (db w2) (accountId p1) = [snew]).
    { transitivity (governing (db w1) (accountId p1)); [now apply governing_ext|].
      unfold governing. rewrite Hs1, filter_app, (filter_none _ _ Hfalse). cbn.
      now rewrite Hnew. }
    assert (Hg0 : governing (db w) (accountId p1) = []).
    { unfold governing. apply filter_none. exact (find_none _ _ Hf). }
    split; [exact Hrun1|]. split; [exact Hrun2|]. split; [exact Hu2|]. split.
    + now rewrite Hg2, Hg0.
    + intros _. exists snew. now split.
Qed.

End ScheduleFacts.

(** ** The debt candidate scorer *)

Section DetectionFacts.

Import Js Ledger Detection FloatFacts.

Variable Math_pow : float -> float -> float.

Lemma insert_by_perm {A} (before : A -> A -> bool) (x : A) (l : list A) :
  Permutation (x :: l) (insert_by before x l).
Proof.
  induction l as [|y r IH]; cbn; [reflexivity|].
  destruct (before x y); [reflexivity|].
  rewrite perm_swap. now constructor.
Qed.

Lemma sort_by_perm {A} (before : A -> A -> bool) (l : list A) :
  Permutation l (sort_by before l).
Proof.
  induction l as [|x l IH]; cbn; [constructor|].
  rewrite <- insert_by_perm. now constructor.
Qed.

Definition score_ge (a b : DebtCandidate) : Prop := (score b <= score a)%Z.

Lemma insert_by_score_sorted (x : DebtCandidate) (l : list DebtCandidate) :
  StronglySorted score_ge l -> StronglySorted score_ge (insert_by score_desc x l).
Proof.
  induction 1 as [|y r Hr IH Hy]; cbn.
  - repeat constructor.
  - unfold score_desc at 1. destruct (score y <=? score x)%Z eqn:E.
    + apply Z.leb_le in E. constructor; [now constructor|].
      constructor; [exact E|].
      eapply Forall_impl; [|exact Hy]. unfold score_ge. intros b Hb. lia.
    + apply Z.leb_gt in E. constructor; [exact IH|].
      eapply Permutation_Forall; [apply insert_by_perm|].
      constructor; [unfold score_ge; lia | exact Hy].
Qed.

Lemma sort_by_score_sorted (l : list DebtCandidate) :
  StronglySorted score_ge (sort_by score_desc l).
Proof.
  induction l as [|x l IH]; cbn; [constructor|].
  now apply insert_by_score_sorted.
Qed.

Definition has_score (v : Z) (c : DebtCandidate) : bool := (score c =? v)%Z.

(** Inserting a candidate moves it past candidates of a strictly greater
    score only: among equal scores the order is kept. *)
Lemma insert_by_score_stable (v : Z) (x : DebtCandidate) (l : list DebtCandidate) :
  filter (has_score v) (insert_by score_desc x l) = filter (has_score v) (x :: l).
Proof.
  induction l as [|y r IH]; [reflexivity|].
  cbn [insert_by]. unfold score_desc at 1.
  destruct (score y <=? score x)%Z eqn:E; [reflexivity|].
  apply Z.leb_gt in E. cbn [filter] in *. rewrite IH.
  unfold has_score.
  destruct (score x =? v)%Z eqn:Ex, (score y =? v)%Z eqn:Ey; try reflexivity.
  apply Z.eqb_eq in Ex, Ey. lia.
Qed.

Lemma sort_by_score_stable (v : Z) (l : list DebtCandidate) :
  filter (has_score v) (sort_by score_desc l) = filter (has_score v) l.
Proof.
  induction l as [|x l IH]; [reflexivity|].
  cbn [sort_by fold_right]. fold (sort_by score_desc l).
  rewrite insert_by_score_stable. cbn [filter]. now rewrite IH.
Qed.

Lemma or_zero_not_nan (v : option float) :
  PrimFloat.eqb (Automation.or_zero v) (Automation.or_zero v) = true.
Proof.
  unfold Automation.or_zero. destruct v as [b|]; [|reflexivity].
  destruct (PrimFloat.eqb b 0); [reflexivity|].
  destruct (PrimFloat.eqb b b) eqn:E; [exact E | reflexivity].
Qed.

(** What one turn of the loop pushes. *)
Lemma score_account_pushed (d : database) (a : account) (c : DebtCandidate) :
  score_account Math_pow d a = Some c ->
  accountId c = acc_id a
  /\ balance c = getAccountBalance d (acc_id a)
  /\ PrimFloat.ltb (balance c) 0 = true
  /\ (40 <= score c)%Z.
Proof.
  unfold score_account.
  destruct (PrimFloat.leb 0 (getAccountBalance d (acc_id a))) eqn:Hb; [discriminate|].
  assert (Hneg : PrimFloat.ltb (getAccountBalance d (acc_id a)) 0 = true).
  { apply not_leb_zero_ltb; [exact Hb|]. apply or_zero_not_nan. }
  cbv beta iota zeta.
  repeat match goal with
         | |- context [match ?E with pair _ _ => _ end] => destruct E
         end.
  destruct (40 <=? _)%Z eqn:E; [|discriminate].
  intros H. injection H as <-. cbn. apply Z.leb_le in E. auto.
Qed.

Lemma candidates_found_pushed (d : database) (c : DebtCandidate) :
  In c (candidates_found Math_pow d) ->
  exists a, In a (accounts d) /\ score_account Math_pow d a = Some c.
Proof.
  unfold candidates_found. intros H. apply in_flat_map in H.
  destruct H as (a & Ha & Hc). apply filter_In in Ha. destruct Ha as (Ha & _).
  exists a. split; [exact Ha|].
  destruct (score_account Math_pow d a) as [c'|]; [|destruct Hc].
  destruct Hc as [->|[]]. reflexivity.
Qed.

(** C3: every candidate [detectDebtAccounts] returns carries the current
    balance of its account, which is below 0, and a score of at least 40; the
    list is in descending order of score, and it is the list of the
    candidates in the order the loop met them, rearranged so that candidates
    of equal score keep that order. *)
Theorem detectDebtAccounts_sound :
  forall d : database,
    (forall c, In c (detectDebtAccounts Math_pow d) ->
               balance c = getAccountBalance d (accountId c)
               /\ PrimFloat.ltb (balance c) 0 = true
               /\ (40 <= score c)%Z)
    /\ StronglySorted score_ge (detectDebtAccounts Math_pow d)
    /\ Permutation (candidates_found Math_pow d) (detectDebtAccounts Math_pow d)
    /\ (forall v : Z,
          filter (has_score v) (detectDebtAccounts Math_pow d)
          = filter (has_score v) (candidates_found Math_pow d)).
Proof.
  intros d. unfold detectDebtAccounts. repeat split.
  - apply (Permutation_in c (Permutation_sym (sort_by_perm score_desc _))) in H.
    destruct (candidates_found_pushed d c H) as (a & _ & Ha).
    destruct (score_account_pushed d a c Ha) as (E1 & E2 & _). congruence.
  - apply (Permutation_in c (Permutation_sym (sort_by_perm score_desc _))) in H.
    destruct (candidates_found_pushed d c H) as (a & _ & Ha).
    now destruct (score_account_pushed d a c Ha) as (_ & _ & E3 & _).
  - apply (Permutation_in c (Permutation_sym (sort_by_perm score_desc _))) in H.
    destruct (candidates_found_pushed d c H) as (a & _ & Ha).
    now destruct (score_account_pushed d a c Ha) as (_ & _ & _ & E4).
  - apply sort_by_score_sorted.
  - apply sort_by_perm.
  - intros v. apply sort_by_score_stable.
Qed.

End DetectionFacts.

(** ** The posting date calculator *)

Module DateFacts.

Import Dates Ranges.
Local Open Scope string_scope.
Local Open Scope Z_scope.

Fixpoint dash_free (s : string) : bool :=
  match s with
  | EmptyString => true
  | String c s' => negb (Ascii.eqb c "-") && dash_free s'
  end.

Lemma split_dash_free (a : string) : dash_free a = true -> split_dash a = [a].
Proof.
  induction a as [|c a IH]; cbn; [reflexivity|].
  destruct (Ascii.eqb c "-"); cbn; [discriminate|].
  intros H. now rewrite (IH H).
Qed.

Lemma split_dash_app (a b : string) :
  dash_free a = true -> split_dash (a ++ String "-" b) = a :: split_dash b.
Proof.
  induction a as [|c a IH]; cbn; [reflexivity|].
  destruct (Ascii.eqb c "-"); cbn; [discriminate|].
  intros H. now rewrite (IH H).
Qed.

Lemma substring_app_l (a b : string) :
  substring 0 (String.length a) (a ++ b) = a.
Proof.
  induction a as [|c a IH]; cbn.
  - destruct b; reflexivity.
  - now rewrite IH.
Qed.

Lemma substring_app_r (a b : string) (k : nat) :
  substring (String.length a) k (a ++ b) = substring 0 k b.
Proof.
  induction a as [|c a IH]; cbn; [reflexivity | exact IH].
Qed.

Lemma substring_full (a : string) : substring 0 (String.length a) a = a.
Proof.
  induction a as [|c a IH]; cbn; [reflexivity | now rewrite IH].
Qed.

Lemma append_assoc (a b c : string) : (a ++ b) ++ c = a ++ (b ++ c).
Proof.
  induction a as [|x a IH]; cbn; [reflexivity | now rewrite IH].
Qed.

Lemma length_append (a b : string) :
  String.length (a ++ b) = (String.length a + String.length b)%nat.
Proof.
  induction a as [|x a IH]; cbn; [reflexivity | now rewrite IH].
Qed.

Lemma padStart_long (n : nat) (c : ascii) (s : string) :
  (n <= String.length s)%nat -> padStart n c s = s.
Proof.
  intros H. unfold padStart. replace (n - String.length s)%nat with 0%nat by lia.
  reflexivity.
Qed.

(** A year of four digits prints as four characters without a dash and
    reads back. *)
Definition year_ok (y : Z) : bool :=
  (String.length (String_of_Z y) =? 4)%nat
  && match parseInt (String_of_Z y) with Some z => z =? y | None => false end
  && dash_free (String_of_Z y).

(** A month or a day prints, padded, as two characters without a dash and
    reads back. *)
Definition two_ok (n : Z) : bool :=
  let s := padStart 2 "0" (String_of_Z n) in
  (String.length s =? 2)%nat
  && match parseInt s with Some z => z =? n | None => false end
  && dash_free s.

Lemma years_ok (y : Z) : 1000 <= y <= 9999 -> year_ok y = true.
Proof.
  intros H. destruct (Z_lt_le_dec y 5500).
  - apply (range_forallb year_ok 1000 4500); [|lia]. vm_compute. reflexivity.
  - apply (range_forallb year_ok 5500 4500); [|lia]. vm_compute. reflexivity.
Qed.

Lemma twos_ok (n : Z) : 1 <= n <= 31 -> two_ok n = true.
Proof.
  intros H. apply (range_forallb two_ok 1 31); [|lia].
  vm_compute. reflexivity.
Qed.

Lemma year_facts (y : Z) :
  1000 <= y <= 9999 ->
  String.length (String_of_Z y) = 4%nat
  /\ parseInt (String_of_Z y) = Some y
  /\ dash_free (String_of_Z y) = true
  /\ padStart 4 "0" (String_of_Z y) = String_of_Z y.
Proof.
  intros H. pose proof (years_ok y H) as Hok. unfold year_ok in Hok.
  apply andb_prop in Hok. destruct Hok as (Hok & H3).
  apply andb_prop in Hok. destruct Hok as (H1 & H2).
  apply Nat.eqb_eq in H1.
  destruct (parseInt (String_of_Z y)) as [z|]; [|discriminate].
  apply Z.eqb_eq in H2. subst z. repeat split; try assumption.
  apply padStart_long. lia.
Qed.

Lemma two_facts (n : Z) :
  1 <= n <= 31 ->
  String.length (padStart 2 "0" (String_of_Z n)) = 2%nat
  /\ parseInt (padStart 2 "0" (String_of_Z n)) = Some n
  /\ dash_free (padStart 2 "0" (String_of_Z n)) = true.
Proof.
  intros H. pose proof (twos_ok n H) as Hok. unfold two_ok in Hok.
  cbv zeta in Hok.
  apply andb_prop in Hok. destruct Hok as (Hok & H3).
  apply andb_prop in Hok. destruct Hok as (H1 & H2).
  apply Nat.eqb_eq in H1.
  destruct (parseInt (padStart 2 "0" (String_of_Z n))) as [z|]; [|discriminate].
  apply Z.eqb_eq in H2. subst z. auto.
Qed.

(** The month after month [m] of year [y], as the calendar has it. *)
Definition next_year (y m : Z) : Z := if m =? 12 then y + 1 else y.
Definition next_month (m : Z) : Z := if m =? 12 then 1 else m + 1.

Lemma shift_month_next (y m : Z) :
  1 <= m <= 12 -> shift_month y m 1 = (next_year y m, next_month m).
Proof.
  intros H. unfold shift_month, next_year, next_month.
  destruct (Z.eqb_spec m 12); f_equal; Z.div_mod_to_equations; lia.
Qed.

Lemma shift_month_same (y m : Z) :
  1 <= m <= 12 -> shift_month y 1 (m - 1) = (y, m).
Proof.
  intros H. unfold shift_month. f_equal; Z.div_mod_to_equations; lia.
Qed.

Lemma next_month_range (m : Z) : 1 <= m <= 12 -> 1 <= next_month m <= 12.
Proof.
  intros H. unfold next_month. destruct (Z.eqb_spec m 12); lia.
Qed.

Lemma next_year_range (y m : Z) :
  1000 <= y <= 9998 -> 1000 <= next_year y m <= 9999.
Proof.
  intros H. unfold next_year. destruct (m =? 12); lia.
Qed.

Lemma days_in_month_range (y m : Z) : 28 <= days_in_month y m <= 31.
Proof.
  unfold days_in_month.
  destruct (m =? 2); [destruct (is_leap_year y); lia|].
  destruct ((m =? 4) || (m =? 6) || (m =? 9) || (m =? 11))%bool; lia.
Qed.

Lemma parse_date_show_month (y m : Z) :
  1000 <= y <= 9999 -> 1 <= m <= 12 ->
  parse_date (show_month y m) = Some (y, m, 1).
Proof.
  intros Hy Hm. destruct (year_facts y Hy) as (_ & Py & Dy & Ey).
  destruct (two_facts m ltac:(lia)) as (_ & Pm & Dm).
  unfold parse_date, show_month. rewrite Ey.
  change (String_of_Z y ++ "-" ++ padStart 2 "0" (String_of_Z m))
    with (String_of_Z y ++ String "-" (padStart 2 "0" (String_of_Z m))).
  rewrite (split_dash_app _ _ Dy), (split_dash_free _ Dm), Py, Pm. reflexivity.
Qed.

Lemma parse_date_show_day (y m d : Z) :
  1000 <= y <= 9999 -> 1 <= m <= 12 -> 1 <= d <= 31 ->
  parse_date (show_day y m d) = Some (y, m, d).
Proof.
  intros Hy Hm Hd. destruct (year_facts y Hy) as (_ & Py & Dy & Ey).
  destruct (two_facts m ltac:(lia)) as (_ & Pm & Dm).
  destruct (two_facts d Hd) as (_ & Pd & Dd).
  unfold parse_date, show_day, show_month. rewrite Ey, !append_assoc.
  change (String_of_Z y ++ "-" ++ padStart 2 "0" (String_of_Z m) ++ "-"
          ++ padStart 2 "0" (String_of_Z d))
    with (String_of_Z y ++ String "-" (padStart 2 "0" (String_of_Z m)
          ++ String "-" (padStart 2 "0" (String_of_Z d)))).
  rewrite (split_dash_app _ _ Dy), (split_dash_app _ _ Dm), (split_dash_free _ Dd).
  rewrite Py, Pm, Pd. reflexivity.
Qed.

Lemma show_day_not_empty (y m d : Z) : (show_day y m d =? "")%string = false.
Proof.
  unfold show_day, show_month. rewrite !append_assoc.
  destruct (padStart 4 "0" (String_of_Z y)); reflexivity.
Qed.

Lemma slices_show_month (y m : Z) :
  1000 <= y <= 9999 -> 1 <= m <= 12 ->
  parseInt (slice 0 4 (show_month y m)) = Some y
  /\ parseInt (slice 5 7 (show_month y m)) = Some m.
Proof.
  intros Hy Hm. destruct (year_facts y Hy) as (Ly & Py & _ & Ey).
  destruct (two_facts m ltac:(lia)) as (Lm & Pm & _).
  unfold show_month, slice. rewrite Ey. split.
  - change (4 - 0)%nat with 4%nat.
    pose proof (substring_app_l (String_of_Z y) ("-" ++ padStart 2 "0" (String_of_Z m)))
      as Hl.
    rewrite Ly in Hl. rewrite Hl. exact Py.
  - change (7 - 5)%nat with 2%nat.
    change (String_of_Z y ++ "-" ++ padStart 2 "0" (String_of_Z m))
      with (String_of_Z y ++ String "-" (padStart 2 "0" (String_of_Z m))).
    replace (String_of_Z y ++ String "-" (padStart 2 "0" (String_of_Z m)))
      with ((String_of_Z y ++ "-") ++ padStart 2 "0" (String_of_Z m))
      by (now rewrite append_assoc).
    replace 5%nat with (String.length (String_of_Z y ++ "-")).
    + rewrite substring_app_r.
      pose proof (substring_full (padStart 2 "0" (String_of_Z m))) as Hfull.
      rewrite Lm in Hfull. rewrite Hfull. exact Pm.
    + rewrite length_append, Ly. reflexivity.
Qed.

Lemma Date_last_day_of_month (y m : Z) :
  1000 <= y <= 9999 -> 1 <= m <= 12 ->
  Date_last_day (Some y) (Some m) = Some (days_in_month y m).
Proof.
  intros Hy Hm. unfold Date_last_day.
  replace (y <=? 99) with false by (symmetry; apply Z.leb_gt; lia).
  rewrite andb_false_r, (shift_month_same y m Hm). reflexivity.
Qed.

(** C4: from a day of month [m] of year [y], [getNextInterestDate] returns a
    day of the month that follows: its last day when the posting day is
    null, and the posting day cut down to the length of that month when it is
    given; with the three dates of the spec. *)
Theorem getNextInterestDate_next_month :
  (forall (today : string) (y m d : Z),
      1000 <= y <= 9998 -> 1 <= m <= 12 -> 1 <= d <= 31 ->
      getNextInterestDate today None (Some (show_day y m d))
      = Some (show_day (next_year y m) (next_month m)
                (days_in_month (next_year y m) (next_month m)))
      /\ (forall p : Z,
             1 <= p <= 31 ->
             getNextInterestDate today (Some p) (Some (show_day y m d))
             = Some (show_day (next_year y m) (next_month m)
                       (Z.min p (days_in_month (next_year y m) (next_month m))))
             /\ 1 <= Z.min p (days_in_month (next_year y m) (next_month m))
                <= days_in_month (next_year y m) (next_month m)))
  /\ (forall today : string,
         getNextInterestDate today (Some 15) (Some "2024-01-15") = Some "2024-02-15"
         /\ getNextInterestDate today None (Some "2024-01-15") = Some "2024-02-29"
         /\ getNextInterestDate today (Some 31) (Some "2024-01-31") = Some "2024-02-29").
Proof.
  split.
  - intros today y m d Hy Hm Hd.
    pose proof (next_year_range y m Hy) as Hy'.
    pose proof (next_month_range m Hm) as Hm'.
    assert (Hadd : addMonths (show_day y m d) 1
                   = Some (show_month (next_year y m) (next_month m))).
    { unfold addMonths.
      rewrite (parse_date_show_day y m d ltac:(lia) Hm Hd), (shift_month_next y m Hm).
      reflexivity. }
    unfold getNextInterestDate. rewrite show_day_not_empty, Hadd. split.
    + unfold lastDayOfMonth. now rewrite (parse_date_show_month _ _ Hy' Hm').
    + intros p Hp.
      pose proof (days_in_month_range (next_year y m) (next_month m)) as Hdim.
      split; [|lia].
      destruct (slices_show_month _ _ Hy' Hm') as (-> & ->).
      rewrite (Date_last_day_of_month _ _ Hy' Hm'). cbn [Math_min show_number].
      destruct (year_facts _ Hy') as (_ & _ & _ & Ey).
      unfold show_day, show_month. rewrite Ey, !append_assoc. reflexivity.
  - intros today. repeat split; vm_compute; reflexivity.
Qed.

End DateFacts.

(** ** The sign of the derived rate *)

Section RateSign.

Import Js Interest FloatFacts FloatOrder.
Local Open Scope float_scope.

Variable Math_pow : float -> float -> float.

Lemma mul_sign_clear_r (x c : float) (m : positive) (e : Z) :
  Prim2SF c = S754_finite false m e -> sign_clear (Prim2SF x) = true ->
  sign_clear (Prim2SF (x * c)) = true.
Proof.
  intros Hc Hx. rewrite FloatAxioms.mul_spec, Hc.
  destruct (Prim2SF x) as [[]|[]| |[] mx ex]; try discriminate; try reflexivity.
  apply binary_round_aux_sign_clear. lia.
Qed.

(** The absolute value of a finite number other than 0. *)
Lemma abs_finite_nonzero (x : float) :
  (abs x <? infinity) = true -> strict_eq x 0 = false ->
  exists m e, Prim2SF (abs x) = S754_finite false m e.
Proof.
  unfold strict_eq.
  rewrite FloatAxioms.ltb_spec, FloatAxioms.eqb_spec, FloatAxioms.abs_spec.
  destruct (Prim2SF x) as [[]|[]| |s m e]; cbn; try discriminate.
  intros _ _. now exists m, e.
Qed.

(** The rate derived from a charge is never negative and never NaN: for a
    finite principal and a finite charge, both other than 0 and of any sign,
    and a scheme that is not one of the two computed with a power, the
    derived APR is a number that is at least 0. *)
Theorem calculateAPRFromInterest_not_negative :
  forall (interestCharged principal : float) (interestScheme : string),
    interestScheme <> "compound_daily"%string ->
    interestScheme <> "compound_annually"%string ->
    (abs principal <? infinity) = true -> strict_eq principal 0 = false ->
    (abs interestCharged <? infinity) = true -> strict_eq interestCharged 0 = false ->
    exists a, calculateAPRFromInterest Math_pow interestCharged principal interestScheme = Some a
              /\ (0 <=? a) = true.
Proof.
  intros I P s Hd Ha HPf HP0 HIf HI0.
  destruct (abs_finite_nonzero P HPf HP0) as (mp & ep & EP).
  destruct (abs_finite_nonzero I HIf HI0) as (mi & ei & EI).
  assert (Hr : (0 <=? Math_round (abs I / abs P * 12 * 100 * 100) / 100) = true).
  { apply sign_clear_leb.
    eapply div_sign_clear; [reflexivity|]. apply Math_round_sign_clear.
    eapply mul_sign_clear_r; [reflexivity|].
    eapply mul_sign_clear_r; [reflexivity|].
    eapply mul_sign_clear_r; [reflexivity|].
    eapply div_sign_clear; [exact EP|]. now rewrite EI. }
  unfold calculateAPRFromInterest, Math_abs. rewrite HP0, HI0. cbn [orb].
  apply String.eqb_neq in Hd, Ha. rewrite Hd, Ha.
  destruct (s =? "simple")%string; [|destruct (s =? "compound_monthly")%string];
    eexists; (split; [reflexivity | exact Hr]).
Qed.

End RateSign.

(** ** Whole cents, and the charge recovered from its rate *)

Section WholeCents.

Import Reals Lra.
Import Js Interest FloatFacts FloatOrder FloatError.
Local Open Scope string_scope.

Variable Math_pow : float -> float -> float.

Local Open Scope R_scope.

Lemma val_opp (x : float) : val (- x) = - val x.
Proof.
  unfold val. rewrite FloatAxioms.opp_spec.
  destruct (Prim2SF x) as [s|s| |s m e]; cbn; try lra.
  destruct s; cbn; lra.
Qed.

Lemma val_zero : val 0%float = 0.
Proof. reflexivity. Qed.

(** A whole number from 0 to 2^52, as a number. *)
Lemma whole_val_from_zero (n : Z) : (0 <= n <= 2 ^ 52)%Z -> val (of_Z n) = IZR n.
Proof.
  intros H. destruct (Z.eq_dec n 0) as [->|Hn]; [reflexivity|].
  apply whole_val. change (2 ^ 52)%Z with 4503599627370496%Z in H.
  change (2 ^ 53)%Z with 9007199254740992%Z. lia.
Qed.

(** [Math.round] gives a whole number, or the NaN or infinity it was given. *)
Lemma Math_round_whole (x : float) :
  finite_or_zero (Math_round x) -> exists n : Z, val (Math_round x) = IZR n.
Proof.
  unfold finite_or_zero, Math_round, val.
  destruct (Prim2SF x) as [s|s| |s m e] eqn:Ex.
  - intros _. rewrite Ex. now exists 0%Z.
  - rewrite Ex. contradiction.
  - rewrite Ex. contradiction.
  - destruct (Z.leb_spec 0 e) as [He|He].
    + intros _. rewrite Ex. cbn [val_sf].
      exists ((if s then -1 else 1) * Z.pos m * 2 ^ e)%Z.
      rewrite !mult_IZR, (bpow_IZR e He). now destruct s.
    + intros _.
      pose proof (canonical_of_float x s m e Ex) as Hc.
      destruct (canonical_small m e Hc) as (Hm & _).
      set (d := (2 ^ (- e))%Z).
      assert (Hd : (2 <= d)%Z).
      { unfold d. change 2%Z with (2 ^ 1)%Z at 1. apply Z.pow_le_mono_r; lia. }
      set (q := (Z.pos m / d)%Z).
      assert (Hq : (0 <= q < 2 ^ 52)%Z).
      { unfold q. split; [apply Z.div_pos; lia|].
        apply Z.div_lt_upper_bound; [lia|].
        change (2 ^ 53)%Z with (2 * 2 ^ 52)%Z in Hm.
        change (2 ^ 52)%Z with 4503599627370496%Z in *. nia. }
      set (up := if s then (d <? 2 * (Z.pos m mod d))%Z else (d <=? 2 * (Z.pos m mod d))%Z).
      set (n := (if up then q + 1 else q)%Z).
      assert (Hn : (0 <= n <= 2 ^ 52)%Z) by (unfold n; destruct up; lia).
      fold (val (if s then (- of_Z n)%float else of_Z n)).
      destruct s.
      * exists (- n)%Z. now rewrite val_opp, whole_val_from_zero, opp_IZR.
      * exists n. now apply whole_val_from_zero.
Qed.

(** The interest is a whole number of cents: whatever the balance, the APR,
    the scheme and the powers the platform computes, the result of
    [calculateInterest], when it is a number, has no fraction. *)
Theorem calculateInterest_whole_cents :
  forall (balance apr : float) (interestScheme frequency : string),
    finite_or_zero (calculateInterest Math_pow balance apr interestScheme frequency) ->
    exists n : Z,
      val (calculateInterest Math_pow balance apr interestScheme frequency) = IZR n.
Proof.
  intros b a s f. unfold calculateInterest.
  destruct (strict_eq (Math_abs b) 0 || strict_eq a 0); [intros _; now exists 0%Z|].
  cbv zeta.
  repeat match goal with
         | |- context [if ?c then _ else _] => destruct c
         end; apply Math_round_whole.
Qed.

End WholeCents.

Section ChargeRecovered.

Import Reals Lra.
Import Js Interest FloatFacts FloatError.
Local Open Scope string_scope.

Variable Math_pow : float -> float -> float.

Local Open Scope R_scope.

Ltac bounded := unfold near, eps in *; lra.

(** The interest before rounding for a principal up to 10^6 cents and a rate
    up to 10^13. *)
Lemma interest_before_rounding_small (P r : float) (s : string) :
  s = "simple" \/ s = "compound_monthly" ->
  pos_finite P -> pos_finite r ->
  1 <= val P <= 1000000 -> 1 / 1000 <= val r <= 10000000000000 ->
  exists U : float,
    (forall f, calculateInterest Math_pow (- P) r s f = Math_round U)
    /\ pos_finite U
    /\ val P * val r / 1200 * (1 - 4 * eps) <= val U
       <= val P * val r / 1200 * (1 + 4 * eps).
Proof.
  intros Hs FP Fr RP Rr.
  assert (F100 : pos_finite 100%float) by (apply (whole_pos_finite 100); cbn; lia).
  assert (V100 : val 100%float = 100) by (apply (whole_val 100); cbn; lia).
  assert (F12 : pos_finite 12%float) by (apply (whole_pos_finite 12); cbn; lia).
  assert (V12 : val 12%float = 12) by (apply (whole_val 12); cbn; lia).
  destruct (div_near r 100%float Fr F100 ltac:(lra) ltac:(lra)) as (F1 & N1).
  rewrite V100 in N1.
  set (p := val P) in *. set (rho := val r) in *.
  set (a1 := val (r / 100)%float) in *.
  assert (HT : 1 / 1000 <= p * rho <= 10000000000000000000) by nra.
  assert (B1 : 1 / 1000000 <= a1 <= 1000000000000) by bounded.
  destruct Hs as [-> | ->].
  - destruct (mul_near P (r / 100)%float FP F1 ltac:(fold p; lra) ltac:(fold a1; lra))
      as (F2 & N2).
    fold p a1 in N2. set (a2 := val (P * (r / 100))%float) in *.
    assert (T1 : p * rho / 100 * (1 - eps) <= p * a1 <= p * rho / 100 * (1 + eps)).
    { unfold near in N1. split.
      - replace (p * rho / 100 * (1 - eps)) with (p * (rho / 100 * (1 - eps))) by field.
        apply Rmult_le_compat_l; lra.
      - replace (p * rho / 100 * (1 + eps)) with (p * (rho / 100 * (1 + eps))) by field.
        apply Rmult_le_compat_l; lra. }
    assert (B2 : 1 / 1000000 <= a2 <= 1000000000000000000) by bounded.
    destruct (div_near (P * (r / 100))%float 12%float F2 F12
                ltac:(fold a2; lra) ltac:(lra)) as (F3 & N3).
    rewrite V12 in N3. fold a2 in N3.
    exists ((P * (r / 100)) / 12)%float. split; [|split; [exact F3|]].
    + intros f. now apply calculateInterest_simple.
    + bounded.
  - destruct (div_near (r / 100)%float 12%float F1 F12 ltac:(fold a1; lra) ltac:(lra))
      as (F2 & N2).
    rewrite V12 in N2. fold a1 in N2. set (b2 := val (r / 100 / 12)%float) in *.
    assert (B2 : 1 / 100000000 <= b2 <= 100000000000) by bounded.
    destruct (mul_near P (r / 100 / 12)%float FP F2 ltac:(fold p; lra) ltac:(fold b2; lra))
      as (F3 & N3).
    fold p b2 in N3.
    assert (T1 : p * rho / 1200 * (1 - 2 * eps) <= p * b2
                 <= p * rho / 1200 * (1 + 5 / 2 * eps)).
    { split.
      - replace (p * rho / 1200 * (1 - 2 * eps)) with (p * (rho / 1200 * (1 - 2 * eps)))
          by field.
        apply Rmult_le_compat_l; [lra | bounded].
      - replace (p * rho / 1200 * (1 + 5 / 2 * eps))
          with (p * (rho / 1200 * (1 + 5 / 2 * eps))) by field.
        apply Rmult_le_compat_l; [lra | bounded]. }
    exists (P * (r / 100 / 12))%float. split; [|split; [exact F3|]].
    + intros f. now apply calculateInterest_compound_monthly.
    + bounded.
Qed.

(** The APR computed from a charge of [n] cents on a principal up to
    119000 cents: [k / 100] for a whole [k] within half a unit of
    [120000 * n / P]. *)
Lemma apr_of_charge (P : float) (n : Z) (s : string) :
  s = "simple" \/ s = "compound_monthly" ->
  pos_finite P -> 1 <= val P <= 119000 -> (1 <= n <= 1000000000)%Z ->
  exists k : Z,
    calculateAPRFromInterest Math_pow (of_Z n) P s = Some (of_Z k / 100)%float
    /\ (1 <= k < 1000000000000000)%Z
    /\ 120000 * IZR n * (1 - 5 * eps) - val P / 2 <= val P * IZR k
       <= 120000 * IZR n * (1 + 5 * eps) + val P / 2.
Proof.
  intros Hs FP RP Hn.
  assert (Hn53 : (0 < n < 2 ^ 53)%Z).
  { change (2 ^ 53)%Z with 9007199254740992%Z. lia. }
  pose proof (whole_pos_finite n Hn53) as FI.
  pose proof (whole_val n Hn53) as VI.
  assert (F100 : pos_finite 100%float) by (apply (whole_pos_finite 100); cbn; lia).
  assert (V100 : val 100%float = 100) by (apply (whole_val 100); cbn; lia).
  assert (F12 : pos_finite 12%float) by (apply (whole_pos_finite 12); cbn; lia).
  assert (V12 : val 12%float = 12) by (apply (whole_val 12); cbn; lia).
  set (p := val P) in *. set (N := IZR n) in *.
  assert (HN : 1 <= N <= 1000000000).
  { unfold N. split; apply IZR_le; lia. }
  set (ip := / p).
  assert (Hip : 1 / 119000 <= ip <= 1).
  { assert (Hpos : 0 < ip) by (apply Rinv_0_lt_compat; lra).
    assert (Hpip : p * ip = 1) by (unfold ip; field; lra).
    split; nra. }
  set (Q := N / p).
  assert (HQp : p * Q = N) by (unfold Q; field; lra).
  assert (HQ0 : 1 / 119000 <= Q <= 1000000000).
  { change Q with (N * ip). split; nra. }
  rewrite (calculateAPRFromInterest_monthly Math_pow _ _ s Hs FI FP).
  destruct (div_near (of_Z n) P FI FP ltac:(rewrite VI; lra) ltac:(fold p; lra))
    as (F1 & N1).
  rewrite VI in N1. fold p Q in N1.
  set (q := val (of_Z n / P)%float) in *.
  assert (Bq : 1 / 1000000 <= q <= 2000000000) by bounded.
  destruct (mul_near _ 12%float F1 F12 ltac:(fold q; lra) ltac:(lra)) as (F2 & N2).
  rewrite V12 in N2. fold q in N2.
  set (w := val (of_Z n / P * 12)%float) in *.
  assert (Bw : 1 / 1000000 <= w <= 30000000000) by bounded.
  destruct (mul_near _ 100%float F2 F100 ltac:(fold w; lra) ltac:(lra)) as (F3 & N3).
  rewrite V100 in N3. fold w in N3.
  set (x := val (of_Z n / P * 12 * 100)%float) in *.
  assert (Bx : 1 / 10000 <= x <= 4000000000000) by bounded.
  destruct (mul_near _ 100%float F3 F100 ltac:(fold x; lra) ltac:(lra)) as (F4 & N4).
  rewrite V100 in N4. fold x in N4.
  set (y := val (of_Z n / P * 12 * 100 * 100)%float) in *.
  assert (By : 120000 * Q * (1 - 5 * eps) <= y <= 120000 * Q * (1 + 5 * eps)) by bounded.
  assert (B52 : bpow 52 = 4503599627370496)
    by (rewrite <- (bpow_IZR 52) by lia; reflexivity).
  destruct (Math_round_spec _ F4 ltac:(fold y; unfold eps in *; lra)) as (k & Hk & Hk0 & Bk).
  fold y in Bk. rewrite Hk.
  exists k. split; [reflexivity|]. split.
  - split.
    + assert (0 < k)%Z; [|lia]. apply lt_IZR. unfold eps in *. lra.
    + apply lt_IZR. unfold eps in *. lra.
  - assert (Hpy : 120000 * N * (1 - 5 * eps) <= p * y <= 120000 * N * (1 + 5 * eps)).
    { rewrite <- HQp. split.
      - replace (120000 * (p * Q) * (1 - 5 * eps))
          with (p * (120000 * Q * (1 - 5 * eps))) by ring.
        apply Rmult_le_compat_l; lra.
      - replace (120000 * (p * Q) * (1 + 5 * eps))
          with (p * (120000 * Q * (1 + 5 * eps))) by ring.
        apply Rmult_le_compat_l; lra. }
    assert (Hpk : p * (y - 1 / 2) <= p * IZR k <= p * (y + 1 / 2)).
    { split; apply Rmult_le_compat_l; lra. }
    lra.
Qed.

Local Open Scope float_scope.

(** The charge is recovered: for a principal from 1 to 119000 cents and a
    charge of 1 to 10^9 whole cents, the interest computed at the APR that
    [calculateAPRFromInterest] derives from the charge is the charge. *)
Theorem calculateInterest_of_derived_apr :
  forall (P : float) (n : Z) (s f : string),
    s = "simple"%string \/ s = "compound_monthly"%string ->
    (1 <=? P) = true -> (P <=? 119000) = true ->
    (1 <= n <= 1000000000)%Z ->
    exists a : float,
      calculateAPRFromInterest Math_pow (of_Z n) P s = Some a
      /\ calculateInterest Math_pow (- P) a s f = of_Z n.
Proof.
  intros P n s f Hs P1 P2 Hn.
  assert (F1 : pos_finite 1) by (apply (whole_pos_finite 1); cbn; lia).
  assert (V1 : val 1 = 1%R) by (apply (whole_val 1); cbn; lia).
  assert (Fhi : pos_finite 119000) by (apply (whole_pos_finite 119000); cbn; lia).
  assert (Vhi : val 119000 = 119000%R) by (apply (whole_val 119000); cbn; lia).
  assert (F100 : pos_finite 100) by (apply (whole_pos_finite 100); cbn; lia).
  assert (V100 : val 100 = 100%R) by (apply (whole_val 100); cbn; lia).
  pose proof (between_pos_finite _ _ P F1 Fhi P1 P2) as FP.
  pose proof (leb_val _ _ F1 FP P1) as BP1. pose proof (leb_val _ _ FP Fhi P2) as BP2.
  rewrite V1 in BP1. rewrite Vhi in BP2.
  assert (RP : (1 <= val P <= 119000)%R) by lra.
  destruct (apr_of_charge P n s Hs FP RP Hn) as (k & Ha & Hk & Bk).
  exists (of_Z k / 100). split; [exact Ha|].
  assert (Hk53 : (0 < k < 2 ^ 53)%Z).
  { change (2 ^ 53)%Z with 9007199254740992%Z. lia. }
  pose proof (whole_pos_finite k Hk53) as FK.
  pose proof (whole_val k Hk53) as VK.
  assert (HK : (1 <= IZR k <= 1000000000000000)%R).
  { split; apply IZR_le; lia. }
  assert (HN : (1 <= IZR n <= 1000000000)%R).
  { split; apply IZR_le; lia. }
  destruct (div_near (of_Z k) 100 FK F100 ltac:(rewrite VK; lra) ltac:(lra))
    as (Fv & Nv).
  rewrite VK, V100 in Nv.
  set (p := val P) in *. set (v := val (of_Z k / 100)) in *.
  assert (Hkp : (IZR k <= 130000000000000)%R).
  { apply Rmult_le_reg_l with p; [lra|]. unfold eps in *.
    apply Rle_trans with (120000 * IZR n * (1 + 5 * (1 / 1000000000000000)) + p / 2)%R;
      [lra|]. nra. }
  assert (Bv : (1 / 1000 <= v <= 10000000000000)%R) by (unfold near, eps in *; lra).
  destruct (interest_before_rounding_small P (of_Z k / 100) s Hs FP Fv
              ltac:(fold p; lra) ltac:(fold v; lra)) as (U & HU & FU & BU).
  fold p v in BU.
  assert (Hpv : (p * (IZR k / 100 * (1 - eps)) <= p * v
                 <= p * (IZR k / 100 * (1 + eps)))%R).
  { unfold near in Nv. split; apply Rmult_le_compat_l; lra. }
  assert (HU1 : (IZR n - 1 / 2 <= val U < IZR n + 1 / 2)%R).
  { unfold eps in *. split.
    - apply Rle_trans with (p * v / 1200 * (1 - 4 * (1 / 1000000000000000)))%R;
        [|lra].
      assert (p * v >= (120000 * IZR n * (1 - 5 * (1 / 1000000000000000)) - p / 2)
                       / 100 * (1 - 1 / 1000000000000000))%R by lra.
      lra.
    - apply Rle_lt_trans with (p * v / 1200 * (1 + 4 * (1 / 1000000000000000)))%R;
        [lra|].
      assert (p * v <= (120000 * IZR n * (1 + 5 * (1 / 1000000000000000)) + p / 2)
                       / 100 * (1 + 1 / 1000000000000000))%R by lra.
      lra. }
  assert (B52 : bpow 52 = 4503599627370496%R)
    by (rewrite <- (bpow_IZR 52) by lia; reflexivity).
  destruct (Math_round_spec U FU ltac:(lra)) as (n' & Hn' & _ & Bn').
  rewrite HU, Hn'. f_equal.
  assert (n - 1 < n')%Z by (apply lt_IZR; rewrite minus_IZR; lra).
  assert (n' < n + 1)%Z by (apply lt_IZR; rewrite plus_IZR; lra).
  lia.
Qed.

End ChargeRecovered.

(** ** Posting days outside the month, and posting month after month *)

Module PostingDays.

Import Dates Ranges DateFacts.
Local Open Scope string_scope.
Local Open Scope Z_scope.

(** The month after the month of a day of the range, as [addMonths] gives
    it. *)
Lemma addMonths_next (y m d : Z) :
  1000 <= y <= 9998 -> 1 <= m <= 12 -> 1 <= d <= 31 ->
  addMonths (show_day y m d) 1 = Some (show_month (next_year y m) (next_month m)).
Proof.
  intros Hy Hm Hd. unfold addMonths.
  rewrite (parse_date_show_day y m d ltac:(lia) Hm Hd), (shift_month_next y m Hm).
  reflexivity.
Qed.

(** The result for any posting day, before the day is clamped. *)
Lemma getNextInterestDate_day (today : string) (y m d p : Z) :
  1000 <= y <= 9998 -> 1 <= m <= 12 -> 1 <= d <= 31 ->
  getNextInterestDate today (Some p) (Some (show_day y m d))
  = Some (show_month (next_year y m) (next_month m) ++ "-"
          ++ padStart 2 "0"
               (String_of_Z (Z.min p (days_in_month (next_year y m) (next_month m))))).
Proof.
  intros Hy Hm Hd.
  pose proof (next_year_range y m Hy) as Hy'.
  pose proof (next_month_range m Hm) as Hm'.
  unfold getNextInterestDate.
  rewrite show_day_not_empty, (addMonths_next y m d Hy Hm Hd).
  destruct (slices_show_month _ _ Hy' Hm') as (-> & ->).
  rewrite (Date_last_day_of_month _ _ Hy' Hm'). cbn [Math_min show_number].
  destruct (year_facts _ Hy') as (_ & _ & _ & Ey).
  unfold show_month. rewrite Ey, !append_assoc. reflexivity.
Qed.

(** The day of the month a posting day stands for in a month. *)
Definition day_in_month (postingDay : option Z) (y m : Z) : Z :=
  match postingDay with
  | Some p => Z.min p (days_in_month y m)
  | None => days_in_month y m
  end.

(** One posting date from the one before, for a posting day of the calendar. *)
Lemma getNextInterestDate_step (today : string) (postingDay : option Z) (y m d : Z) :
  1000 <= y <= 9998 -> 1 <= m <= 12 -> 1 <= d <= 31 ->
  match postingDay with Some p => 1 <= p <= 31 | None => True end ->
  getNextInterestDate today postingDay (Some (show_day y m d))
  = Some (show_day (next_year y m) (next_month m)
            (day_in_month postingDay (next_year y m) (next_month m)))
  /\ 1 <= day_in_month postingDay (next_year y m) (next_month m) <= 31.
Proof.
  intros Hy Hm Hd Hp.
  pose proof (days_in_month_range (next_year y m) (next_month m)) as Hdim.
  destruct postingDay as [p|]; cbn [day_in_month].
  - split; [|lia]. now rewrite (getNextInterestDate_day today y m d p Hy Hm Hd).
  - split; [|lia].
    pose proof (next_year_range y m Hy) as Hy'.
    pose proof (next_month_range m Hm) as Hm'.
    unfold getNextInterestDate.
    rewrite show_day_not_empty, (addMonths_next y m d Hy Hm Hd).
    unfold lastDayOfMonth. now rewrite (parse_date_show_month _ _ Hy' Hm').
Qed.

(** A posting day past the end of the target month, in particular any day
    from 31 on, gives the last day of that month: the result is the one for
    a null posting day. *)
Theorem getNextInterestDate_day_past_end :
  forall (today : string) (y m d p : Z),
    1000 <= y <= 9998 -> 1 <= m <= 12 -> 1 <= d <= 31 ->
    days_in_month (next_year y m) (next_month m) <= p ->
    getNextInterestDate today (Some p) (Some (show_day y m d))
    = getNextInterestDate today None (Some (show_day y m d))
    /\ getNextInterestDate today (Some p) (Some (show_day y m d))
       = Some (show_day (next_year y m) (next_month m)
                 (days_in_month (next_year y m) (next_month m))).
Proof.
  intros today y m d p Hy Hm Hd Hp.
  pose proof (next_year_range y m Hy) as Hy'.
  pose proof (next_month_range m Hm) as Hm'.
  assert (E : getNextInterestDate today (Some p) (Some (show_day y m d))
              = Some (show_day (next_year y m) (next_month m)
                        (days_in_month (next_year y m) (next_month m)))).
  { rewrite (getNextInterestDate_day today y m d p Hy Hm Hd).
    rewrite Z.min_r by exact Hp. reflexivity. }
  split; [|exact E]. rewrite E.
  unfold getNextInterestDate.
  rewrite show_day_not_empty, (addMonths_next y m d Hy Hm Hd).
  unfold lastDayOfMonth. now rewrite (parse_date_show_month _ _ Hy' Hm').
Qed.

(** A posting day of 0 or below is not clamped: the day of the result is the
    text of that number, [00] for 0, which is not a day of the month, and so
    not the last day that a null posting day gives. *)
Theorem getNextInterestDate_day_not_positive :
  forall (today : string) (y m d : Z),
    1000 <= y <= 9998 -> 1 <= m <= 12 -> 1 <= d <= 31 ->
    (forall p : Z,
        p <= 0 ->
        getNextInterestDate today (Some p) (Some (show_day y m d))
        = Some (show_month (next_year y m) (next_month m) ++ "-"
                ++ padStart 2 "0" (String_of_Z p)))
    /\ getNextInterestDate today (Some 0) (Some (show_day y m d))
       = Some (show_month (next_year y m) (next_month m) ++ "-00")
    /\ getNextInterestDate today (Some 0) (Some (show_day y m d))
       <> getNextInterestDate today None (Some (show_day y m d)).
Proof.
  intros today y m d Hy Hm Hd.
  pose proof (next_year_range y m Hy) as Hy'.
  pose proof (next_month_range m Hm) as Hm'.
  pose proof (days_in_month_range (next_year y m) (next_month m)) as Hdim.
  assert (E : forall p, p <= 0 ->
              getNextInterestDate today (Some p) (Some (show_day y m d))
              = Some (show_month (next_year y m) (next_month m) ++ "-"
                      ++ padStart 2 "0" (String_of_Z p))).
  { intros p Hp. rewrite (getNextInterestDate_day today y m d p Hy Hm Hd).
    now rewrite Z.min_l by lia. }
  split; [exact E|]. split; [apply (E 0); lia|].
  rewrite (E 0) by lia.
  destruct (getNextInterestDate_step today None y m d Hy Hm Hd I) as (-> & _).
  cbn [day_in_month].
    unfold show_day. intros H. injection H as H.
    apply (f_equal (fun s => substring (String.length
                      (show_month (next_year y m) (next_month m))) 3 s)) in H.
    rewrite !substring_app_r in H.
    set (dim := days_in_month (next_year y m) (next_month m)) in *.
    assert (Hc : dim = 28 \/ dim = 29 \/ dim = 30 \/ dim = 31) by lia.
    destruct Hc as [-> | [-> | [-> | ->]]]; vm_compute in H; discriminate.
Qed.

(** The posting date [n] postings after a day: each one is computed from the
    one before it. *)
Fixpoint posting_date_after (today : string) (postingDay : option Z) (n : nat)
    (from : string) : option string :=
  match n with
  | O => Some from
  | S k =>
      match getNextInterestDate today postingDay (Some from) with
      | Some next => posting_date_after today postingDay k next
      | None => None
      end
  end.

Lemma shift_month_after_next (y m k : Z) :
  1 <= m <= 12 ->
  shift_month (next_year y m) (next_month m) k = shift_month y m (k + 1).
Proof.
  intros Hm. unfold shift_month, next_year, next_month.
  destruct (Z.eqb_spec m 12) as [->|Hne].
  - replace ((y + 1) * 12 + (1 - 1) + k) with (y * 12 + (12 - 1) + (k + 1)) by lia.
    reflexivity.
  - replace (y * 12 + (m + 1 - 1) + k) with (y * 12 + (m - 1) + (k + 1)) by lia.
    reflexivity.
Qed.

(** Posting month after month does not drift: the [n]-th posting date after
    a day lies [n] months after the month of that day, on the posting day or,
    where the month is shorter or the posting day null, on the last day of
    that month, whatever the days of the postings before it were. *)
Theorem posting_date_after_months :
  forall (today : string) (postingDay : option Z) (n : nat) (y m d : Z),
    1000 <= y -> 1 <= m <= 12 -> 1 <= d <= 31 ->
    match postingDay with Some p => 1 <= p <= 31 | None => True end ->
    (0 < n)%nat ->
    y * 12 + (m - 1) + Z.of_nat n < 9999 * 12 ->
    posting_date_after today postingDay n (show_day y m d)
    = Some (show_day (fst (shift_month y m (Z.of_nat n)))
              (snd (shift_month y m (Z.of_nat n)))
              (day_in_month postingDay (fst (shift_month y m (Z.of_nat n)))
                 (snd (shift_month y m (Z.of_nat n))))).
Proof.
  intros today postingDay n. induction n as [|k IH]; intros y m d Hy Hm Hd Hp Hn Hlast.
  - lia.
  - assert (Hy2 : 1000 <= y <= 9998) by lia.
    destruct (getNextInterestDate_step today postingDay y m d Hy2 Hm Hd Hp) as (E & Hday).
    cbn [posting_date_after]. rewrite E.
    destruct k as [|k'].
    + cbn [posting_date_after]. change (Z.of_nat 1) with 1.
      now rewrite (shift_month_next y m Hm).
    + pose proof (next_month_range m Hm) as Hm'.
      assert (Hny : next_year y m * 12 + (next_month m - 1) = y * 12 + (m - 1) + 1).
      { unfold next_year, next_month. destruct (Z.eqb_spec m 12); lia. }
      assert (Hy' : 1000 <= next_year y m).
      { unfold next_year. destruct (m =? 12); lia. }
      rewrite (IH (next_year y m) (next_month m) _ Hy' Hm' Hday Hp ltac:(lia) ltac:(lia)).
      rewrite (shift_month_after_next y m (Z.of_nat (S k')) Hm).
      replace (Z.of_nat (S k') + 1) with (Z.of_nat (S (S k'))) by lia.
      reflexivity.
Qed.

End PostingDays.

(** ** The life cycle of a schedule *)

Section ScheduleLifeCycle.

Import Js Ledger Automation.
Local Open Scope string_scope.

Variable uuid_of : nat -> string.
Variable toDateRepr : string -> Z.

Lemma governing_nil_find (d : database) (acct : string) :
  governing d acct = [] -> find (governs d acct) (schedules d) = None.
Proof.
  unfold governing. induction (schedules d) as [|s l IH]; [reflexivity|].
  cbn. destruct (governs d acct s); [discriminate | exact IH].
Qed.

Lemma find_none_governing (d : database) (acct : string) :
  find (governs d acct) (schedules d) = None -> governing d acct = [].
Proof.
  unfold governing. induction (schedules d) as [|s l IH]; [reflexivity|].
  cbn. destruct (governs d acct s); [discriminate | exact IH].
Qed.

(** Without a schedule on the account, [deleteInterestSchedule] does
    nothing: it returns normally and the store is as it was. *)
Theorem deleteInterestSchedule_without_schedule :
  forall (acct : string) (w : world),
    governing (db w) acct = [] -> deleteInterestSchedule acct w = (Ok tt, w).
Proof.
  intros acct w H. apply governing_nil_find in H.
  unfold deleteInterestSchedule, bind, query, select_schedule, ret.
  now rewrite H.
Qed.

(** Fewer rules and conditions match fewer schedules. *)
Lemma existsb_filter_le {A} (f g : A -> bool) (l : list A) :
  existsb f (filter g l) = true -> existsb f l = true.
Proof.
  rewrite !existsb_exists. intros (x & Hin & Hf).
  apply filter_In in Hin. exists x. now split.
Qed.

Lemma governs_after_delete (d d' : database) (acct rule : string) (s : schedule) :
  rules d' = delete_rows rule_id rule (rules d) ->
  rule_conditions d' = delete_rows rc_rule rule (rule_conditions d) ->
  governs d' acct s = true -> governs d acct s = true /\ sch_rule s <> rule.
Proof.
  intros Hr Hc. unfold governs. rewrite Hr, !existsb_exists.
  intros (r & Hin & Hm). unfold delete_rows in Hin. apply filter_In in Hin.
  destruct Hin as (Hin & Hne). unfold rule_matches in Hm.
  apply andb_prop in Hm. destruct Hm as (Hm & Hex).
  apply andb_prop in Hm. destruct Hm as (Hid & Hst).
  apply String.eqb_eq in Hid. split.
  - exists r. split; [exact Hin|]. unfold rule_matches.
    rewrite Hid, String.eqb_refl, Hst. cbn [andb].
    rewrite Hc in Hex. unfold delete_rows in Hex. now apply existsb_filter_le in Hex.
  - rewrite <- Hid. intros E. rewrite E, String.eqb_refl in Hne. discriminate.
Qed.

Lemma governing_after_delete (d d' : database) (acct : string) (s : schedule) :
  schedules d' = delete_rows sch_id (sch_id s) (schedules d) ->
  rules d' = delete_rows rule_id (sch_rule s) (rules d) ->
  rule_conditions d' = delete_rows rc_rule (sch_rule s) (rule_conditions d) ->
  forall x, In x (governing d' acct) ->
            In x (governing d acct) /\ sch_id x <> sch_id s.
Proof.
  intros Hs Hr Hc x Hin. unfold governing in Hin. apply filter_In in Hin.
  destruct Hin as (Hin & Hg). rewrite Hs in Hin. unfold delete_rows in Hin.
  apply filter_In in Hin. destruct Hin as (Hin & Hne).
  apply governs_after_delete with (d := d) (rule := sch_rule s) in Hg;
    [|exact Hr|exact Hc].
  split.
  - unfold governing. apply filter_In. now split.
  - intros E. rewrite E, String.eqb_refl in Hne. discriminate.
Qed.

(** The tables after a deletion that found the schedule row [s]. *)
Lemma deleteInterestSchedule_tables (acct : string) (w : world) (s : schedule) :
  find (governs (db w) acct) (schedules (db w)) = Some s ->
  exists w' : world,
    deleteInterestSchedule acct w = (Ok tt, w')
    /\ uuid_count w' = uuid_count w
    /\ accounts (db w') = accounts (db w)
    /\ transactions (db w') = transactions (db w)
    /\ payees (db w') = payees (db w)
    /\ categories (db w') = categories (db w)
    /\ schedules (db w') = delete_rows sch_id (sch_id s) (schedules (db w))
    /\ rules (db w') = delete_rows rule_id (sch_rule s) (rules (db w))
    /\ rule_conditions (db w')
       = delete_rows rc_rule (sch_rule s) (rule_conditions (db w))
    /\ rule_actions (db w') = delete_rows ra_rule (sch_rule s) (rule_actions (db w))
    /\ schedules_next_date (db w')
       = delete_rows nd_id (sch_id s) (schedules_next_date (db w)).
Proof.
  intros Hf.
  unfold deleteInterestSchedule, bind, query, select_schedule, ret, delete_next_date,
    delete_schedule, delete_rule_conditions, delete_rule_actions, delete_rule, modify.
  rewrite Hf. cbv beta iota zeta. cbn [db uuid_count].
  eexists. split; [reflexivity|]. cbn. repeat split; reflexivity.
Qed.

(** What [deleteInterestSchedule] removes when the lookup finds the schedule
    row [s]: the schedule rows with the id of [s], the rules with the id of
    its rule, the conditions and the actions of that rule, and the next-date
    rows whose own id is the id of [s]; every other row stays, in its place,
    and no other table changes.  The rows that govern the account afterwards
    governed it before and are other rows than [s]: the account is free when
    [s] was the only one. *)
Theorem deleteInterestSchedule_found :
  forall (acct : string) (w : world) (s : schedule),
    find (governs (db w) acct) (schedules (db w)) = Some s ->
    exists w' : world,
      deleteInterestSchedule acct w = (Ok tt, w')
      /\ uuid_count w' = uuid_count w
      /\ accounts (db w') = accounts (db w)
      /\ transactions (db w') = transactions (db w)
      /\ payees (db w') = payees (db w)
      /\ categories (db w') = categories (db w)
      /\ schedules (db w') = delete_rows sch_id (sch_id s) (schedules (db w))
      /\ rules (db w') = delete_rows rule_id (sch_rule s) (rules (db w))
      /\ rule_conditions (db w')
         = delete_rows rc_rule (sch_rule s) (rule_conditions (db w))
      /\ rule_actions (db w') = delete_rows ra_rule (sch_rule s) (rule_actions (db w))
      /\ schedules_next_date (db w')
         = delete_rows nd_id (sch_id s) (schedules_next_date (db w))
      /\ (forall x, In x (governing (db w') acct) ->
                    In x (governing (db w) acct) /\ sch_id x <> sch_id s)
      /\ (governing (db w) acct = [s] -> governing (db w') acct = []).
Proof.
  intros acct w s Hf.
  destruct (deleteInterestSchedule_tables acct w s Hf)
    as (w' & H0 & H1 & H2 & H3 & H4 & H5 & H6 & H7 & H8 & H9 & H10).
  exists w'. repeat (split; [assumption|]).
  pose proof (governing_after_delete (db w) (db w') acct s H6 H7 H8) as Hsub.
  split; [exact Hsub|].
  intros Hone. destruct (governing (db w') acct) as [|x r] eqn:El; [reflexivity|].
  exfalso. destruct (Hsub x) as (Hin & Hne); [now left|].
  rewrite Hone in Hin. destruct Hin as [<- | []]. now apply Hne.
Qed.

(** *** What a creation writes *)

(** The index of the identifier the store gives the condition of a new
    rule: the schedule and the rule take the first two, and the payee the
    third when it has to be created. *)
Definition condition_index (w : world) : nat :=
  match select_payee (db w) "Interest Charge" with
  | Some _ => 2 + uuid_count w
  | None => 3 + uuid_count w
  end.

(** The payee of the interest transactions: the one found, or the one
    created. *)
Definition interest_payee (w : world) : string :=
  match select_payee (db w) "Interest Charge" with
  | Some id => id
  | None => uuid_of (2 + uuid_count w)
  end.

Definition created_payees (w : world) : list payee :=
  match select_payee (db w) "Interest Charge" with
  | Some _ => []
  | None => [{| payee_id := uuid_of (2 + uuid_count w); payee_name := "Interest Charge" |}]
  end.

Definition created_actions (p : InterestScheduleParams) (w : world) : list rule_action :=
  let rule := uuid_of (S (uuid_count w)) in
  let k := condition_index w in
  [ {| ra_id := uuid_of (1 + k); ra_rule := rule; ra_field := "payee"; ra_op := "set";
       ra_value := AText (interest_payee w) |};
    {| ra_id := uuid_of (2 + k); ra_rule := rule; ra_field := "category"; ra_op := "set";
       ra_value := AText (interestCategoryId p) |};
    {| ra_id := uuid_of (3 + k); ra_rule := rule; ra_field := "debt_interest_config";
       ra_op := "set"; ra_value := config_of p |} ].

Definition created_next_date (e : env) (w : world) (nextDate : string) : next_date :=
  {| nd_id := uuid_of (4 + condition_index w);
     nd_schedule_id := uuid_of (uuid_count w);
     nd_local_next_date := toDateRepr nextDate; nd_local_next_date_ts := now e;
     nd_base_next_date := toDateRepr nextDate; nd_base_next_date_ts := now e |}.

Lemma setupInterestSchedule_writes
    (e : env) (p : InterestScheduleParams) (w : world) (nextDate : string) :
  find (governs (db w) (accountId p)) (schedules (db w)) = None ->
  Dates.getNextInterestDate (today e) (interestPostingDay p) None = Some nextDate ->
  exists w' : world,
    setupInterestSchedule uuid_of toDateRepr e p w = (Ok (uuid_of (uuid_count w)), w')
    /\ uuid_count w' = (5 + condition_index w)%nat
    /\ accounts (db w') = accounts (db w)
    /\ transactions (db w') = transactions (db w)
    /\ categories (db w') = categories (db w)
    /\ payees (db w') = (payees (db w) ++ created_payees w)%list
    /\ rules (db w') = (rules (db w) ++ [created_rule uuid_of (uuid_count w)])%list
    /\ rule_conditions (db w')
       = (rule_conditions (db w)
          ++ [created_condition uuid_of p (uuid_count w) (uuid_of (condition_index w))])%list
    /\ rule_actions (db w') = (rule_actions (db w) ++ created_actions p w)%list
    /\ schedules (db w')
       = (schedules (db w) ++ [created_schedule uuid_of p (uuid_count w)])%list
    /\ schedules_next_date (db w')
       = (schedules_next_date (db w) ++ [created_next_date e w nextDate])%list.
Proof.
  intros Hf Hd.
  unfold setupInterestSchedule, bind, query, select_schedule, ret, uuidv4, insertPayee,
    insert_rule, insert_rule_condition, insert_rule_action, insert_schedule,
    insertWithUUID_next_date, nextInterestDate, modify, bind, uuidv4, ret.
  rewrite Hf, Hd. cbv beta iota zeta. cbn [db uuid_count].
  unfold created_payees, created_actions, created_next_date, condition_index,
    interest_payee.
  destruct (select_payee (db w) "Interest Charge") as [pid|];
    cbv beta iota zeta; cbn [db uuid_count];
    eexists; (split; [reflexivity|]); cbn; rewrite ?app_nil_r, <- ?app_assoc;
    repeat split; reflexivity.
Qed.

Lemma find_app_skip {A} (f : A -> bool) (l l' : list A) :
  (forall a, In a l -> f a = false) -> find f (l ++ l') = find f l'.
Proof.
  induction l as [|x l IH]; intros H; [reflexivity|].
  cbn. rewrite (H x (or_introl eq_refl)). apply IH. intros a Ha. apply H. now right.
Qed.

Lemma governing_nil_all (d : database) (acct : string) :
  governing d acct = [] -> forall s, In s (schedules d) -> governs d acct s = false.
Proof.
  unfold governing. intros H s Hin.
  destruct (governs d acct s) eqn:E; [|reflexivity].
  assert (Hf : In s (filter (governs d acct) (schedules d))) by (apply filter_In; now split).
  rewrite H in Hf. destruct Hf.
Qed.

Lemma select_payee_after (w : world) (l : list payee) :
  l = (payees (db w) ++ created_payees w)%list ->
  match find (fun q => payee_name q =? "Interest Charge") l with
  | Some q => Some (payee_id q)
  | None => None
  end = Some (interest_payee w).
Proof.
  intros ->. unfold created_payees, interest_payee, select_payee.
  destruct (find (fun q => payee_name q =? "Interest Charge") (payees (db w)))
    as [q|] eqn:E.
  - now rewrite app_nil_r, E.
  - rewrite find_app_skip; [reflexivity|].
    intros a Ha. destruct (payee_name a =? "Interest Charge") eqn:Ea; [|reflexivity].
    exfalso. eapply find_none in E; [|exact Ha]. cbv beta in E. congruence.
Qed.

(** The action of the rule [rule] on [field] that [select_action] reads. *)
Definition action_of (d : database) (rule field : string) : option rule_action :=
  find (fun a => (ra_rule a =? rule) && (ra_field a =? field)) (rule_actions d).

(** On a store where no schedule governs the account, [setupInterestSchedule]
    returns a new identifier and writes one rule, one condition on the
    account, the three actions, one schedule and one next-date row after the
    rows that are there, and the payee [Interest Charge] when there is none;
    accounts, transactions and categories are not touched.  What was
    written is what the lookups read back: the schedule of the account is
    the new one, and the actions of its rule hold the payee, the category
    and the interest parameters of the call.  (The identifier of the new
    rule is assumed to be the rule of no schedule and of no action of the
    store.) *)
Theorem setupInterestSchedule_new_schedule :
  forall (e : env) (p : InterestScheduleParams) (w : world) (nextDate : string),
    governing (db w) (accountId p) = [] ->
    Dates.getNextInterestDate (today e) (interestPostingDay p) None = Some nextDate ->
    (forall s, In s (schedules (db w)) -> sch_rule s <> uuid_of (S (uuid_count w))) ->
    (forall a, In a (rule_actions (db w)) -> ra_rule a <> uuid_of (S (uuid_count w))) ->
    exists w' : world,
      setupInterestSchedule uuid_of toDateRepr e p w = (Ok (uuid_of (uuid_count w)), w')
      /\ accounts (db w') = accounts (db w)
      /\ transactions (db w') = transactions (db w)
      /\ categories (db w') = categories (db w)
      /\ payees (db w') = (payees (db w) ++ created_payees w)%list
      /\ rules (db w') = (rules (db w) ++ [created_rule uuid_of (uuid_count w)])%list
      /\ rule_conditions (db w')
         = (rule_conditions (db w)
            ++ [created_condition uuid_of p (uuid_count w)
                  (uuid_of (condition_index w))])%list
      /\ rule_actions (db w') = (rule_actions (db w) ++ created_actions p w)%list
      /\ schedules (db w')
         = (schedules (db w) ++ [created_schedule uuid_of p (uuid_count w)])%list
      /\ schedules_next_date (db w')
         = (schedules_next_date (db w) ++ [created_next_date e w nextDate])%list
      /\ select_schedule (db w') (accountId p)
         = Some (uuid_of (uuid_count w), uuid_of (S (uuid_count w)))
      /\ select_payee (db w') "Interest Charge" = Some (interest_payee w)
      /\ option_map ra_value (action_of (db w') (uuid_of (S (uuid_count w))) "payee")
         = Some (AText (interest_payee w))
      /\ option_map ra_value (action_of (db w') (uuid_of (S (uuid_count w))) "category")
         = Some (AText (interestCategoryId p))
      /\ option_map ra_value
           (action_of (db w') (uuid_of (S (uuid_count w))) "debt_interest_config")
         = Some (config_of p).
Proof.
  intros e p w nextDate Hnone Hd Hfs Hfa.
  pose proof (governing_nil_find _ _ Hnone) as Hf.
  destruct (setupInterestSchedule_writes e p w nextDate Hf Hd)
    as (w' & H0 & H1 & H2 & H3 & H4 & H5 & H6 & H7 & H8 & H9 & H10).
  exists w'. repeat (split; [assumption|]).
  assert (Hskip : forall field a, In a (rule_actions (db w)) ->
            (ra_rule a =? uuid_of (S (uuid_count w))) && (ra_field a =? field) = false).
  { intros field a Ha. apply Hfa in Ha. apply String.eqb_neq in Ha. now rewrite Ha. }
  split; [|split; [|split; [|split]]].
  - destruct (governs_after_creation uuid_of (db w) (db w') p (uuid_count w)
                (uuid_of (condition_index w)) H9 H6 H7 Hfs) as (Hold & Hnew).
    unfold select_schedule. rewrite H9.
    rewrite (find_app_none (governs (db w') (accountId p)) (schedules (db w))
               (created_schedule uuid_of p (uuid_count w))); [reflexivity| |exact Hnew].
    intros s Hs. rewrite (Hold s Hs). now apply governing_nil_all.
  - unfold select_payee. now apply select_payee_after.
  - unfold action_of. rewrite H8, (find_app_skip _ _ _ (Hskip "payee")).
    cbn. now rewrite String.eqb_refl.
  - unfold action_of. rewrite H8, (find_app_skip _ _ _ (Hskip "category")).
    cbn. now rewrite String.eqb_refl.
  - unfold action_of. rewrite H8, (find_app_skip _ _ _ (Hskip "debt_interest_config")).
    cbn. now rewrite String.eqb_refl.
Qed.

Lemma delete_rows_app_last {A} (key : A -> string) (v : string) (l l' : list A) :
  (forall x, In x l -> key x <> v) -> (forall x, In x l' -> key x = v) ->
  delete_rows key v (l ++ l') = l.
Proof.
  intros Hl Hl'. unfold delete_rows. rewrite filter_app.
  rewrite (filter_none _ l').
  - rewrite app_nil_r. induction l as [|x l IH]; [reflexivity|].
    cbn. assert (E : (key x =? v) = false) by (apply String.eqb_neq, Hl; now left).
    rewrite E. cbn. f_equal. apply IH. intros y Hy. apply Hl. now right.
  - intros a Ha. rewrite (Hl' a Ha), String.eqb_refl. reflexivity.
Qed.

Lemma delete_rows_none {A} (key : A -> string) (v : string) (l : list A) :
  (forall x, In x l -> key x <> v) -> delete_rows key v l = l.
Proof.
  intros H. rewrite <- (app_nil_r l) at 1. apply delete_rows_app_last; [exact H|].
  intros x [].
Qed.

(** A schedule created and deleted again: [deleteInterestSchedule] takes
    back the schedule, the rule, the condition and the three actions, so that
    these four tables are what they were and no schedule governs the
    account; the payee [Interest Charge] stays, and so does the next-date
    row, which [deleteInterestSchedule] looks for under the identifier of
    the schedule while the row has an identifier of its own.  (The
    identifiers of the new schedule and rule are assumed to be new to the
    store, and the identifiers drawn later to differ from the schedule's.) *)
Theorem setupInterestSchedule_then_delete :
  forall (e : env) (p : InterestScheduleParams) (w : world) (nextDate : string),
    governing (db w) (accountId p) = [] ->
    Dates.getNextInterestDate (today e) (interestPostingDay p) None = Some nextDate ->
    (forall s, In s (schedules (db w)) ->
               sch_id s <> uuid_of (uuid_count w)
               /\ sch_rule s <> uuid_of (S (uuid_count w))) ->
    (forall r, In r (rules (db w)) -> rule_id r <> uuid_of (S (uuid_count w))) ->
    (forall c, In c (rule_conditions (db w)) -> rc_rule c <> uuid_of (S (uuid_count w))) ->
    (forall a, In a (rule_actions (db w)) -> ra_rule a <> uuid_of (S (uuid_count w))) ->
    (forall n, In n (schedules_next_date (db w)) -> nd_id n <> uuid_of (uuid_count w)) ->
    (forall k, (uuid_count w < k)%nat -> uuid_of k <> uuid_of (uuid_count w)) ->
    exists (id : string) (w1 w2 : world),
      setupInterestSchedule uuid_of toDateRepr e p w = (Ok id, w1)
      /\ deleteInterestSchedule (accountId p) w1 = (Ok tt, w2)
      /\ schedules (db w2) = schedules (db w)
      /\ rules (db w2) = rules (db w)
      /\ rule_conditions (db w2) = rule_conditions (db w)
      /\ rule_actions (db w2) = rule_actions (db w)
      /\ governing (db w2) (accountId p) = []
      /\ payees (db w2) = (payees (db w) ++ created_payees w)%list
      /\ schedules_next_date (db w2)
         = (schedules_next_date (db w) ++ [created_next_date e w nextDate])%list
      /\ nd_schedule_id (created_next_date e w nextDate) = id.
Proof.
  intros e p w nextDate Hnone Hd Hfs Hfr Hfc Hfa Hfn Hdist.
  pose proof (governing_nil_find _ _ Hnone) as Hf.
  destruct (setupInterestSchedule_writes e p w nextDate Hf Hd)
    as (w1 & H0 & H1 & H2 & H3 & H4 & H5 & H6 & H7 & H8 & H9 & H10).
  set (cs := created_schedule uuid_of p (uuid_count w)) in *.
  assert (Hfs2 : forall s, In s (schedules (db w)) -> sch_rule s <> uuid_of (S (uuid_count w)))
    by (intros s Hs; apply (Hfs s Hs)).
  destruct (governs_after_creation uuid_of (db w) (db w1) p (uuid_count w)
              (uuid_of (condition_index w)) H9 H6 H7 Hfs2) as (Hold & Hnew).
  assert (Hfind : find (governs (db w1) (accountId p)) (schedules (db w1)) = Some cs).
  { rewrite H9. apply find_app_none; [|exact Hnew].
    intros s Hs. rewrite (Hold s Hs). now apply governing_nil_all. }
  destruct (deleteInterestSchedule_tables (accountId p) w1 cs Hfind)
    as (w2 & D0 & D1 & D2 & D3 & D4 & D5 & D6 & D7 & D8 & D9 & D10).
  exists (uuid_of (uuid_count w)), w1, w2.
  split; [exact H0|]. split; [exact D0|].
  assert (Es : schedules (db w2) = schedules (db w)).
  { rewrite D6, H9. apply delete_rows_app_last.
    - intros s Hs. apply (Hfs s Hs).
    - intros s [<- | []]. reflexivity. }
  assert (Er : rules (db w2) = rules (db w)).
  { rewrite D7, H6. apply delete_rows_app_last; [exact Hfr|].
    intros r [<- | []]. reflexivity. }
  assert (Ec : rule_conditions (db w2) = rule_conditions (db w)).
  { rewrite D8, H7. apply delete_rows_app_last; [exact Hfc|].
    intros c [<- | []]. reflexivity. }
  split; [exact Es|]. split; [exact Er|]. split; [exact Ec|]. split.
  { rewrite D9, H8. apply delete_rows_app_last; [exact Hfa|].
    intros a [<- | [<- | [<- | []]]]; reflexivity. }
  split.
  { destruct (governing_ext (db w) (db w2) (accountId p) Es Er Ec) as (G & _).
    now rewrite G. }
  split; [now rewrite D4|]. split; [|reflexivity].
  rewrite D10, H10. apply delete_rows_none.
  intros n Hn. apply in_app_or in Hn. destruct Hn as [Hn | [<- | []]].
  - now apply Hfn.
  - cbn [created_next_date nd_id cs created_schedule sch_id]. apply Hdist.
    unfold condition_index. destruct (select_payee (db w) "Interest Charge"); lia.
Qed.

(** *** Other accounts *)

Lemma governs_old_after_creation
    (d d' : database) (p : InterestScheduleParams) (n : nat) (cid acct : string)
    (s : schedule) :
  rules d' = (rules d ++ [created_rule uuid_of n])%list ->
  rule_conditions d'
  = (rule_conditions d ++ [created_condition uuid_of p n cid])%list ->
  sch_rule s <> uuid_of (S n) ->
  governs d' acct s = governs d acct s.
Proof.
  intros Hr Hc Hfresh. unfold governs. rewrite Hr, existsb_app. cbn [existsb].
  assert (Hnew : rule_matches d' acct s (created_rule uuid_of n) = false).
  { unfold rule_matches. cbn [created_rule rule_id].
    apply String.eqb_neq in Hfresh. rewrite String.eqb_sym in Hfresh.
    now rewrite Hfresh. }
  rewrite Hnew, !orb_false_r.
  apply existsb_ext_in. intros r _. unfold rule_matches.
  destruct (rule_id r =? sch_rule s) eqn:E; [|reflexivity].
  apply String.eqb_eq in E. cbn [andb]. f_equal.
  rewrite Hc, existsb_app. cbn [existsb].
  unfold condition_matches at 2. cbn [created_condition rc_rule].
  assert (E' : (uuid_of (S n) =? rule_id r) = false).
  { apply String.eqb_neq. congruence. }
  rewrite E'. cbn. now rewrite orb_false_r.
Qed.

Lemma governs_new_other_account
    (d d' : database) (p : InterestScheduleParams) (n : nat) (cid acct : string) :
  rule_conditions d'
  = (rule_conditions d ++ [created_condition uuid_of p n cid])%list ->
  (forall c, In c (rule_conditions d) -> rc_rule c <> uuid_of (S n)) ->
  acct <> accountId p ->
  governs d' acct (created_schedule uuid_of p n) = false.
Proof.
  intros Hc Hfresh Hne. unfold governs.
  destruct (existsb _ (rules d')) eqn:E; [|reflexivity]. exfalso.
  apply existsb_exists in E. destruct E as (r & _ & Hm).
  unfold rule_matches in Hm. cbn [created_schedule sch_rule] in Hm.
  apply andb_prop in Hm. destruct Hm as (Hm & Hex).
  apply andb_prop in Hm. destruct Hm as (Hid & _). apply String.eqb_eq in Hid.
  apply existsb_exists in Hex. destruct Hex as (c & Hin & Hcm).
  unfold condition_matches in Hcm.
  apply andb_prop in Hcm. destruct Hcm as (Hcm & Hv).
  apply andb_prop in Hcm. destruct Hcm as (Hrule & _).
  apply String.eqb_eq in Hrule, Hv.
  rewrite Hc in Hin. apply in_app_or in Hin. destruct Hin as [Hin | [<- | []]].
  - apply (Hfresh c Hin). congruence.
  - cbn in Hv. congruence.
Qed.

(** [setupInterestSchedule] for one account leaves the schedules of every
    other account: what the lookup selects for another account is what it
    selected before.  (The identifier of the new rule is assumed to be the
    rule of no schedule and of no condition of the store.) *)
Theorem setupInterestSchedule_other_account :
  forall (e : env) (p : InterestScheduleParams) (w : world) (nextDate acct : string),
    acct <> accountId p ->
    Dates.getNextInterestDate (today e) (interestPostingDay p) None = Some nextDate ->
    (forall s, In s (schedules (db w)) -> sch_rule s <> uuid_of (S (uuid_count w))) ->
    (forall c, In c (rule_conditions (db w)) -> rc_rule c <> uuid_of (S (uuid_count w))) ->
    exists (id : string) (w' : world),
      setupInterestSchedule uuid_of toDateRepr e p w = (Ok id, w')
      /\ governing (db w') acct = governing (db w) acct
      /\ select_schedule (db w') acct = select_schedule (db w) acct.
Proof.
  intros e p w nextDate acct Hne Hd Hfs Hfc.
  destruct (find (governs (db w) (accountId p)) (schedules (db w))) as [s0|] eqn:Hf.
  - destruct (setupInterestSchedule_found uuid_of toDateRepr e p w s0 nextDate Hf Hd)
      as (w' & H0 & Hu).
    destruct (only_updates_tables toDateRepr e p _ _ _ w w' Hu) as (T1 & T2 & T3).
    exists (sch_id s0), w'. split; [exact H0|]. now apply governing_ext.
  - destruct (setupInterestSchedule_writes e p w nextDate Hf Hd)
      as (w' & H0 & H1 & H2 & H3 & H4 & H5 & H6 & H7 & H8 & H9 & H10).
    exists (uuid_of (uuid_count w)), w'. split; [exact H0|].
    assert (Hold : forall s, In s (schedules (db w)) ->
                             governs (db w') acct s = governs (db w) acct s).
    { intros s Hs. eapply governs_old_after_creation; eauto. }
    pose proof (governs_new_other_account (db w) (db w') p (uuid_count w)
                  (uuid_of (condition_index w)) acct H7 Hfc Hne) as Hnew.
    split.
    + unfold governing. rewrite H9, filter_app. cbn [filter]. rewrite Hnew, app_nil_r.
      apply filter_ext_in. exact Hold.
    + unfold select_schedule. rewrite H9.
      assert (E : forall l,
                 (forall s, In s l -> governs (db w') acct s = governs (db w) acct s) ->
                 find (governs (db w') acct)
                   (l ++ [created_schedule uuid_of p (uuid_count w)])
                 = find (governs (db w) acct) l).
      { induction l as [|x l IH]; intros Hl.
        - cbn. now rewrite Hnew.
        - cbn. rewrite (Hl x (or_introl eq_refl)).
          destruct (governs (db w) acct x); [reflexivity|].
          apply IH. intros y Hy. apply Hl. now right. }
      now rewrite (E _ Hold).
Qed.

(** *** What an update stores *)

Definition update_value (id : option string) (v : action_value) (a : rule_action) :
    rule_action :=
  match id with
  | Some i => set_action_value i v a
  | None => a
  end.

Lemma updateInterestSchedule_actions
    (e : env) (p : InterestScheduleParams) (scheduleId ruleId nextDate : string) (w : world) :
  Dates.getNextInterestDate (today e) (interestPostingDay p) None = Some nextDate ->
  exists w',
    updateInterestSchedule toDateRepr e scheduleId ruleId p w = (Ok tt, w')
    /\ rule_actions (db w')
       = map (fun a =>
                update_value (select_action (db w) ruleId "category")
                  (AText (interestCategoryId p))
                  (update_value (select_action (db w) ruleId "debt_interest_config")
                     (config_of p) a))
           (rule_actions (db w)).
Proof.
  intros Hd.
  unfold updateInterestSchedule, nextInterestDate, bind, query, ret, update_rule_action,
    update_next_date, modify.
  rewrite Hd. cbv beta iota zeta.
  destruct (select_action (db w) ruleId "debt_interest_config") as [cfg|] eqn:Ecfg;
    cbv beta iota zeta; cbn [db uuid_count].
  - rewrite select_action_after_update.
    destruct (select_action (db w) ruleId "category") as [cat|] eqn:Ecat;
      cbv beta iota zeta; cbn [db uuid_count];
      eexists; (split; [reflexivity|]); cbn; rewrite ?map_map; reflexivity.
  - destruct (select_action (db w) ruleId "category") as [cat|] eqn:Ecat;
      cbv beta iota zeta; cbn [db uuid_count];
      eexists; (split; [reflexivity|]); cbn; rewrite ?map_id; reflexivity.
Qed.

Lemma find_map_keys {A} (f : A -> bool) (g : A -> A) (l : list A) :
  (forall a, f (g a) = f a) -> find f (map g l) = option_map g (find f l).
Proof.
  intros H. induction l as [|x l IH]; [reflexivity|].
  cbn. rewrite H. destruct (f x); [reflexivity | exact IH].
Qed.

Lemma update_value_keys (id : option string) (v : action_value) (a : rule_action) :
  ra_id (update_value id v a) = ra_id a
  /\ ra_rule (update_value id v a) = ra_rule a
  /\ ra_field (update_value id v a) = ra_field a.
Proof.
  destruct id as [i|]; cbn; [|auto].
  destruct (set_action_value_keys i v a) as (K1 & K2 & K3 & _). auto.
Qed.

Lemma unique_id (l : list rule_action) (a b : rule_action) :
  NoDup (map ra_id l) -> In a l -> In b l -> ra_id a = ra_id b -> a = b.
Proof.
  induction l as [|x l IH]; intros Hn Ha Hb E; [destruct Ha|].
  cbn in Hn. inversion Hn as [|? ? Hx Hl]; subst.
  destruct Ha as [-> | Ha], Hb as [-> | Hb]; auto.
  - exfalso. apply Hx. rewrite E. now apply in_map.
  - exfalso. apply Hx. rewrite <- E. now apply in_map.
Qed.

(** When the lookup finds a schedule, [setupInterestSchedule] stores the
    parameters of the call: the [debt_interest_config] action of the rule, if
    it has one, then holds the APR, the scheme and the frequency, and its
    [category] action, if it has one, the category.  (The identifiers of the
    action rows are assumed to be distinct.) *)
Theorem setupInterestSchedule_stores_parameters :
  forall (e : env) (p : InterestScheduleParams) (w : world) (s0 : schedule)
         (nextDate : string),
    find (governs (db w) (accountId p)) (schedules (db w)) = Some s0 ->
    Dates.getNextInterestDate (today e) (interestPostingDay p) None = Some nextDate ->
    NoDup (map ra_id (rule_actions (db w))) ->
    exists w' : world,
      setupInterestSchedule uuid_of toDateRepr e p w = (Ok (sch_id s0), w')
      /\ (action_of (db w) (sch_rule s0) "debt_interest_config" <> None ->
          option_map ra_value (action_of (db w') (sch_rule s0) "debt_interest_config")
          = Some (config_of p))
      /\ (action_of (db w) (sch_rule s0) "category" <> None ->
          option_map ra_value (action_of (db w') (sch_rule s0) "category")
          = Some (AText (interestCategoryId p)))
      /\ (action_of (db w) (sch_rule s0) "debt_interest_config" = None ->
          action_of (db w') (sch_rule s0) "debt_interest_config" = None).
Proof.
  intros e p w s0 nextDate Hf Hd Hnd.
  destruct (updateInterestSchedule_actions e p (sch_id s0) (sch_rule s0) nextDate w Hd)
    as (w' & Hu & Ha).
  exists w'. split.
  { unfold setupInterestSchedule, bind, query, select_schedule, ret.
    rewrite Hf. cbv beta iota zeta. rewrite Hu. reflexivity. }
  set (rule := sch_rule s0) in *.
  set (g := fun a =>
              update_value (select_action (db w) rule "category")
                (AText (interestCategoryId p))
                (update_value (select_action (db w) rule "debt_interest_config")
                   (config_of p) a)) in *.
  assert (Hkeys : forall field a,
             (ra_rule (g a) =? rule) && (ra_field (g a) =? field)
             = (ra_rule a =? rule) && (ra_field a =? field)).
  { intros field a. unfold g.
    destruct (update_value_keys (select_action (db w) rule "category")
                (AText (interestCategoryId p))
                (update_value (select_action (db w) rule "debt_interest_config")
                   (config_of p) a)) as (_ & K2 & K3).
    destruct (update_value_keys (select_action (db w) rule "debt_interest_config")
                (config_of p) a) as (_ & L2 & L3).
    now rewrite K2, K3, L2, L3. }
  assert (Hfind : forall field,
             action_of (db w') rule field = option_map g (action_of (db w) rule field)).
  { intros field. unfold action_of. rewrite Ha.
    apply (find_map_keys (fun a => (ra_rule a =? rule) && (ra_field a =? field)) g).
    apply Hkeys. }
  assert (Hsel : forall field,
             select_action (db w) rule field = option_map ra_id (action_of (db w) rule field)).
  { intros field. unfold select_action, action_of.
    destruct (find _ (rule_actions (db w))); reflexivity. }
  assert (Hfield : forall field a, action_of (db w) rule field = Some a ->
                                   In a (rule_actions (db w)) /\ ra_field a = field).
  { intros field a H. unfold action_of in H. apply find_some in H.
    destruct H as (Hin & Hm). apply andb_prop in Hm. destruct Hm as (_ & Hm).
    apply String.eqb_eq in Hm. now split. }
  split; [|split].
  - intros Hsome. rewrite Hfind.
    destruct (action_of (db w) rule "debt_interest_config") as [a|] eqn:Ea;
      [|congruence].
    cbn [option_map]. f_equal. unfold g. rewrite (Hsel "debt_interest_config"), Ea.
    cbn [option_map update_value].
    destruct (Hfield _ _ Ea) as (Hin & Hfa).
    rewrite (Hsel "category").
    destruct (action_of (db w) rule "category") as [c|] eqn:Ec; cbn [option_map update_value].
    + destruct (Hfield _ _ Ec) as (Hinc & Hfc).
      rewrite !set_action_value_value.
      destruct (set_action_value_keys (ra_id a) (config_of p) a) as (K1 & _).
      rewrite K1, String.eqb_refl.
      destruct (ra_id a =? ra_id c) eqn:E; [|reflexivity].
      apply String.eqb_eq in E.
      pose proof (unique_id _ a c Hnd Hin Hinc E) as Eq. subst c.
      rewrite Hfa in Hfc. discriminate.
    + rewrite set_action_value_value, String.eqb_refl. reflexivity.
  - intros Hsome. rewrite Hfind.
    destruct (action_of (db w) rule "category") as [c|] eqn:Ec; [|congruence].
    cbn [option_map]. f_equal. unfold g. rewrite (Hsel "category"), Ec.
    cbn [option_map update_value].
    rewrite set_action_value_value.
    destruct (update_value_keys (select_action (db w) rule "debt_interest_config")
                (config_of p) c) as (K1 & _).
    now rewrite K1, String.eqb_refl.
  - intros Hnone. rewrite Hfind, Hnone. reflexivity.
Qed.

End ScheduleLifeCycle.

(** ** The payee and the balance *)

Section PayeeAndBalance.

Import Js Interest Ledger Automation FloatFacts.
Local Open Scope string_scope.

Variable Math_pow : float -> float -> float.
Variable uuid_of : nat -> string.
Variable Number_toString : float -> string.
Variable toDateRepr : string -> Z.

(** The payees named [Interest Charge]. *)
Definition interest_payees (d : database) : list payee :=
  filter (fun q => payee_name q =? "Interest Charge") (payees d).

(** At most one payee is added, and only when there was none. *)
Definition at_most_one_added (d d' : database) : Prop :=
  payees d' = payees d
  \/ (interest_payees d = []
      /\ exists id : string,
           payees d'
           = (payees d ++ [{| payee_id := id; payee_name := "Interest Charge" |}])%list).

Lemma select_payee_none (d : database) :
  select_payee d "Interest Charge" = None -> interest_payees d = [].
Proof.
  unfold select_payee, interest_payees. induction (payees d) as [|q l IH]; [reflexivity|].
  cbn. destruct (payee_name q =? "Interest Charge"); [discriminate | exact IH].
Qed.

Lemma payee_added (d : database) (id : string) :
  select_payee d "Interest Charge" = None ->
  at_most_one_added d
    (set_payees (payees d ++ [{| payee_id := id; payee_name := "Interest Charge" |}]) d).
Proof.
  intros H. right. apply select_payee_none in H. split; [exact H|].
  exists id. reflexivity.
Qed.

(** Neither [setupInterestSchedule] nor [postInterestTransaction] ever adds
    a second payee [Interest Charge]: whatever the store and the outcome of
    the call, the payees of that name are afterwards the ones that were
    there, or the one the call created when there was none; no other payee
    is written and none is removed. *)
Theorem interest_payee_created_once :
  forall (e : env) (p : InterestScheduleParams) (w : world),
    at_most_one_added (db w)
      (db (snd (setupInterestSchedule uuid_of toDateRepr e p w)))
    /\ (forall date : option string,
          at_most_one_added (db w)
            (db (snd (postInterestTransaction Math_pow uuid_of Number_toString e p date w)))).
Proof.
  intros e p w. split.
  - unfold setupInterestSchedule, updateInterestSchedule, bind, query, select_schedule,
      ret, throw, uuidv4, insertPayee, insert_rule, insert_rule_condition,
      insert_rule_action, insert_schedule, insertWithUUID_next_date, nextInterestDate,
      update_rule_action, update_next_date, modify.
    destruct (find (governs (db w) (accountId p)) (schedules (db w))) as [s0|];
      cbv beta iota zeta; cbn [db uuid_count].
    + destruct (select_action (db w) (sch_rule s0) "debt_interest_config");
        cbv beta iota zeta; cbn [db uuid_count];
        (match goal with
         | |- context [select_action ?d ?r "category"] =>
             destruct (select_action d r "category")
         end);
        cbv beta iota zeta; cbn [db uuid_count];
        destruct (Dates.getNextInterestDate (today e) (interestPostingDay p) None);
        cbv beta iota zeta; cbn; now left.
    + destruct (select_payee (db w) "Interest Charge") as [pid|] eqn:Ep;
        cbv beta iota zeta; cbn [db uuid_count];
        destruct (Dates.getNextInterestDate (today e) (interestPostingDay p) None);
        cbv beta iota zeta; cbn; try (now left);
        apply (payee_added (db w) _ Ep).
  - intros date.
    unfold postInterestTransaction, bind, query, ret, throw, uuidv4, insertPayee,
      insertTransaction, modify.
    cbv beta iota zeta. cbn [db uuid_count].
    destruct (strict_eq _ 0); cbv beta iota zeta; cbn [db uuid_count snd]; [now left|].
    destruct (select_payee (db w) "Interest Charge") as [pid|] eqn:Ep;
      cbv beta iota zeta; cbn; [now left|].
    apply (payee_added (db w) _ Ep).
Qed.

Lemma sum_amounts_snoc (l : list float) (b y : float) :
  sum_amounts l = Some b -> sum_amounts (l ++ [y]) = Some (b + y)%float.
Proof.
  destruct l as [|x r]; [discriminate|]. cbn. intros H. injection H as <-.
  now rewrite fold_left_app.
Qed.

(** A posting that goes through: the store gets exactly one more
    transaction, on the account, live and cleared, dated with the given day
    (the current day when none is given), with the category of the call and
    the payee [Interest Charge]; the balance of the account, which was a
    number [b] other than 0, becomes [b + (- interest)], and the balance of
    every other account is what it was. *)
Theorem postInterestTransaction_adds_to_balance :
  forall (e : env) (p : InterestScheduleParams) (date : option string) (w : world),
    strict_eq (computed_interest Math_pow p w) 0 = false ->
    exists (id : string) (w' : world) (b : float) (t : transaction),
      postInterestTransaction Math_pow uuid_of Number_toString e p date w = (Ok id, w')
      /\ select_balance (db w) (accountId p) = Some b
      /\ or_zero (Some b) = b
      /\ transactions (db w') = (transactions (db w) ++ [t])%list
      /\ tx_id t = id
      /\ tx_acct t = accountId p
      /\ tx_amount t = (- computed_interest Math_pow p w)%float
      /\ tx_tombstone t = false
      /\ tx_cleared t = true
      /\ tx_category t = Some (interestCategoryId p)
      /\ tx_date t = match date with
                     | Some s => if s =? "" then today e else s
                     | None => today e
                     end
      /\ tx_payee t = select_payee (db w') "Interest Charge"
      /\ tx_payee t <> None
      /\ select_balance (db w') (accountId p)
         = Some (b + (- computed_interest Math_pow p w))%float
      /\ (forall other : string,
            other <> accountId p ->
            select_balance (db w') other = select_balance (db w) other).
Proof.
  intros e p date w Hne.
  assert (Hb : exists b, select_balance (db w) (accountId p) = Some b
                         /\ or_zero (Some b) = b).
  { unfold computed_interest in Hne.
    destruct (select_balance (db w) (accountId p)) as [b|] eqn:Eb.
    - exists b. split; [reflexivity|]. unfold or_zero in *.
      destruct (PrimFloat.eqb b 0 || negb (PrimFloat.eqb b b)); [|reflexivity].
      rewrite (calculateInterest_zero_balance Math_pow 0) in Hne by reflexivity.
      discriminate.
    - cbn [or_zero] in Hne.
      rewrite (calculateInterest_zero_balance Math_pow 0) in Hne by reflexivity.
      discriminate. }
  destruct Hb as (b & Eb & Eor).
  assert (Hsum : forall (d : database) (t : transaction),
             tx_acct t = accountId p -> tx_tombstone t = false ->
             select_balance (set_transactions (transactions (db w) ++ [t]) d) (accountId p)
             = Some (b + tx_amount t)%float
             /\ (forall other, other <> accountId p ->
                  select_balance (set_transactions (transactions (db w) ++ [t]) d) other
                  = select_balance (db w) other)).
  { intros d t Ht Hl. unfold select_balance. cbn [set_transactions transactions]. split.
    - rewrite filter_app, map_app. cbn [filter].
      rewrite Ht, String.eqb_refl, Hl. cbn [andb negb map].
      apply sum_amounts_snoc. exact Eb.
    - intros other Ho. rewrite filter_app. cbn [filter]. rewrite Ht.
      assert (E : (accountId p =? other) = false).
      { apply String.eqb_neq. congruence. }
      rewrite E. cbn [andb]. now rewrite app_nil_r. }
  unfold postInterestTransaction, bind, query, ret, throw, uuidv4, insertPayee,
    insertTransaction, modify.
  cbv beta iota zeta. cbn [db uuid_count].
  fold (computed_interest Math_pow p w). rewrite Hne.
  destruct (select_payee (db w) "Interest Charge") as [pid|] eqn:Ep;
    cbv beta iota zeta; cbn [db uuid_count].
  - eexists. eexists. exists b. eexists.
    split; [reflexivity|]. split; [exact Eb|]. split; [exact Eor|].
    split; [reflexivity|]. cbn [tx_id tx_acct tx_amount tx_tombstone tx_cleared
                                  tx_category tx_date tx_payee].
    repeat (split; [reflexivity|]).
    split; [unfold select_payee in Ep |- *; cbn [db set_transactions payees];
            now rewrite Ep|].
    split; [discriminate|].
    match goal with
    | |- context [set_transactions (_ ++ [?t]) ?d] =>
        destruct (Hsum d t eq_refl eq_refl) as (S1 & S2)
    end.
    split; [exact S1 | exact S2].
  - eexists. eexists. exists b. eexists.
    split; [reflexivity|]. split; [exact Eb|]. split; [exact Eor|].
    split; [reflexivity|]. cbn [tx_id tx_acct tx_amount tx_tombstone tx_cleared
                                  tx_category tx_date tx_payee].
    repeat (split; [reflexivity|]).
    split.
    { unfold select_payee. cbn [db set_transactions set_payees payees].
      apply select_payee_none in Ep. unfold interest_payees in Ep.
      assert (Hno : forall l, filter (fun q => payee_name q =? "Interest Charge") l = [] ->
                find (fun q => payee_name q =? "Interest Charge")
                  (l ++ [{| payee_id := uuid_of (uuid_count w);
                            payee_name := "Interest Charge" |}])
                = Some {| payee_id := uuid_of (uuid_count w);
                          payee_name := "Interest Charge" |}).
      { induction l as [|q l IH]; [reflexivity|]. cbn.
        destruct (payee_name q =? "Interest Charge"); [discriminate | exact IH]. }
      now rewrite (Hno _ Ep). }
    split; [discriminate|].
    match goal with
    | |- context [set_transactions (_ ++ [?t]) ?d] =>
        destruct (Hsum d t eq_refl eq_refl) as (S1 & S2)
    end.
    split; [exact S1 | exact S2].
Qed.

End PayeeAndBalance.

(** ** The candidates and their estimates *)

Section CandidateFacts.

Import Js Ledger Detection FloatFacts.

Variable Math_pow : float -> float -> float.

(** The confidence that goes with a score. *)
Definition confidence_of (score : Z) : ConfidenceLevel :=
  if (70 <=? score)%Z then high else if (50 <=? score)%Z then medium else low.

Lemma score_account_scored (d : database) (a : account) (c : DebtCandidate) :
  score_account Math_pow d a = Some c ->
  (40 <= score c <= 140)%Z
  /\ (score c mod 5 = 0)%Z
  /\ confidence c = confidence_of (score c)
  /\ (2 <= List.length (reasons c) <= 8)%nat
  /\ accountName c = acc_name a
  /\ currentlyOffBudget c = acc_offbudget a
  /\ detectedAPR c = estimatedAPR (detectInterestTransactions d (acc_id a))
  /\ suggestedDebtType c
     = suggestDebtType (acc_name a) (balance c) (analyzePaymentPatterns Math_pow d (acc_id a)).
Proof.
  unfold score_account.
  destruct (PrimFloat.leb 0 (getAccountBalance d (acc_id a))); [discriminate|].
  cbv beta iota zeta. unfold push.
  repeat match goal with
         | |- context [if ?b then _ else _] =>
             lazymatch b with
             | (40 <=? _)%Z => fail
             | (50 <=? _)%Z => fail
             | (70 <=? _)%Z => fail
             | _ => destruct b
             end
         | |- context [match estimatedAPR ?i with _ => _ end] =>
             destruct (estimatedAPR i) eqn:?
         end;
    cbn -[Z.leb];
    (destruct (40 <=? _)%Z eqn:E; [|discriminate]);
    intros H; injection H as <-; cbn; repeat split; try lia; try reflexivity;
    vm_compute in E; try discriminate.
Qed.

(** The accounts the loop visits. *)
Definition eligible (a : account) : bool :=
  negb (acc_is_debt a) && negb (acc_closed a) && negb (acc_tombstone a).

Lemma candidates_found_ids (l : list account) (d : database) :
  NoDup (map acc_id l) ->
  NoDup (map accountId
           (flat_map (fun account =>
                        match score_account Math_pow d account with
                        | Some c => [c]
                        | None => []
                        end) l))
  /\ forall id, In id (map accountId
                         (flat_map (fun account =>
                                      match score_account Math_pow d account with
                                      | Some c => [c]
                                      | None => []
                                      end) l)) ->
                In id (map acc_id l).
Proof.
  induction l as [|a l IH]; intros Hn; [split; [constructor | intros id []]|].
  cbn in Hn. inversion Hn as [|? ? Hx Hl]; subst. destruct (IH Hl) as (IH1 & IH2).
  cbn [flat_map map].
  destruct (score_account Math_pow d a) as [c|] eqn:E; cbn [app map].
  - destruct (score_account_pushed Math_pow d a c E) as (Eid & _).
    split.
    + constructor; [|exact IH1]. rewrite Eid. intros Hin. apply Hx. now apply IH2.
    + intros id [<- | Hin]; [left; now symmetry | right; now apply IH2].
  - split; [exact IH1|]. intros id Hin. right. now apply IH2.
Qed.

Lemma NoDup_filter_map {A B} (key : A -> B) (f : A -> bool) (l : list A) :
  NoDup (map key l) -> NoDup (map key (filter f l)).
Proof.
  induction l as [|x l IH]; intros Hn; [constructor|].
  cbn in Hn. inversion Hn as [|? ? Hx Hl]; subst. cbn.
  destruct (f x); [|now apply IH]. cbn. constructor; [|now apply IH].
  intros Hin. apply Hx. apply in_map_iff in Hin. destruct Hin as (y & Ey & Hy).
  apply filter_In in Hy. apply in_map_iff. exists y. now split.
Qed.

(** Every candidate of [detectDebtAccounts] stands for an account row that
    is not a debt account yet, not closed and not deleted, and carries the id,
    the name and the off-budget flag of that row; no account is suggested
    twice when the account ids are distinct. *)
Theorem detectDebtAccounts_accounts :
  forall d : database,
    (forall c, In c (detectDebtAccounts Math_pow d) ->
               exists a, In a (accounts d)
                         /\ acc_is_debt a = false /\ acc_closed a = false
                         /\ acc_tombstone a = false
                         /\ accountId c = acc_id a
                         /\ accountName c = acc_name a
                         /\ currentlyOffBudget c = acc_offbudget a)
    /\ (List.length (detectDebtAccounts Math_pow d)
        <= List.length (filter eligible (accounts d)))%nat
    /\ (NoDup (map acc_id (accounts d)) ->
        NoDup (map accountId (detectDebtAccounts Math_pow d))).
Proof.
  intros d. pose proof (sort_by_perm score_desc (candidates_found Math_pow d)) as HP.
  fold (detectDebtAccounts Math_pow d) in HP. split; [|split].
  - intros c Hc. apply (Permutation_in c (Permutation_sym HP)) in Hc.
    unfold candidates_found in Hc. apply in_flat_map in Hc.
    destruct Hc as (a & Ha & Hc). apply filter_In in Ha. destruct Ha as (Ha & He).
    destruct (score_account Math_pow d a) as [c'|] eqn:E; [|destruct Hc].
    destruct Hc as [->|[]].
    destruct (score_account_pushed Math_pow d a c E) as (Eid & _).
    destruct (score_account_scored d a c E) as (_ & _ & _ & _ & En & Eo & _).
    apply andb_prop in He. destruct He as (He & H3).
    apply andb_prop in He. destruct He as (H1 & H2).
    apply negb_true_iff in H1, H2, H3.
    exists a. repeat split; assumption.
  - rewrite <- (Permutation_length HP). unfold candidates_found. fold eligible.
    induction (filter eligible (accounts d)) as [|a l IH]; [apply le_n|].
    cbn [flat_map]. rewrite length_app.
    destruct (score_account Math_pow d a); cbn; lia.
  - intros Hn. eapply Permutation_NoDup; [apply Permutation_map, HP|].
    unfold candidates_found. apply candidates_found_ids.
    now apply NoDup_filter_map.
Qed.

(** The score of a candidate is a multiple of 5 from 40 to 140; its
    confidence is [high] from 70 on, [medium] from 50 on and [low] below;
    and it has from 2 to 8 reasons: no account is suggested on one signal
    alone. *)
Theorem detectDebtAccounts_confidence :
  forall (d : database) (c : DebtCandidate),
    In c (detectDebtAccounts Math_pow d) ->
    (40 <= score c <= 140)%Z
    /\ (score c mod 5 = 0)%Z
    /\ (confidence c = high <-> (70 <= score c)%Z)
    /\ (confidence c = medium <-> (50 <= score c < 70)%Z)
    /\ (confidence c = low <-> (score c < 50)%Z)
    /\ (2 <= List.length (reasons c) <= 8)%nat.
Proof.
  intros d c Hc.
  apply (Permutation_in c (Permutation_sym (sort_by_perm score_desc _))) in Hc.
  destruct (candidates_found_pushed Math_pow d c Hc) as (a & _ & Ha).
  destruct (score_account_scored d a c Ha) as (H1 & H2 & H3 & H4 & _).
  split; [exact H1|]. split; [exact H2|].
  rewrite H3. unfold confidence_of.
  destruct (Z.leb_spec 70 (score c)); [|destruct (Z.leb_spec 50 (score c))];
    (split; [|split; [|split]]); try exact H4;
    split; intros G; try discriminate; try lia; reflexivity.
Qed.

End CandidateFacts.

Section DetectedRate.

Import Reals Lra.
Import Js Ledger Detection FloatFacts FloatError.

Variable Math_pow : float -> float -> float.

Local Open Scope R_scope.

Lemma val_tenth : pos_finite 0.1%float /\ 1 / 10 <= val 0.1%float.
Proof.
  assert (H : Prim2SF 0.1%float = S754_finite false 7205759403792794 (-56))
    by reflexivity.
  split; [now exists 7205759403792794%positive, (-56)%Z|].
  rewrite (val_finite _ _ _ H).
  replace (bpow (-56)) with (1 / IZR (2 ^ 56))
    by (symmetry; apply (bpow_opp_inv 56); lia).
  change (2 ^ 56)%Z with 72057594037927936%Z. lra.
Qed.

(** A rate between 0.1 and 50, as a percentage of 2 decimal places. *)
Lemma percent_in_range (x : float) :
  PrimFloat.leb 0.1 x = true -> PrimFloat.leb x 50 = true ->
  exists k : Z, (10 <= k <= 5000)%Z /\ Math_round (x * 100) = of_Z k.
Proof.
  intros H1 H2.
  destruct val_tenth as (Ft & Vt).
  assert (F50 : pos_finite 50%float) by (apply (whole_pos_finite 50); cbn; lia).
  assert (V50 : val 50%float = 50) by (apply (whole_val 50); cbn; lia).
  assert (F100 : pos_finite 100%float) by (apply (whole_pos_finite 100); cbn; lia).
  assert (V100 : val 100%float = 100) by (apply (whole_val 100); cbn; lia).
  pose proof (between_pos_finite _ _ x Ft F50 H1 H2) as Fx.
  pose proof (leb_val _ _ Ft Fx H1) as B1. pose proof (leb_val _ _ Fx F50 H2) as B2.
  rewrite V50 in B2.
  destruct (mul_near x 100%float Fx F100 ltac:(lra) ltac:(lra)) as (Fm & Nm).
  rewrite V100 in Nm. unfold near, eps in Nm.
  assert (B52 : bpow 52 = 4503599627370496)
    by (rewrite <- (bpow_IZR 52) by lia; reflexivity).
  destruct (Math_round_spec _ Fm ltac:(lra)) as (k & Hk & _ & Bk).
  exists k. split; [|exact Hk]. split.
  - assert (9 < k)%Z; [|lia]. apply lt_IZR. lra.
  - assert (k < 5001)%Z; [|lia]. apply lt_IZR. lra.
Qed.

(** What an estimate tells about the transactions it was made from. *)
Lemma estimatedAPR_made (d : database) (acct : string) (a : float) :
  estimatedAPR (detectInterestTransactions d acct) = Some a ->
  (exists k : Z, (10 <= k <= 5000)%Z /\ a = (of_Z k / 100)%float)
  /\ hasInterest (detectInterestTransactions d acct) = true
  /\ (3 <= count (detectInterestTransactions d acct) <= 12)%nat.
Proof.
  unfold detectInterestTransactions.
  set (l := firstn 12 _).
  assert (Hl : (List.length l <= 12)%nat) by apply firstn_le_length.
  destruct (List.length l =? 0)%nat; [discriminate|].
  cbn [estimatedAPR hasInterest count].
  destruct (3 <=? List.length l)%nat eqn:E3; [|discriminate].
  apply Nat.leb_le in E3.
  destruct (PrimFloat.ltb 0 _ && PrimFloat.ltb 0 _); [|discriminate].
  match goal with
  | |- context [PrimFloat.leb 0.1 ?x && PrimFloat.leb ?x 50] =>
      destruct (PrimFloat.leb 0.1 x) eqn:L1; [|discriminate];
      destruct (PrimFloat.leb x 50) eqn:L2; [|discriminate];
      destruct (percent_in_range x L1 L2) as (k & Hk & Er)
  end.
  cbn [andb]. intros H. injection H as <-.
  split; [|split; [reflexivity | lia]].
  exists k. split; [exact Hk|]. now rewrite Er.
Qed.

(** The APR [detectInterestTransactions] estimates, when it gives one, is a
    whole number of hundredths from 0.10 to 50.00, and it is estimated from 3
    to 12 interest transactions. *)
Theorem detectInterestTransactions_estimate :
  forall (d : database) (acct : string) (a : float),
    estimatedAPR (detectInterestTransactions d acct) = Some a ->
    (exists k : Z, (10 <= k <= 5000)%Z /\ a = (of_Z k / 100)%float)
    /\ hasInterest (detectInterestTransactions d acct) = true
    /\ (3 <= count (detectInterestTransactions d acct) <= 12)%nat.
Proof.
  intros d acct a. apply estimatedAPR_made.
Qed.

Lemma estimate_truthy (k : Z) :
  (10 <= k <= 5000)%Z -> truthy (of_Z k / 100)%float = true.
Proof.
  intros Hk.
  assert (Hk53 : (0 < k < 2 ^ 53)%Z).
  { change (2 ^ 53)%Z with 9007199254740992%Z. lia. }
  pose proof (whole_pos_finite k Hk53) as Fk. pose proof (whole_val k Hk53) as Vk.
  assert (F100 : pos_finite 100%float) by (apply (whole_pos_finite 100); cbn; lia).
  assert (V100 : val 100%float = 100) by (apply (whole_val 100); cbn; lia).
  assert (Bk : 10 <= IZR k <= 5000) by (split; apply IZR_le; lia).
  destruct (div_near (of_Z k) 100%float Fk F100 ltac:(rewrite Vk; lra) ltac:(lra))
    as ((m & e & Hm) & _).
  unfold truthy. rewrite !FloatAxioms.eqb_spec, Hm.
  change (Prim2SF 0) with (S754_zero false). unfold SFeqb, SFcompare.
  rewrite Z.compare_refl, Pos.compare_cont_refl. reflexivity.
Qed.

Local Close Scope R_scope.

Lemma score_account_estimate (d : database) (a : account) (c : DebtCandidate) (x : float) :
  score_account Math_pow d a = Some c ->
  detectedAPR c = Some x ->
  In (EstimatedAPR x) (reasons c)
  /\ In (InterestChargesDetected (count (detectInterestTransactions d (acc_id a))))
       (reasons c).
Proof.
  unfold score_account.
  destruct (PrimFloat.leb 0 (getAccountBalance d (acc_id a))); [discriminate|].
  cbv beta iota zeta. unfold push.
  destruct (estimatedAPR (detectInterestTransactions d (acc_id a))) as [f|] eqn:Ee.
  - destruct (estimatedAPR_made d (acc_id a) f Ee)
      as ((k & Hk & ->) & Hh & _).
    rewrite Hh, (estimate_truthy k Hk).
    repeat match goal with
           | |- context [if ?b then _ else _] =>
               lazymatch b with
               | (40 <=? _)%Z => fail
               | (50 <=? _)%Z => fail
               | (70 <=? _)%Z => fail
               | _ => destruct b
               end
           end;
      cbn -[Z.leb of_Z];
      (destruct (40 <=? _)%Z; [|discriminate]);
      intros H; injection H as <-; cbn -[of_Z]; intros Hx; injection Hx as <-;
      split; tauto.
  - repeat match goal with
           | |- context [if ?b then _ else _] =>
               lazymatch b with
               | (40 <=? _)%Z => fail
               | (50 <=? _)%Z => fail
               | (70 <=? _)%Z => fail
               | _ => destruct b
               end
           end;
      cbn -[Z.leb];
      (destruct (40 <=? _)%Z; [|discriminate]);
      intros H; injection H as <-; cbn; discriminate.
Qed.

(** When a candidate carries a detected APR, it is a whole number of
    hundredths from 0.10 to 50.00, and the reasons of the candidate name it
    and count the interest transactions it was estimated from (3 to 12). *)
Theorem detectDebtAccounts_detected_apr :
  forall (d : database) (c : DebtCandidate) (x : float),
    In c (detectDebtAccounts Math_pow d) ->
    detectedAPR c = Some x ->
    (exists k : Z, (10 <= k <= 5000)%Z /\ x = (of_Z k / 100)%float)
    /\ In (EstimatedAPR x) (reasons c)
    /\ exists n : nat, (3 <= n <= 12)%nat /\ In (InterestChargesDetected n) (reasons c).
Proof.
  intros d c x Hc Hx.
  apply (Permutation_in c (Permutation_sym (sort_by_perm score_desc _))) in Hc.
  destruct (candidates_found_pushed Math_pow d c Hc) as (a & _ & Ha).
  destruct (score_account_estimate d a c x Ha Hx) as (R1 & R2).
  destruct (score_account_scored Math_pow d a c Ha) as (_ & _ & _ & _ & _ & _ & Ed & _).
  rewrite Ed in Hx.
  destruct (estimatedAPR_made d (acc_id a) x Hx) as (Hk & _ & Hn).
  split; [exact Hk|]. split; [exact R1|].
  exists (count (detectInterestTransactions d (acc_id a))). now split.
Qed.

End DetectedRate.

(** ** A debt without interest in the payoff time *)

Section PayoffFacts.

Import Js FloatFacts FloatOrder Payoff.
Local Open Scope float_scope.

Variable Math_log : float -> float.

(** ECMAScript fixes [Math.log(1)] to [+0]. *)
Hypothesis Math_log_one : Math_log 1 = 0.

Lemma ltb_zero_positive (x : float) :
  (0 <? x) = true ->
  (x <=? 0) = false
  /\ (Prim2SF x = S754_infinity false \/ exists m e, Prim2SF x = S754_finite false m e).
Proof.
  rewrite FloatAxioms.ltb_spec, FloatAxioms.leb_spec, SF_zero.
  destruct (Prim2SF x) as [[]|[]| |[] m e]; cbn; try discriminate; intros _;
    (split; [reflexivity|]); eauto.
Qed.

(** A debt without interest: for a rate of 0, a balance above 0 and a
    payment above 0, the months to the payoff are NaN (the quotient of [-0]
    by [0]), not the balance over the payment. *)
Theorem calculatePayoffMonths_zero_rate :
  forall balance monthlyPayment : float,
    (0 <? balance) = true -> (balance <? infinity) = true ->
    (0 <? monthlyPayment) = true ->
    Prim2SF (calculatePayoffMonths Math_log balance 0 monthlyPayment) = S754_nan.
Proof.
  intros b M Hb Hfin HM.
  destruct (ltb_zero_positive M HM) as (HM0 & HMsf).
  destruct (ltb_zero_positive b Hb) as (Hb0 & _).
  destruct (finite_positive b Hb Hfin) as (mb & eb & Eb).
  unfold calculatePayoffMonths. rewrite HM0, Hb0. cbn [orb].
  change (0 / 100 / 12) with 0.
  assert (Eb0 : b * 0 = 0).
  { apply Prim2SF_inj. rewrite FloatAxioms.mul_spec, Eb. reflexivity. }
  rewrite Eb0, HM0.
  assert (E0M : 0 / M = 0).
  { apply Prim2SF_inj. rewrite FloatAxioms.div_spec, SF_zero.
    destruct HMsf as [-> | (m & e & ->)]; reflexivity. }
  rewrite E0M. change (1 - 0) with 1. change (1 + 0) with 1.
  rewrite Math_log_one. reflexivity.
Qed.

End PayoffFacts.

(** ** A small ledger, for the instances below *)

Module Sample.

Import Js Ledger Automation.
Local Open Scope string_scope.

(** The n-th identifier: [uuid-n]. *)
Definition uuid_of (n : nat) : string := "uuid-" ++ Dates.String_of_Z (Z.of_nat n).

(** A day [YYYY-MM-DD] stored as the integer [YYYYMMDD]. *)
Definition toDateRepr (day : string) : Z :=
  match Dates.parse_date day with
  | Some (y, m, d) => (y * 10000 + m * 100 + d)%Z
  | None => 0%Z
  end.

(** A stand-in for [Math.pow]: the base itself, which is the power for the
    exponent 1. *)
Definition Math_pow (x y : float) : float := x.

(** A stand-in for the text of a number: that of its rounding to a whole
    number. *)
Definition Number_toString (x : float) : string :=
  Dates.String_of_Z
    (match Prim2SF (Math_round x) with
     | S754_finite s m e => (if s then - Z.pos m * 2 ^ e else Z.pos m * 2 ^ e)%Z
     | _ => 0%Z
     end).

Definition clock : env := {| today := "2024-01-15"; now := 1705312800000%Z |}.

Definition params : InterestScheduleParams :=
  {| accountId := "acct-1"; apr := 18.5%float; interestScheme := "simple";
     compoundingFrequency := "monthly"; interestPostingDay := Some 15%Z;
     interestCategoryId := "cat-interest" |}.

(** The same parameters for another account. *)
Definition params_2 : InterestScheduleParams :=
  {| accountId := "acct-2"; apr := 24%float; interestScheme := "compound_monthly";
     compoundingFrequency := "monthly"; interestPostingDay := None;
     interestCategoryId := "cat-interest" |}.

Definition rule_1 : rule := {| rule_id := "rule-1"; rule_stage := None |}.
Definition rule_2 : rule := {| rule_id := "rule-2"; rule_stage := None |}.

Definition condition_1 : rule_condition :=
  {| rc_id := "cond-1"; rc_rule := "rule-1"; rc_field := "acct"; rc_op := "is";
     rc_value := "acct-1" |}.
Definition condition_2 : rule_condition :=
  {| rc_id := "cond-2"; rc_rule := "rule-2"; rc_field := "acct"; rc_op := "is";
     rc_value := "acct-1" |}.

Definition schedule_1 : schedule :=
  {| sch_id := "sched-1"; sch_rule := "rule-1"; sch_active := true;
     sch_completed := false; sch_posts_transaction := true;
     sch_name := "Interest for Account acct-1" |}.
Definition schedule_2 : schedule :=
  {| sch_id := "sched-2"; sch_rule := "rule-2"; sch_active := true;
     sch_completed := false; sch_posts_transaction := false;
     sch_name := "Card payment" |}.

Definition actions_1 : list rule_action :=
  [ {| ra_id := "act-1"; ra_rule := "rule-1"; ra_field := "payee"; ra_op := "set";
       ra_value := AText "payee-interest" |};
    {| ra_id := "act-2"; ra_rule := "rule-1"; ra_field := "category"; ra_op := "set";
       ra_value := AText "cat-old" |};
    {| ra_id := "act-3"; ra_rule := "rule-1"; ra_field := "debt_interest_config";
       ra_op := "set"; ra_value := AInterestConfig 12 "simple" "monthly" |} ].

(** One schedule on the account. *)
Definition one_schedule : world :=
  {| db :=
       {| accounts := []; transactions := [];
          payees := [{| payee_id := "payee-interest"; payee_name := "Interest Charge" |}];
          categories := [];
          rules := [rule_1];
          rule_conditions := [condition_1];
          rule_actions := actions_1;
          schedules := [schedule_1];
          schedules_next_date :=
            [{| nd_id := "next-1"; nd_schedule_id := "sched-1";
                nd_local_next_date := 20240115; nd_local_next_date_ts := 0;
                nd_base_next_date := 20240115; nd_base_next_date_ts := 0 |}] |};
     uuid_count := 0 |}.

(** Two schedules on the account: the interest schedule and a schedule of
    the user's whose rule also has a condition on the account. *)
Definition two_schedules : world :=
  {| db :=
       {| accounts := []; transactions := [];
          payees := [{| payee_id := "payee-interest"; payee_name := "Interest Charge" |}];
          categories := [];
          rules := [rule_1; rule_2];
          rule_conditions := [condition_1; condition_2];
          rule_actions := actions_1;
          schedules := [schedule_1; schedule_2];
          schedules_next_date := [] |};
     uuid_count := 0 |}.

End Sample.

(** ** Powers and roots, for the instances below *)

Module Powers.

Import Js.
Local Open Scope float_scope.

(** The n-th power by repeated multiplication. *)
Fixpoint power (x : float) (n : nat) : float :=
  match n with
  | O => 1
  | S k => x * power x k
  end.

(** Newton's iteration for the n-th root of [x], from the guess [t]. *)
Fixpoint root_from (x : float) (n steps : nat) (t : float) : float :=
  match steps with
  | O => t
  | S k =>
      root_from x n k
        (t - (power t n - x) / (of_Z (Z.of_nat n) * power t (n - 1)))
  end.

(** A stand-in for [Math.pow] on the four exponents of the formulas: the
    30th and the 12th power by repeated multiplication, the 30th and the
    12th root by Newton's iteration from the number itself; elsewhere the
    base, which is the power for the exponent 1. *)
Definition Math_pow (x y : float) : float :=
  if PrimFloat.eqb y 30 then power x 30
  else if PrimFloat.eqb y 12 then power x 12
  else if PrimFloat.eqb y (1 / 30) then root_from x 30 64 x
  else if PrimFloat.eqb y (1 / 12) then root_from x 12 64 x
  else x.

End Powers.

Section PowersAccurate.

Import Reals Lra.
Import Js Interest FloatError.
Local Open Scope string_scope.
Local Open Scope R_scope.

Lemma val_quotient (x : float) (m k : positive) :
  Prim2SF x = S754_finite false m (Z.neg k) ->
  pos_finite x /\ val x = IZR (Z.pos m) / IZR (2 ^ Z.pos k).
Proof.
  intros H. split; [now exists m, (Z.neg k)|].
  rewrite (val_finite _ _ _ H).
  change (Z.neg k) with (- Z.pos k)%Z. rewrite (bpow_opp_inv (Z.pos k)) by lia.
  lra.
Qed.

(** The value of a closed number as a quotient of two whole numbers. *)
Ltac quotient x F V :=
  let s := eval vm_compute in (Prim2SF x) in
  lazymatch s with
  | S754_finite false ?m (Z.neg ?k) =>
      let d := eval vm_compute in (2 ^ Z.pos k)%Z in
      destruct (val_quotient x m k) as (F & V);
      [vm_compute; reflexivity | change (2 ^ Z.pos k)%Z with d in V]
  end.

(** The stand-in at the two calls of the round trip of 2500.00 at 18.5,
    compounding by the day. *)
Lemma Powers_daily_power :
  power_accurate Powers.Math_pow (1 + 18.5 / 100 / 365)%float 30%float 30.
Proof.
  unfold power_accurate, eta.
  quotient (1 + 18.5 / 100 / 365)%float Fb Vb.
  quotient (Powers.Math_pow (1 + 18.5 / 100 / 365) 30)%float Fw Vw.
  split; [exact Fw|]. rewrite Vb, Vw. lra.
Qed.

Lemma Powers_daily_root :
  root_accurate Powers.Math_pow
    (1 + calculateInterest Powers.Math_pow (- 250000) 18.5 "compound_daily" "monthly"
         / 250000)%float
    (1 / 30)%float 30.
Proof.
  unfold root_accurate, eta.
  quotient (1 + calculateInterest Powers.Math_pow (- 250000) 18.5 "compound_daily"
                  "monthly" / 250000)%float Fb Vb.
  quotient (Powers.Math_pow
              (1 + calculateInterest Powers.Math_pow (- 250000) 18.5 "compound_daily"
                     "monthly" / 250000) (1 / 30))%float Fw Vw.
  split; [exact Fw|]. rewrite Vb, Vw. lra.
Qed.

Lemma Powers_annual_root :
  root_accurate Powers.Math_pow (1 + 18.5 / 100)%float (1 / 12)%float 12.
Proof.
  unfold root_accurate, eta.
  quotient (1 + 18.5 / 100)%float Fb Vb.
  quotient (Powers.Math_pow (1 + 18.5 / 100) (1 / 12))%float Fw Vw.
  split; [exact Fw|]. rewrite Vb, Vw. lra.
Qed.

Lemma Powers_annual_power :
  power_accurate Powers.Math_pow
    (1 + calculateInterest Powers.Math_pow (- 250000) 18.5 "compound_annually" "monthly"
         / 250000)%float
    12%float 12.
Proof.
  unfold power_accurate, eta.
  quotient (1 + calculateInterest Powers.Math_pow (- 250000) 18.5 "compound_annually"
                  "monthly" / 250000)%float Fb Vb.
  quotient (Powers.Math_pow
              (1 + calculateInterest Powers.Math_pow (- 250000) 18.5 "compound_annually"
                     "monthly" / 250000) 12)%float Fw Vw.
  split; [exact Fw|]. rewrite Vb, Vw. lra.
Qed.

(** The principal and the APR of the instances, as numbers. *)
Lemma sample_values :
  val 250000%float = 250000 /\ pos_finite 18.5%float /\ val 18.5%float = 37 / 2.
Proof.
  split; [apply (whole_val 250000); cbn; lia|].
  quotient 18.5%float F V. split; [exact F|]. rewrite V. lra.
Qed.

End PowersAccurate.

Section Instances.

Import Js Ledger Automation.
Local Open Scope string_scope.


(** C6 on the store with one schedule, for an account that has none: the
    first call creates the row, the second finds it. *)
Lemma setupInterestSchedule_twice_instance :
  exists (id ruleId : string) (w1 w2 : world),
    setupInterestSchedule Sample.uuid_of Sample.toDateRepr Sample.clock Sample.params_2
      Sample.one_schedule = (Ok id, w1)
    /\ setupInterestSchedule Sample.uuid_of Sample.toDateRepr Sample.clock Sample.params_2 w1
       = (Ok id, w2)
    /\ only_updates Sample.toDateRepr Sample.clock Sample.params_2 id ruleId "2024-02-29"
         w1 w2
    /\ List.length (governing (db w2) (accountId Sample.params_2))
       = Nat.max 1
           (List.length (governing (db Sample.one_schedule) (accountId Sample.params_2)))
    /\ (governing (db Sample.one_schedule) (accountId Sample.params_2) = [] ->
        exists s, governing (db w2) (accountId Sample.params_2) = [s] /\ sch_id s = id).
Proof.
  apply (setupInterestSchedule_twice Sample.uuid_of Sample.toDateRepr
           Sample.clock Sample.clock Sample.params_2 Sample.params_2 Sample.one_schedule
           "2024-02-29" "2024-02-29");
    try (vm_compute; reflexivity).
  intros s [<- | []]. vm_compute. discriminate.
Defined.

(** C6 as stated fails on a store where two schedules govern the account:
    both calls return the first one and two rows govern the account
    afterwards, not one. *)
Lemma setupInterestSchedule_twice_leaves_two_rows :
  let first :=
    setupInterestSchedule Sample.uuid_of Sample.toDateRepr Sample.clock Sample.params
      Sample.two_schedules in
  let second :=
    setupInterestSchedule Sample.uuid_of Sample.toDateRepr Sample.clock Sample.params
      (snd first) in
  fst first = Ok "sched-1"
  /\ fst second = Ok "sched-1"
  /\ List.length (governing (db (snd second)) "acct-1") = 2%nat.
Proof.
  vm_compute. repeat split; reflexivity.
Defined.

(** C1 on the balance -2500.00 at the APR 18.5: compounding by the day, and
    with simple interest, where 250000 * 18.5 / 1200 is above one half. *)
Lemma calculateInterest_zero_below_half_a_cent_instance :
  (PrimFloat.leb 0
     (Interest.calculateInterest Powers.Math_pow (-250000) 18.5 "compound_daily" "daily")
   = true
   /\ (strict_eq
         (Interest.calculateInterest Powers.Math_pow (-250000) 18.5 "compound_daily"
            "daily")
         0 = true
       <-> strict_eq 18.5 0 = true
           \/ PrimFloat.ltb
                (unrounded_interest Powers.Math_pow 250000 18.5 "compound_daily") 0.5
              = true))
  /\ strict_eq
       (Interest.calculateInterest Powers.Math_pow (-250000) 18.5 "simple" "monthly") 0
     = false.
Proof.
  split.
  - destruct (calculateInterest_zero_below_half_a_cent Powers.Math_pow
                250000 18.5 "compound_daily" "daily" eq_refl eq_refl eq_refl
                (fun _ => eq_refl) (fun _ => eq_refl)) as (H1 & H2 & _).
    split; [exact H1 | exact H2].
  - destruct (calculateInterest_zero_below_half_a_cent Powers.Math_pow
                250000 18.5 "simple" "monthly" eq_refl eq_refl eq_refl
                (fun _ => eq_refl) (fun _ => eq_refl)) as (_ & _ & _ & _ & H5).
    destruct sample_values as (VP & _ & Vr).
    destruct H5 as (_ & Hnot).
    + discriminate.
    + discriminate.
    + rewrite VP. Lra.lra.
    + rewrite Vr. Lra.lra.
    + apply Hnot. rewrite VP, Vr. Lra.lra.
Defined.

(** C2 on the balance and the APR of the tests, 2500.00 at 18.5,
    compounding by the day and by the year. *)
Lemma round_trip_within_one_decimal_instance :
  (exists v : float,
      round_trip Powers.Math_pow 250000 18.5 "compound_daily" "monthly" = Some v
      /\ within_one_decimal v 18.5 = true)
  /\ (exists v : float,
        round_trip Powers.Math_pow 250000 18.5 "compound_annually" "monthly" = Some v
        /\ within_one_decimal v 18.5 = true).
Proof.
  split.
  - apply (proj1 (proj2 (round_trip_within_one_decimal Powers.Math_pow))
             250000%float 18.5%float "monthly");
      [reflexivity | reflexivity | reflexivity | reflexivity
      | exact Powers_daily_power | exact Powers_daily_root].
  - apply (proj2 (proj2 (round_trip_within_one_decimal Powers.Math_pow))
             250000%float 18.5%float "monthly");
      [reflexivity | reflexivity | reflexivity | reflexivity
      | exact Powers_annual_root | exact Powers_annual_power].
Defined.

(** C4 from 2025-01-30 with the posting day 30: February 2025 has 28 days. *)
Lemma getNextInterestDate_next_month_instance :
  Dates.getNextInterestDate "2000-01-01" (Some 30%Z) (Some (Dates.show_day 2025 1 30))
  = Some (Dates.show_day 2025 2 28).
Proof.
  apply (proj1 (proj2 (proj1 DateFacts.getNextInterestDate_next_month "2000-01-01"
                         2025 1 30 ltac:(lia) ltac:(lia) ltac:(lia))%Z 30%Z ltac:(lia))).
Defined.

(** C5 on an account without transactions. *)
Lemma postInterestTransaction_nothing_to_post_instance :
  postInterestTransaction Sample.Math_pow Sample.uuid_of Sample.Number_toString
    Sample.clock Sample.params None Sample.one_schedule
  = (Throw nothing_to_post, Sample.one_schedule).
Proof.
  apply (proj1 (postInterestTransaction_nothing_to_post Sample.Math_pow Sample.uuid_of
                  Sample.Number_toString Sample.clock Sample.params None
                  Sample.one_schedule)).
  reflexivity.
Defined.

(** C7 on the interest and the principal of the tests. *)
Lemma calculateAPRFromInterest_null_iff_instance :
  Interest.calculateAPRFromInterest Sample.Math_pow 3854 250000 "simple"
  = Some (round2 (inverse_rate Sample.Math_pow "simple" (Math_abs 3854) (Math_abs 250000))).
Proof.
  apply (proj1 (proj2 (calculateAPRFromInterest_null_iff Sample.Math_pow
                         3854 250000 "simple"))); reflexivity.
Defined.

End Instances.

(** ** A ledger with a card, for the instances below *)

Module Household.

Import Js Ledger Automation.
Local Open Scope string_scope.

Definition card : account :=
  {| acc_id := "acct-1"; acc_name := "Visa Credit Card"; acc_offbudget := false;
     acc_closed := false; acc_tombstone := false; acc_is_debt := false |}.

Definition purchase : transaction :=
  {| tx_id := "tx-1"; tx_acct := "acct-1"; tx_amount := (-238438)%float;
     tx_date := "2023-10-02"; tx_payee := None; tx_category := None;
     tx_notes := Some "Furniture"; tx_cleared := true; tx_tombstone := false |}.

Definition interest_charge (id date : string) : transaction :=
  {| tx_id := id; tx_acct := "acct-1"; tx_amount := (-3854)%float;
     tx_date := date; tx_payee := None; tx_category := None;
     tx_notes := Some "Interest charge"; tx_cleared := true; tx_tombstone := false |}.

(** The card owes 2500.00, of which three interest charges of 38.54. *)
Definition books : database :=
  {| accounts := [card];
     transactions :=
       [purchase; interest_charge "tx-2" "2023-10-15";
        interest_charge "tx-3" "2023-11-15"; interest_charge "tx-4" "2023-12-15"];
     payees := []; categories := []; rules := []; rule_conditions := [];
     rule_actions := []; schedules := []; schedules_next_date := [] |}.

Definition with_card : world := {| db := books; uuid_count := 0 |}.

(** What the scorer makes of the card. *)
Definition card_candidate : Detection.DebtCandidate :=
  {| Detection.accountId := "acct-1"; Detection.accountName := "Visa Credit Card";
     Detection.balance := (-250000)%float; Detection.currentlyOffBudget := false;
     Detection.confidence := Detection.high; Detection.score := 80;
     Detection.reasons :=
       [Detection.SignificantNegativeBalance (-250000);
        Detection.NameSuggestsDebt "Visa Credit Card";
        Detection.InterestChargesDetected 3; Detection.EstimatedAPR 18.5];
     Detection.suggestedDebtType := Detection.credit_card;
     Detection.detectedAPR := Some 18.5%float |}.

(** A stand-in for [Math.log] with [Math.log(1) = 0]. *)
Definition Math_log (x : float) : float := (x - 1)%float.

End Household.

Section MoreInstances.

Import Js Ledger Automation.
Local Open Scope string_scope.

Lemma String_of_Z_inj (a b : Z) : Dates.String_of_Z a = Dates.String_of_Z b -> a = b.
Proof.
  assert (Hn : forall z, Z.to_int z <> Decimal.Pos Decimal.Nil
                         /\ Z.to_int z <> Decimal.Neg Decimal.Nil).
  { intros [|p|p]; cbn; split; try discriminate; intros H; injection H as H;
      now apply DecimalPos.Unsigned.to_uint_nonnil in H. }
  unfold Dates.String_of_Z. intros H.
  apply (f_equal DecimalString.NilZero.int_of_string) in H.
  destruct (Hn a) as (A1 & A2), (Hn b) as (B1 & B2).
  rewrite !DecimalString.NilZero.isi in H by assumption. injection H as H.
  now apply DecimalZ.to_int_inj.
Qed.

Lemma Sample_uuid_of_inj (a b : nat) : Sample.uuid_of a = Sample.uuid_of b -> a = b.
Proof.
  unfold Sample.uuid_of. cbn [append]. intros H. injection H as H.
  apply String_of_Z_inj in H. lia.
Qed.


(** The derived rate for a charge of 38.54 on a balance of -2500.00. *)
Lemma calculateAPRFromInterest_not_negative_instance :
  exists a : float,
    Interest.calculateAPRFromInterest Sample.Math_pow (-3854) (-250000) "simple" = Some a
    /\ PrimFloat.leb 0 a = true.
Proof.
  apply (calculateAPRFromInterest_not_negative Sample.Math_pow (-3854) (-250000) "simple");
    try discriminate; reflexivity.
Defined.

(** The interest on 2500.00 at 18.5 is a whole number of cents. *)
Lemma calculateInterest_whole_cents_instance :
  exists n : Z,
    FloatError.val (Interest.calculateInterest Sample.Math_pow (-250000) 18.5 "simple" "monthly")
    = Reals.Rdefinitions.IZR n.
Proof.
  apply (calculateInterest_whole_cents Sample.Math_pow (-250000) 18.5 "simple" "monthly").
  vm_compute. exact I.
Defined.

(** A charge of 15.42 on a principal of 1000.00. *)
Lemma calculateInterest_of_derived_apr_instance :
  exists a : float,
    Interest.calculateAPRFromInterest Sample.Math_pow (of_Z 1542) 100000 "simple" = Some a
    /\ Interest.calculateInterest Sample.Math_pow (- 100000) a "simple" "monthly"
       = of_Z 1542.
Proof.
  apply (calculateInterest_of_derived_apr Sample.Math_pow 100000 1542 "simple" "monthly");
    [now left | reflexivity | reflexivity | lia].
Defined.

(** The posting day 31 from January 2025: February has 28 days. *)
Lemma getNextInterestDate_day_past_end_instance :
  Dates.getNextInterestDate "2000-01-01" (Some 31%Z) (Some (Dates.show_day 2025 1 15))
  = Dates.getNextInterestDate "2000-01-01" None (Some (Dates.show_day 2025 1 15))
  /\ Dates.getNextInterestDate "2000-01-01" (Some 31%Z) (Some (Dates.show_day 2025 1 15))
     = Some (Dates.show_day 2025 2 28).
Proof.
  apply (PostingDays.getNextInterestDate_day_past_end "2000-01-01" 2025 1 15 31);
    try lia. vm_compute. discriminate.
Defined.

(** The posting day 0 from January 2025. *)
Lemma getNextInterestDate_day_not_positive_instance :
  Dates.getNextInterestDate "2000-01-01" (Some 0%Z) (Some (Dates.show_day 2025 1 15))
  = Some "2025-02-00".
Proof.
  apply (proj1 (proj2 (PostingDays.getNextInterestDate_day_not_positive "2000-01-01"
                         2025 1 15 ltac:(lia) ltac:(lia) ltac:(lia)))%Z).
Defined.

(** Three postings on the day 31 from 2025-01-31: the third is 2025-04-30. *)
Lemma posting_date_after_months_instance :
  PostingDays.posting_date_after "2000-01-01" (Some 31%Z) 3 (Dates.show_day 2025 1 31)
  = Some (Dates.show_day 2025 4 30).
Proof.
  apply (PostingDays.posting_date_after_months "2000-01-01" (Some 31%Z) 3 2025 1 31);
    cbn; lia.
Defined.


(** Deleting the schedule of an account that has none. *)
Lemma deleteInterestSchedule_without_schedule_instance :
  deleteInterestSchedule "acct-2" Sample.one_schedule = (Ok tt, Sample.one_schedule).
Proof.
  apply (deleteInterestSchedule_without_schedule "acct-2" Sample.one_schedule).
  reflexivity.
Defined.

(** Deleting the one schedule of the account: the four tables are empty
    afterwards, and the next-date row, whose id is not the schedule's, is
    still there. *)
Lemma deleteInterestSchedule_found_instance :
  exists w' : world,
    deleteInterestSchedule "acct-1" Sample.one_schedule = (Ok tt, w')
    /\ schedules (db w') = [] /\ rules (db w') = []
    /\ rule_conditions (db w') = [] /\ rule_actions (db w') = []
    /\ schedules_next_date (db w') = schedules_next_date (db Sample.one_schedule)
    /\ governing (db w') "acct-1" = [].
Proof.
  destruct (deleteInterestSchedule_found "acct-1" Sample.one_schedule Sample.schedule_1
              eq_refl)
    as (w' & H0 & _ & _ & _ & _ & _ & H6 & H7 & H8 & H9 & H10 & _ & H12).
  exists w'. split; [exact H0|].
  split; [exact H6|]. split; [exact H7|]. split; [exact H8|]. split; [exact H9|].
  split; [exact H10|]. apply H12. reflexivity.
Defined.

(** A first schedule for the second account, on the store that has one for
    the first. *)
Lemma setupInterestSchedule_new_schedule_instance :
  exists w' : world,
    setupInterestSchedule Sample.uuid_of Sample.toDateRepr Sample.clock Sample.params_2
      Sample.one_schedule = (Ok "uuid-0", w')
    /\ select_schedule (db w') "acct-2" = Some ("uuid-0", "uuid-1")
    /\ select_payee (db w') "Interest Charge" = Some "payee-interest"
    /\ option_map ra_value (action_of (db w') "uuid-1" "debt_interest_config")
       = Some (AInterestConfig 24 "compound_monthly" "monthly").
Proof.
  destruct (setupInterestSchedule_new_schedule Sample.uuid_of Sample.toDateRepr
              Sample.clock Sample.params_2 Sample.one_schedule "2024-02-29"
              eq_refl eq_refl)
    as (w' & H0 & _ & _ & _ & _ & _ & _ & _ & _ & _ & H10 & H11 & _ & _ & H14).
  - intros s [<- | []]. vm_compute. discriminate.
  - intros a [<- | [<- | [<- | []]]]; vm_compute; discriminate.
  - exists w'. split; [exact H0|]. split; [exact H10|]. split; [exact H11 | exact H14].
Defined.

(** A schedule created for the second account and deleted again. *)
Lemma setupInterestSchedule_then_delete_instance :
  exists (id : string) (w1 w2 : world),
    setupInterestSchedule Sample.uuid_of Sample.toDateRepr Sample.clock Sample.params_2
      Sample.one_schedule = (Ok id, w1)
    /\ deleteInterestSchedule "acct-2" w1 = (Ok tt, w2)
    /\ schedules (db w2) = schedules (db Sample.one_schedule)
    /\ rules (db w2) = rules (db Sample.one_schedule)
    /\ governing (db w2) "acct-2" = []
    /\ List.length (schedules_next_date (db w2)) = 2%nat.
Proof.
  destruct (setupInterestSchedule_then_delete Sample.uuid_of Sample.toDateRepr
              Sample.clock Sample.params_2 Sample.one_schedule "2024-02-29"
              eq_refl eq_refl)
    as (id & w1 & w2 & H0 & H1 & H2 & H3 & _ & _ & H6 & _ & H8 & _).
  - intros s [<- | []]. vm_compute. split; discriminate.
  - intros r [<- | []]. vm_compute. discriminate.
  - intros c [<- | []]. vm_compute. discriminate.
  - intros a [<- | [<- | [<- | []]]]; vm_compute; discriminate.
  - intros n [<- | []]. vm_compute. discriminate.
  - intros k Hk E. apply Sample_uuid_of_inj in E. cbn in Hk, E. lia.
  - exists id, w1, w2. split; [exact H0|]. split; [exact H1|]. split; [exact H2|].
    split; [exact H3|]. split; [exact H6|]. rewrite H8. reflexivity.
Defined.

(** A schedule for the second account leaves the schedule of the first. *)
Lemma setupInterestSchedule_other_account_instance :
  exists (id : string) (w' : world),
    setupInterestSchedule Sample.uuid_of Sample.toDateRepr Sample.clock Sample.params_2
      Sample.one_schedule = (Ok id, w')
    /\ governing (db w') "acct-1" = governing (db Sample.one_schedule) "acct-1"
    /\ select_schedule (db w') "acct-1" = select_schedule (db Sample.one_schedule) "acct-1".
Proof.
  apply (setupInterestSchedule_other_account Sample.uuid_of Sample.toDateRepr
           Sample.clock Sample.params_2 Sample.one_schedule "2024-02-29" "acct-1").
  - vm_compute. discriminate.
  - reflexivity.
  - intros s [<- | []]. vm_compute. discriminate.
  - intros c [<- | []]. vm_compute. discriminate.
Defined.

(** The parameters of a second call on the account that has a schedule. *)
Lemma setupInterestSchedule_stores_parameters_instance :
  exists w' : world,
    setupInterestSchedule Sample.uuid_of Sample.toDateRepr Sample.clock Sample.params
      Sample.one_schedule = (Ok "sched-1", w')
    /\ option_map ra_value (action_of (db w') "rule-1" "debt_interest_config")
       = Some (AInterestConfig 18.5 "simple" "monthly")
    /\ option_map ra_value (action_of (db w') "rule-1" "category")
       = Some (AText "cat-interest").
Proof.
  destruct (setupInterestSchedule_stores_parameters Sample.uuid_of Sample.toDateRepr
              Sample.clock Sample.params Sample.one_schedule Sample.schedule_1
              "2024-02-15" eq_refl eq_refl)
    as (w' & H0 & H1 & H2 & _).
  - cbn. repeat constructor; cbn; intuition discriminate.
  - exists w'. split; [exact H0|]. split.
    + apply H1. vm_compute. discriminate.
    + apply H2. vm_compute. discriminate.
Defined.

(** A posting on the card that owes 2500.00 at 18.5: 38.54 more is owed. *)
Lemma postInterestTransaction_adds_to_balance_instance :
  exists (id : string) (w' : world),
    postInterestTransaction Sample.Math_pow Sample.uuid_of Sample.Number_toString
      Sample.clock Sample.params None Household.with_card = (Ok id, w')
    /\ select_balance (db w') "acct-1" = Some (-253854)%float
    /\ List.length (transactions (db w')) = 5%nat.
Proof.
  destruct (postInterestTransaction_adds_to_balance Sample.Math_pow Sample.uuid_of
              Sample.Number_toString Sample.clock Sample.params None Household.with_card
              eq_refl)
    as (id & w' & b & t & H0 & H1 & _ & H3 & _ & _ & _ & _ & _ & _ & _ & _ & _ & H13 & _).
  exists id, w'. split; [exact H0|]. split.
  - refine (eq_trans H13 _). vm_compute in H1. injection H1 as <-. reflexivity.
  - rewrite H3, length_app. reflexivity.
Defined.


(** The card is the one candidate of the ledger with a card. *)
Lemma card_found :
  Detection.detectDebtAccounts Sample.Math_pow Household.books
  = [Household.card_candidate].
Proof. vm_compute. reflexivity. Qed.

(** The score and the confidence of the card. *)
Lemma detectDebtAccounts_confidence_instance :
  (40 <= Detection.score Household.card_candidate <= 140)%Z
  /\ (Detection.confidence Household.card_candidate = Detection.high
      <-> (70 <= Detection.score Household.card_candidate)%Z).
Proof.
  destruct (detectDebtAccounts_confidence Sample.Math_pow Household.books
              Household.card_candidate) as (H1 & _ & H3 & _).
  - rewrite card_found. now left.
  - split; [exact H1 | exact H3].
Defined.

(** The estimate from the three interest charges of the card. *)
Lemma detectInterestTransactions_estimate_instance :
  (exists k : Z, (10 <= k <= 5000)%Z /\ 18.5%float = (of_Z k / 100)%float)
  /\ Detection.count (Detection.detectInterestTransactions Household.books "acct-1")
     = 3%nat.
Proof.
  destruct (detectInterestTransactions_estimate Household.books "acct-1" 18.5 eq_refl)
    as (H1 & _ & _).
  split; [exact H1 | reflexivity].
Defined.

(** The detected APR of the card is among its reasons. *)
Lemma detectDebtAccounts_detected_apr_instance :
  In (Detection.EstimatedAPR 18.5) (Detection.reasons Household.card_candidate)
  /\ exists n : nat,
       (3 <= n <= 12)%nat
       /\ In (Detection.InterestChargesDetected n)
            (Detection.reasons Household.card_candidate).
Proof.
  destruct (detectDebtAccounts_detected_apr Sample.Math_pow Household.books
              Household.card_candidate 18.5) as (_ & H2 & H3).
  - rewrite card_found. now left.
  - reflexivity.
  - split; [exact H2 | exact H3].
Defined.

(** A balance of 2500.00 paid off at 50.00 a month, without interest. *)
Lemma calculatePayoffMonths_zero_rate_instance :
  Prim2SF (Payoff.calculatePayoffMonths Household.Math_log 250000 0 5000) = S754_nan.
Proof.
  apply (calculatePayoffMonths_zero_rate Household.Math_log eq_refl 250000 5000);
    reflexivity.
Defined.

End MoreInstances.
